(** * RenderSceneImpl: a shallow embedding of the render-scene component store

    The development follows render_scene.cpp.  Each module embeds one group of member functions of [RenderSceneImpl] together
    with the part of the scene state those functions touch, and then states
    the properties of that group.

    Conventions.
    - An entity ([EntityRef], [EntityPtr]) is its integer index; the invalid
      entity is index -1 and [isValid] is [0 <= index].
    - A C++ [float] is an IEEE-754 binary32 value, represented with the
      Standard Library's [spec_float] at precision 24 and maximal exponent
      128, so that float arithmetic can be evaluated.
    - An [Array<T>] is a [list T]; a [HashMap<K,V>] is a [gmap K V]; an
      [AssociativeArray<K,V>] is a key-sorted association list.
    - A member function that can violate a contract of the engine (a failed
      map lookup, an out-of-bounds read, a failed assertion) returns an
      [option] or a result type that names the fault. *)

From Stdlib Require Import ZArith QArith Qabs Lqa SpecFloat.
From stdpp Require Import gmap list.

Open Scope Z_scope.

(** ** Entities *)

Abbreviation Entity := Z.

Definition INVALID_ENTITY : Entity := -1.

Definition isValid (e : Entity) : bool := 0 <=? e.

(** ** Outcomes of member functions that can fault

    [OutOfBoundsRead], [OutOfBoundsWrite]: an array is read or written
    outside its bounds;
    [MissingComponent]: a map is indexed with an entity it does not hold;
    [NullDereference]: a member of a null resource pointer is used;
    [TruncatedStream]: a read runs past the end of an input blob;
    [AssertionFailed]: an [ASSERT] of the source does not hold (assertions
    are fatal, so the function does not go on);
    [Diverges]: a loop or a recursion did not finish within the fuel given
    to it. *)

Inductive fault :=
| OutOfBoundsRead
| OutOfBoundsWrite
| MissingComponent
| NullDereference
| TruncatedStream
| AssertionFailed
| Diverges.

Inductive outcome (A : Type) :=
| Ok (a : A)
| Fault (f : fault).

Arguments Ok {A} a.
Arguments Fault {A} f.

Definition bind {A B} (m : outcome A) (k : A -> outcome B) : outcome B :=
  match m with
  | Ok a => k a
  | Fault f => Fault f
  end.

(** ** binary32 floats *)

Module Float32.

Definition prec : Z := 24.
Definition emax : Z := 128.

Definition float := spec_float.

Definition of_int (z : Z) : float := binary_normalize prec emax z 0 false.
Definition fmul : float -> float -> float := SFmul prec emax.
Definition fdiv : float -> float -> float := SFdiv prec emax.

Definition one : float := of_int 1.

(** The exact rational value of a finite float. *)
Definition to_Q (f : float) : option Q :=
  match f with
  | S754_zero _ => Some 0%Q
  | S754_finite s m e =>
      Some ((if s then (-1)%Q else 1%Q) * inject_Z (Z.pos m) * Qpower 2 e)%Q
  | _ => None
  end.

(** [within f target tol]: [f] is finite and [|f - target| <= tol]. *)
Definition within (f : float) (target tol : Q) : bool :=
  match to_Q f with
  | Some q => Qle_bool (Qabs (q - target)) tol
  | None => false
  end.

End Float32.

(** ** Cameras and the LOD multiplier

    [Camera], [createCamera] and both overloads of [getCameraLODMultiplier]. *)

Module CameraLOD.
Import Float32.

(** Modelled from the spec: [Math::PI] of engine/math_utils.h, which is not
    among the sources; the float literal 3.14159265f (bit pattern
    0x40490FDB). *)
Definition PI : float := S754_finite false 13176795 (-22).

(** Modelled from the spec: [Math::degreesToRadians] of engine/math_utils.h,
    which is not among the sources; [angle * PI / 180.0f], the conversion
    behind the spec's "60 degrees". *)
Definition degreesToRadians (angle : float) : float :=
  fdiv (fmul angle PI) (of_int 180).

Record Camera := mkCamera {
  entity : Entity;
  fov : float;
  aspect : float;
  near : float;
  far : float;
  ortho_size : float;
  screen_width : float;
  screen_height : float;
  is_ortho : bool
}.

Record Scene := mkScene {
  m_cameras : gmap Z Camera;
  m_active_camera : Entity
}.

(** 0.1f and 10000.0f, 800.0f / 600.0f as binary32 values. *)
Definition f_0_1 : float := fdiv (of_int 1) (of_int 10).
Definition f_4_3 : float := fdiv (of_int 800) (of_int 600).

Definition createCamera (e : Entity) (s : Scene) : Scene :=
  let camera :=
    {| is_ortho := false;
       ortho_size := of_int 10;
       entity := e;
       fov := degreesToRadians (of_int 60);
       screen_width := of_int 800;
       screen_height := of_int 600;
       aspect := f_4_3;
       near := f_0_1;
       far := of_int 10000 |} in
  {| m_cameras := <[e := camera]> (m_cameras s);
     m_active_camera :=
       if isValid (m_active_camera s) then m_active_camera s else e |}.

(** [getCameraLODMultiplier(float fov, bool is_ortho)]. *)
Definition getCameraLODMultiplier (fov : float) (is_ortho : bool) : float :=
  if is_ortho then of_int 1
  else
    let lod_multiplier := fdiv fov (degreesToRadians (of_int 60)) in
    fmul lod_multiplier lod_multiplier.

(** [getCameraLODMultiplier(EntityRef)]: the lookup in [m_cameras] fails
    loudly when the entity has no camera. *)
Definition getCameraLODMultiplierOf (s : Scene) (e : Entity) : option float :=
  camera ← m_cameras s !! e;
  Some (getCameraLODMultiplier (fov camera) (is_ortho camera)).

Definition setCameraFOV (e : Entity) (f : float) (s : Scene) : option Scene :=
  camera ← m_cameras s !! e;
  Some {| m_cameras :=
            <[e := {| entity := entity camera; fov := f;
                      aspect := aspect camera; near := near camera;
                      far := far camera; ortho_size := ortho_size camera;
                      screen_width := screen_width camera;
                      screen_height := screen_height camera;
                      is_ortho := is_ortho camera |}]> (m_cameras s);
          m_active_camera := m_active_camera s |}.

(** The spec's reading of the multiplier: the square of [fov] over sixty
    degrees, in float arithmetic. *)
Definition sixty_degrees : float := degreesToRadians (of_int 60).

Definition fov_ratio_squared (fov : float) : float :=
  let r := fdiv fov sixty_degrees in fmul r r.

Definition tolerance : Q := (1 # 100000)%Q.

Lemma lod_default_fov_exact :
  getCameraLODMultiplier (degreesToRadians (of_int 60)) false = one.
Proof. vm_compute. reflexivity. Qed.

Lemma lod_120_fov_exact :
  getCameraLODMultiplier (degreesToRadians (of_int 120)) false = of_int 4.
Proof. vm_compute. reflexivity. Qed.

Lemma createCamera_lookup e s :
  m_cameras (createCamera e s) !! e =
  Some (mkCamera e (degreesToRadians (of_int 60)) f_4_3 f_0_1 (of_int 10000)
          (of_int 10) (of_int 800) (of_int 600) false).
Proof. unfold createCamera; simpl. by rewrite lookup_insert_eq. Qed.

(** C3. For every fov and ortho flag, [getCameraLODMultiplier] is 1 for an
    orthographic camera and the float square of [fov / 60 degrees] for a
    perspective one; a freshly created camera (default 60 degree fov) gets a
    multiplier within 1e-5 of 1.0, and after its fov is set to 120 degrees the
    multiplier is within 1e-5 of 4.0. *)
Theorem getCameraLODMultiplier_spec :
  (forall fov, getCameraLODMultiplier fov true = one) /\
  (forall fov, getCameraLODMultiplier fov false = fov_ratio_squared fov) /\
  (forall e s,
     exists m, getCameraLODMultiplierOf (createCamera e s) e = Some m /\
               within m 1 tolerance = true) /\
  (forall e s,
     exists s' m,
       setCameraFOV e (degreesToRadians (of_int 120)) (createCamera e s) = Some s' /\
       getCameraLODMultiplierOf s' e = Some m /\
       within m 4 tolerance = true).
Proof.
  split; [reflexivity|]. split; [reflexivity|]. split.
  - intros e s. exists one. split; [|by vm_compute].
    unfold getCameraLODMultiplierOf. rewrite createCamera_lookup.
    exact (f_equal Some lod_default_fov_exact).
  - intros e s. eexists _, (of_int 4). split; [|split; [|by vm_compute]].
    + unfold setCameraFOV. rewrite createCamera_lookup. simpl. reflexivity.
    + unfold getCameraLODMultiplierOf. cbn [m_cameras]. rewrite lookup_insert_eq.
      exact (f_equal Some lod_120_fov_exact).
Qed.

End CameraLOD.

(** ** Engine containers

    engine/array.h and engine/associative_array.h are not among the
    sources; the operations the scene uses are modelled here. *)

Module Containers.

(** [array[i]] for a C++ [int] index. *)
Definition at_index {A} (l : list A) (i : Z) : option A :=
  if i <? 0 then None else l !! Z.to_nat i.

Lemma at_index_valid {A} (l : list A) i :
  isValid i = true -> at_index l i = l !! Z.to_nat i.
Proof.
  unfold isValid, at_index. intros Hi. apply Z.leb_le in Hi.
  by assert ((i <? 0) = false) as -> by (apply Z.ltb_ge; lia).
Qed.

(** Modelled from the spec: [Array::eraseFast], the "fast swap-to-end"
    removal.  The last element is moved into the freed slot and the array
    shrinks by one; an index outside the array changes nothing. *)
Definition eraseFast {A} (l : list A) (index : nat) : list A :=
  match last l with
  | Some x =>
      if bool_decide (index < length l)%nat
      then take (length l - 1) (<[index := x]> l)
      else l
  | None => l
  end.

Lemma eraseFast_length {A} (l : list A) i :
  (i < length l)%nat -> length (eraseFast l i) = (length l - 1)%nat.
Proof.
  intros Hi. unfold eraseFast.
  destruct (last l) as [x|] eqn:Hl.
  - rewrite bool_decide_eq_true_2 by done.
    rewrite length_take, length_insert. lia.
  - apply last_None in Hl. subst. simpl in Hi. lia.
Qed.

Lemma eraseFast_lookup_moved {A} (l : list A) i x :
  (i + 1 < length l)%nat -> last l = Some x -> eraseFast l i !! i = Some x.
Proof.
  intros Hi Hl. unfold eraseFast. rewrite Hl.
  rewrite bool_decide_eq_true_2 by lia.
  rewrite lookup_take_lt by lia.
  apply list_lookup_insert_eq. lia.
Qed.

Lemma eraseFast_lookup_other {A} (l : list A) i j :
  (i < length l)%nat -> (j < length l - 1)%nat -> j <> i ->
  eraseFast l i !! j = l !! j.
Proof.
  intros Hi Hj Hne. unfold eraseFast.
  destruct (last l) as [x|] eqn:Hl.
  - rewrite bool_decide_eq_true_2 by done.
    rewrite lookup_take_lt by lia.
    by rewrite list_lookup_insert_ne.
  - apply last_None in Hl. subst. simpl in Hi. lia.
Qed.

(** Modelled from the spec: [AssociativeArray::insert] with entity keys.
    The array is an association list kept sorted by key, so iteration runs in
    key order; a key that is already present is not inserted again. *)
Fixpoint aa_insert {V} (k : Z) (v : V) (l : list (Z * V)) : list (Z * V) :=
  match l with
  | [] => [(k, v)]
  | (k', v') :: t =>
      if k <? k' then (k, v) :: l
      else if k =? k' then l
      else (k', v') :: aa_insert k v t
  end.

(** Modelled from the spec: [AssociativeArray::find] / [operator[]]. *)
Fixpoint aa_find {V} (k : Z) (l : list (Z * V)) : option V :=
  match l with
  | [] => None
  | (k', v') :: t => if k =? k' then Some v' else aa_find k t
  end.

(** Modelled from the spec: [AssociativeArray::erase]. *)
Fixpoint aa_erase {V} (k : Z) (l : list (Z * V)) : list (Z * V) :=
  match l with
  | [] => []
  | (k', v') :: t => if k =? k' then t else (k', v') :: aa_erase k t
  end.

(** Modelled from the spec: an assignment through the reference that
    [AssociativeArray::operator[]] returns. *)
Fixpoint aa_set {V} (k : Z) (v : V) (l : list (Z * V)) : list (Z * V) :=
  match l with
  | [] => []
  | (k', v') :: t => if k =? k' then (k', v) :: t else (k', v') :: aa_set k v t
  end.

Lemma aa_find_erase_ne {V} (k k' : Z) (l : list (Z * V)) :
  k' <> k -> aa_find k' (aa_erase k l) = aa_find k' l.
Proof.
  intros Hne. induction l as [|[k0 v0] t IH]; simpl; [done|].
  destruct (k =? k0) eqn:Hk.
  - apply Z.eqb_eq in Hk. subst k0.
    destruct (k' =? k) eqn:Hk'; [apply Z.eqb_eq in Hk'; done|done].
  - simpl. by rewrite IH.
Qed.

End Containers.

(** ** Flags of a model instance

    renderer/render_scene.h, which declares [struct ModelInstance] with its
    [Flags], and engine/flag_set.h are not among the sources.  The spec names
    the flags (custom meshes, is-bone-attachment-parent, enabled) and the
    "persistent" subset; a [FlagSet] keeps the flags in the integer [base]. *)

Module FlagSet.

(** Modelled from the spec: the bits of [ModelInstance::Flags]. *)
Definition CUSTOM_MESHES : Z := 1.
Definition KEEP_SKIN_DEPRECATED : Z := 2.
Definition IS_BONE_ATTACHMENT_PARENT : Z := 4.
Definition ENABLED : Z := 8.

(** Modelled from the spec: the runtime flag is the custom-meshes flag; the
    persistent flags are all other bits of the flags byte. *)
Definition RUNTIME_FLAGS : Z := CUSTOM_MESHES.
Definition PERSISTENT_FLAGS : Z := Z.land (Z.lnot RUNTIME_FLAGS) 255.

(** Modelled from the spec: [FlagSet::set], [unset], [isSet], [set] with a
    value, and [clear], on the integer [base]. *)
Definition set (base flag : Z) : Z := Z.lor base flag.
Definition unset (base flag : Z) : Z := Z.land base (Z.lnot flag).
Definition isSet (base flag : Z) : bool := negb (Z.land base flag =? 0).
Definition set_to (base flag : Z) (value : bool) : Z :=
  if value then set base flag else unset base flag.
Definition clear : Z := 0.

Lemma isSet_unset base flag : isSet (unset base flag) flag = false.
Proof.
  unfold isSet, unset. rewrite <- Z.land_assoc.
  rewrite (Z.land_comm (Z.lnot flag)), Z.land_lnot_diag, Z.land_0_r. done.
Qed.

Lemma isSet_set base flag : flag <> 0 -> isSet (set base flag) flag = true.
Proof.
  intros Hf. unfold isSet, set.
  rewrite Z.land_lor_distr_l, Z.land_diag.
  destruct (Z.lor (Z.land base flag) flag =? 0) eqn:H; [|done].
  apply Z.eqb_eq, Z.lor_eq_0_iff in H. tauto.
Qed.

End FlagSet.

(** ** Point lights: dense array plus entity -> index side map

    [createPointLight], [destroyPointLight] and the lookups that go through
    [m_point_lights_map]. *)

Module PointLights.
Import Float32 Containers.

Record Vec3 := mkVec3 { x : float; y : float; z : float }.

Record PointLight := mkPointLight {
  m_diffuse_color : Vec3;
  m_specular_color : Vec3;
  m_diffuse_intensity : float;
  m_specular_intensity : float;
  m_entity : Entity;
  m_fov : float;
  m_attenuation_param : float;
  m_range : float;
  m_cast_shadows : bool
}.

Record Scene := mkScene {
  m_point_lights : list PointLight;
  m_point_lights_map : gmap Z nat
}.

Definition white : Vec3 := mkVec3 one one one.

Definition createPointLight (e : Entity) (s : Scene) : Scene :=
  let light :=
    {| m_entity := e;
       m_diffuse_color := white;
       m_diffuse_intensity := one;
       m_fov := CameraLOD.degreesToRadians (of_int 360);
       m_specular_color := white;
       m_specular_intensity := one;
       m_cast_shadows := false;
       m_attenuation_param := of_int 2;
       m_range := of_int 10 |} in
  let lights := m_point_lights s ++ [light] in
  {| m_point_lights := lights;
     m_point_lights_map := <[e := (length lights - 1)%nat]> (m_point_lights_map s) |}.

(** [destroyPointLight]: [m_point_lights_map[entity]] fails loudly ([None])
    when the entity has no point light.  The notification of the universe
    ([onComponentDestroyed]) does not touch the scene and is left out. *)
Definition destroyPointLight (e : Entity) (s : Scene) : option Scene :=
  index ← m_point_lights_map s !! e;
  let lights := eraseFast (m_point_lights s) index in
  let map := delete e (m_point_lights_map s) in
  Some {| m_point_lights := lights;
          m_point_lights_map :=
            if bool_decide (index < length lights)%nat then
              match lights !! index with
              | Some moved => <[m_entity moved := index]> map
              | None => map
              end
            else map |}.

(** [getPointLightEntity]: a lookup through the side map. *)
Definition getPointLight (s : Scene) (e : Entity) : option PointLight :=
  index ← m_point_lights_map s !! e;
  m_point_lights s !! index.

(** The side map and the dense array agree: slot [i] holds the light of
    entity [e] exactly when the map sends [e] to [i]. *)
Definition index_map_ok (s : Scene) : Prop :=
  forall (e : Z) (i : nat),
    m_point_lights_map s !! e = Some i <->
    exists l, m_point_lights s !! i = Some l /\ m_entity l = e.

Definition empty_scene : Scene := mkScene [] ∅.

Lemma index_map_ok_empty : index_map_ok empty_scene.
Proof.
  intros e i. simpl. rewrite lookup_empty. split; [done|].
  intros (l & Hl & _). by rewrite lookup_nil in Hl.
Qed.

Lemma index_map_ok_inj s i j li lj :
  index_map_ok s ->
  m_point_lights s !! i = Some li -> m_point_lights s !! j = Some lj ->
  m_entity li = m_entity lj -> i = j.
Proof.
  intros Hok Hi Hj He.
  assert (m_point_lights_map s !! m_entity li = Some i) as H1
    by (apply Hok; eauto).
  assert (m_point_lights_map s !! m_entity li = Some j) as H2
    by (apply Hok; eauto).
  congruence.
Qed.

Lemma createPointLight_ok e s :
  index_map_ok s -> m_point_lights_map s !! e = None ->
  index_map_ok (createPointLight e s).
Proof.
  intros Hok Hfresh e' i. unfold createPointLight. simpl.
  rewrite length_app. simpl.
  replace (length (m_point_lights s) + 1 - 1)%nat with (length (m_point_lights s)) by lia.
  destruct (decide (e = e')) as [->|Hne].
  - rewrite lookup_insert_eq. split.
    + intros [= <-]. eexists. split.
      * rewrite lookup_app_r by lia. by rewrite Nat.sub_diag.
      * reflexivity.
    + intros (l & Hl & He).
      destruct (decide (i < length (m_point_lights s))%nat) as [Hlt|Hge].
      * rewrite lookup_app_l in Hl by done.
        assert (m_point_lights_map s !! e' = Some i) as Hm by (apply Hok; eauto).
        congruence.
      * apply lookup_lt_Some in Hl as Hlen. rewrite length_app in Hlen.
        simpl in Hlen. f_equal. lia.
  - rewrite lookup_insert_ne by done. rewrite (Hok e' i). split.
    + intros (l & Hl & He). exists l. split; [|done].
      rewrite lookup_app_l; [done|]. by eapply lookup_lt_Some.
    + intros (l & Hl & He).
      destruct (decide (i < length (m_point_lights s))%nat) as [Hlt|Hge].
      * rewrite lookup_app_l in Hl by done. eauto.
      * rewrite lookup_app_r in Hl by lia.
        destruct (i - length (m_point_lights s))%nat; simpl in Hl; [|done].
        injection Hl as <-. simpl in He. congruence.
Qed.

Lemma destroyPointLight_unfold e s i :
  m_point_lights_map s !! e = Some i ->
  (i + 1 < length (m_point_lights s))%nat ->
  forall lst, last (m_point_lights s) = Some lst ->
  destroyPointLight e s =
  Some {| m_point_lights := eraseFast (m_point_lights s) i;
          m_point_lights_map := <[m_entity lst := i]> (delete e (m_point_lights_map s)) |}.
Proof.
  intros Hm Hi lst Hlast. unfold destroyPointLight. rewrite Hm. simpl.
  rewrite eraseFast_length by lia.
  rewrite bool_decide_eq_true_2 by lia.
  by rewrite (eraseFast_lookup_moved _ _ lst).
Qed.

(** C6. Destroying a point light stored at a slot [i] that is not the last
    one moves the last light into slot [i]; afterwards the side map sends the
    moved light's entity to [i], no longer contains the destroyed entity, and
    agrees with the dense array on every slot, so every remaining light is
    still found through the map. *)
Theorem destroyPointLight_repairs_index (s : Scene) (e : Z) (i : nat) (lst : PointLight) :
  index_map_ok s ->
  m_point_lights_map s !! e = Some i ->
  (i + 1 < length (m_point_lights s))%nat ->
  last (m_point_lights s) = Some lst ->
  exists s',
    destroyPointLight e s = Some s' /\
    m_point_lights s' !! i = Some lst /\
    m_point_lights_map s' !! m_entity lst = Some i /\
    m_point_lights_map s' !! e = None /\
    index_map_ok s' /\
    (forall e' l, e' <> e -> getPointLight s e' = Some l -> getPointLight s' e' = Some l).
Proof.
  intros Hok Hm Hi Hlast.
  eexists. split; [by apply destroyPointLight_unfold|]. simpl.
  set (n := length (m_point_lights s)) in *.
  assert (m_point_lights s !! (n - 1)%nat = Some lst) as Hlst.
  { rewrite last_lookup in Hlast. by replace (n - 1)%nat with (pred n) by lia. }
  destruct (proj1 (Hok e i) Hm) as (li & Hli & Heli).
  assert (m_entity lst <> e) as Hne.
  { intros Heq. assert (i = (n - 1)%nat); [|lia].
    eapply (index_map_ok_inj s); eauto. congruence. }
  assert (forall j l, m_point_lights s !! j = Some l -> m_entity l = m_entity lst -> j = (n - 1)%nat) as Hlast_only.
  { intros j l Hj He. eapply (index_map_ok_inj s); eauto. }
  assert (forall j l, m_point_lights s !! j = Some l -> m_entity l = e -> j = i) as Hi_only.
  { intros j l Hj He. eapply (index_map_ok_inj s); eauto. congruence. }
  assert (eraseFast (m_point_lights s) i !! i = Some lst) as Hmoved
    by (apply eraseFast_lookup_moved; [done|done]).
  assert (forall j, j <> i -> (j < n - 1)%nat ->
            eraseFast (m_point_lights s) i !! j = m_point_lights s !! j) as Hother
    by (intros j ? ?; apply eraseFast_lookup_other; fold n; lia).
  assert (forall j l, eraseFast (m_point_lights s) i !! j = Some l -> (j < n - 1)%nat) as Hbound.
  { intros j l Hj. apply lookup_lt_Some in Hj.
    rewrite eraseFast_length in Hj by (fold n; lia). done. }
  assert (index_map_ok {| m_point_lights := eraseFast (m_point_lights s) i;
            m_point_lights_map := <[m_entity lst := i]> (delete e (m_point_lights_map s)) |}) as Hok'.
  { intros e' j. simpl.
    destruct (decide (m_entity lst = e')) as [<-|Hne1].
    - rewrite lookup_insert_eq. split.
      + intros [= <-]. eauto.
      + intros (l & Hl & He). f_equal.
        destruct (decide (j = i)) as [->|Hji]; [done|].
        pose proof (Hbound _ _ Hl). rewrite Hother in Hl by done.
        pose proof (Hlast_only _ _ Hl He). lia.
    - rewrite lookup_insert_ne by done.
      destruct (decide (e = e')) as [<-|Hne2].
      + rewrite lookup_delete_eq. split; [done|].
        intros (l & Hl & He).
        destruct (decide (j = i)) as [->|Hji]; [congruence|].
        pose proof (Hbound _ _ Hl). rewrite Hother in Hl by done.
        pose proof (Hi_only _ _ Hl He). done.
      + rewrite lookup_delete_ne by done. rewrite (Hok e' j). split.
        * intros (l & Hl & He). exists l. split; [|done].
          assert (j <> i) by (intros ->; congruence).
          assert (j <> (n - 1)%nat) by (intros ->; congruence).
          apply lookup_lt_Some in Hl as Hlen. fold n in Hlen.
          rewrite Hother by lia. done.
        * intros (l & Hl & He). exists l. split; [|done].
          assert (j <> i) by (intros ->; congruence).
          pose proof (Hbound _ _ Hl). by rewrite Hother in Hl. }
  split; [done|]. split; [by rewrite lookup_insert_eq|].
  split; [by rewrite lookup_insert_ne, lookup_delete_eq|].
  split; [done|].
  intros e' l He' Hget. unfold getPointLight in *. simpl.
  destruct (m_point_lights_map s !! e') as [j|] eqn:Hj; simpl in Hget; [|done].
  destruct (proj1 (Hok e' j) Hj) as (l' & Hl' & Hel').
  assert (l' = l) as -> by congruence.
  assert (<[m_entity lst := i]> (delete e (m_point_lights_map s)) !! e'
          = Some (if decide (j = (n - 1)%nat) then i else j)) as ->.
  { apply Hok'. simpl. exists l. split; [|done].
    destruct (decide (j = (n - 1)%nat)) as [->|Hjn]; [congruence|].
    assert (j <> i) by (intros ->; congruence).
    apply lookup_lt_Some in Hget as Hlen. fold n in Hlen.
    rewrite Hother by lia. done. }
  simpl. destruct (decide (j = (n - 1)%nat)) as [->|Hjn]; [congruence|].
  assert (j <> i) by (intros ->; congruence).
  apply lookup_lt_Some in Hget as Hlen. fold n in Hlen.
  rewrite Hother by lia. done.
Qed.

Definition three_lights : Scene :=
  createPointLight 9 (createPointLight 4 (createPointLight 7 empty_scene)).

Lemma three_lights_ok : index_map_ok three_lights.
Proof.
  unfold three_lights.
  repeat (apply createPointLight_ok; [|by vm_compute]).
  apply index_map_ok_empty.
Qed.

Lemma destroyPointLight_repairs_index_witness :
  exists s',
    destroyPointLight 7 three_lights = Some s' /\
    (m_entity <$> m_point_lights s') = [9; 4] /\
    m_point_lights_map s' !! 9 = Some 0%nat /\
    m_point_lights_map s' !! 7 = None.
Proof.
  destruct (destroyPointLight_repairs_index three_lights 7 0%nat
              (mkPointLight white white one one 9
                 (CameraLOD.degreesToRadians (of_int 360)) (of_int 2) (of_int 10) false)
              three_lights_ok eq_refl ltac:(simpl; lia) eq_refl)
    as (s' & Hd & Hi & Hm & He & _).
  exists s'. split; [exact Hd|]. split; [|split; [exact Hm|exact He]].
  vm_compute in Hd. injection Hd as <-. reflexivity.
Defined.

End PointLights.

(** ** Bone attachments

    [updateBoneAttachment] (forward), [updateRelativeMatrix] (backward),
    [setBoneAttachmentBone], [setBoneAttachmentParent],
    [destroyBoneAttachment], [lockPose], [unlockPose] and [onEntityMoved],
    the handler the constructor of the scene binds to the universe's
    [entityTransformed] notification.

    The vector, quaternion and transform algebra of the engine (engine/vec.h,
    engine/quat.h, engine/matrix.h) is not among the sources: the carrier
    types and the operations on transforms are parameters of this module.

    [Universe::setTransform] writes the entity's transform and raises
    [entityTransformed]; the handler runs before [setTransform] returns.  So
    the forward update of a child runs [onEntityMoved] for the child, which
    runs the forward update of every attachment whose parent is the child,
    and so on down the attachments.  The source has no bound on this
    recursion; it is embedded with fuel, and running out of fuel is the
    fault [Diverges].  The entry points give one more unit of fuel than the
    table has attachments ([onEntityMoved_at_enough_fuel] shows when that is
    enough).

    [Pose::is_absolute], which [updateRelativeMatrix] asserts, belongs to the
    animation code (renderer/pose.h, not among the sources); the poses kept
    here are the absolute ones. *)

Module BoneAttachments.
Import Float32 Containers.

Section WithTransforms.

Context {Vec3 DVec3 Quat : Type}.

Record LocalRigidTransform := mkRigid {
  l_pos : Vec3;
  l_rot : Quat
}.

Record Transform := mkTransform {
  pos : DVec3;
  rot : Quat;
  scale : float
}.

(** [Transform::operator*(const LocalRigidTransform&)],
    [Transform::operator*(const Transform&)], [Transform::inverted] and
    [DVec3::toFloat]. *)
Variable mul_rigid : Transform -> LocalRigidTransform -> Transform.
Variable mul : Transform -> Transform -> Transform.
Variable inverted : Transform -> Transform.
Variable toFloat : DVec3 -> Vec3.

(** The member [m_is_game_running]: [startGame] and [stopGame] write it, the
    functions embedded here only read it. *)
Variable m_is_game_running : bool.

Record Pose := mkPose {
  count : Z;
  positions : list Vec3;
  rotations : list Quat
}.

Record ModelInstance := mkModelInstance {
  mi_entity : Entity;
  flags : Z;
  pose : option Pose
}.

Record BoneAttachment := mkBoneAttachment {
  entity : Entity;
  parent_entity : Entity;
  bone_index : Z;
  relative_transform : LocalRigidTransform
}.

(** The part of [Universe] the attachment code reads and writes: the world
    transform of every entity and the entities that carry a model-instance
    component. *)
Record Universe := mkUniverse {
  transforms : Z -> Transform;
  model_instance_components : gset Z
}.

Record Scene := mkScene {
  m_universe : Universe;
  m_model_instances : list ModelInstance;
  m_bone_attachments : list (Z * BoneAttachment);
  m_is_updating_attachments : bool
}.

(** Modelled from the spec: [Universe::getTransform], [getScale],
    [setTransform] and [hasComponent] for the model-instance type
    (engine/universe/universe.h is not among the sources). *)
Definition getTransform (u : Universe) (e : Entity) : Transform := transforms u e.

Definition getScale (u : Universe) (e : Entity) : float := scale (transforms u e).

Definition write_transform (u : Universe) (e : Entity) (t : Transform) : Universe :=
  {| transforms := fun e' => if decide (e' = e) then t else transforms u e';
     model_instance_components := model_instance_components u |}.

Definition hasModelInstance (u : Universe) (e : Entity) : bool :=
  bool_decide (e ∈ model_instance_components u).

Definition with_universe (s : Scene) (u : Universe) : Scene :=
  {| m_universe := u;
     m_model_instances := m_model_instances s;
     m_bone_attachments := m_bone_attachments s;
     m_is_updating_attachments := m_is_updating_attachments s |}.

Definition with_model_instances (s : Scene) (l : list ModelInstance) : Scene :=
  {| m_universe := m_universe s;
     m_model_instances := l;
     m_bone_attachments := m_bone_attachments s;
     m_is_updating_attachments := m_is_updating_attachments s |}.

Definition with_bone_attachments (s : Scene) (l : list (Z * BoneAttachment)) : Scene :=
  {| m_universe := m_universe s;
     m_model_instances := m_model_instances s;
     m_bone_attachments := l;
     m_is_updating_attachments := m_is_updating_attachments s |}.

Definition with_updating (s : Scene) (b : bool) : Scene :=
  {| m_universe := m_universe s;
     m_model_instances := m_model_instances s;
     m_bone_attachments := m_bone_attachments s;
     m_is_updating_attachments := b |}.

Definition with_flags (mi : ModelInstance) (f : Z) : ModelInstance :=
  {| mi_entity := mi_entity mi; flags := f; pose := pose mi |}.

Definition with_scale (t : Transform) (sc : float) : Transform :=
  {| pos := pos t; rot := rot t; scale := sc |}.

(** [setTransform] on the scene's universe: the transform is written, then
    [entityTransformed] is raised and [handler], the scene's subscriber, runs
    for the entity. *)
Definition setTransform (handler : Entity -> Scene -> outcome Scene)
  (e : Entity) (t : Transform) (s : Scene) : outcome Scene :=
  handler e (with_universe s (write_transform (m_universe s) e t)).

(** [lockPose]: [m_model_instances[entity.index].pose]. *)
Definition lockPose (s : Scene) (e : Entity) : outcome (option Pose) :=
  match at_index (m_model_instances s) e with
  | Some mi => Ok (pose mi)
  | None => Fault OutOfBoundsRead
  end.

(** The body of [updateBoneAttachment], with the subscriber of
    [entityTransformed] as [handler].  Every early [return] leaves the scene
    as it is; [unlockPose(model_instance, false)] returns at once. *)
Definition updateBoneAttachment_with (handler : Entity -> Scene -> outcome Scene)
  (bone_attachment : BoneAttachment) (s : Scene) : outcome Scene :=
  if negb (isValid (parent_entity bone_attachment)) then Ok s else
  let model_instance := parent_entity bone_attachment in
  if negb (hasModelInstance (m_universe s) model_instance) then Ok s else
  bind (lockPose s model_instance) (fun parent_pose =>
  match parent_pose with
  | None => Ok s
  | Some parent_pose =>
      let parent_entity_transform := getTransform (m_universe s) model_instance in
      let idx := bone_index bone_attachment in
      if (idx <? 0) || (idx >? count parent_pose) then Ok s
      else
        let original_scale := getScale (m_universe s) (entity bone_attachment) in
        match at_index (positions parent_pose) idx,
              at_index (rotations parent_pose) idx with
        | Some p, Some r =>
            let bone_transform := mkRigid p r in
            let relative := mkRigid (l_pos (relative_transform bone_attachment))
                                    (l_rot (relative_transform bone_attachment)) in
            let result := mul_rigid (mul_rigid parent_entity_transform bone_transform) relative in
            let result := with_scale result original_scale in
            setTransform handler (entity bone_attachment) result s
        | _, _ => Fault OutOfBoundsRead
        end
  end).

(** [updateRelativeMatrix]: returns the attachment with its cached relative
    transform recomputed.  Nothing else of the scene changes. *)
Definition updateRelativeMatrix (attachment : BoneAttachment) (s : Scene)
  : outcome BoneAttachment :=
  if negb (isValid (parent_entity attachment)) then Ok attachment else
  if bone_index attachment <? 0 then Ok attachment else
  let model_instance := parent_entity attachment in
  if negb (hasModelInstance (m_universe s) model_instance) then Ok attachment else
  bind (lockPose s model_instance) (fun p =>
  match p with
  | None => Ok attachment
  | Some pose =>
      if bone_index attachment >=? count pose then Ok attachment
      else
        match at_index (positions pose) (bone_index attachment),
              at_index (rotations pose) (bone_index attachment) with
        | Some p, Some r =>
            let bone_transform := mkRigid p r in
            let parent := parent_entity attachment in
            let inv_parent_transform :=
              inverted (mul_rigid (getTransform (m_universe s) parent) bone_transform) in
            let child_transform := getTransform (m_universe s) (entity attachment) in
            let res := mul inv_parent_transform child_transform in
            Ok {| entity := entity attachment;
                  parent_entity := parent_entity attachment;
                  bone_index := bone_index attachment;
                  relative_transform := mkRigid (toFloat (pos res)) (rot res) |}
        | _, _ => Fault OutOfBoundsRead
        end
  end).

(** The first loop of [onEntityMoved]: the forward update of every
    attachment whose parent is the moved entity. *)
Fixpoint follow_parent (update : BoneAttachment -> Scene -> outcome Scene)
  (e : Entity) (l : list (Z * BoneAttachment)) (s : Scene) : outcome Scene :=
  match l with
  | [] => Ok s
  | (_, attachment) :: rest =>
      if parent_entity attachment =? e
      then bind (update attachment s) (follow_parent update e rest)
      else follow_parent update e rest s
  end.

(** Its second loop: the backward update of the first attachment that sits
    on the moved entity. *)
Fixpoint rebase_child (e : Entity) (l : list (Z * BoneAttachment)) (s : Scene)
  : outcome (list (Z * BoneAttachment)) :=
  match l with
  | [] => Ok []
  | (k, attachment) :: rest =>
      if entity attachment =? e
      then bind (updateRelativeMatrix attachment s)
             (fun attachment' => Ok ((k, attachment') :: rest))
      else bind (rebase_child e rest s) (fun rest' => Ok ((k, attachment) :: rest'))
  end.

(** [onEntityMoved], from [bool was_updating] to its end.  The part before
    it passes the entity's new position and radius to the culling system,
    which is not part of the state kept here, and refreshes a decal on the
    entity; no scene holds a decal, since [updateDecalInfo], which runs
    whenever one is added, consists of an assertion that fails.

    The forward updates of the first loop raise [entityTransformed] for the
    children they move; those nested runs of the handler get the rest of the
    fuel. *)
Fixpoint onEntityMoved_at (fuel : nat) (e : Entity) (s : Scene) : outcome Scene :=
  match fuel with
  | O => Fault Diverges
  | S fuel' =>
      let was_updating := m_is_updating_attachments s in
      bind (follow_parent (updateBoneAttachment_with (onEntityMoved_at fuel')) e
              (m_bone_attachments s) (with_updating s true)) (fun s1 =>
      let s2 := with_updating s1 was_updating in
      if was_updating || m_is_game_running then Ok s2
      else
        bind (rebase_child e (m_bone_attachments s2) s2) (fun l =>
        Ok (with_bone_attachments s2 l)))
  end.

Definition attachment_fuel (s : Scene) : nat := S (length (m_bone_attachments s)).

Definition onEntityMoved (e : Entity) (s : Scene) : outcome Scene :=
  onEntityMoved_at (attachment_fuel s) e s.

(** [updateBoneAttachment]: its write goes through [Universe::setTransform],
    so [onEntityMoved] runs for the child before the function returns. *)
Definition updateBoneAttachment (bone_attachment : BoneAttachment) (s : Scene)
  : outcome Scene :=
  updateBoneAttachment_with (onEntityMoved_at (attachment_fuel s)) bone_attachment s.

(** [m_bone_attachments[entity]]: fails loudly without the component. *)
Definition find_attachment (s : Scene) (e : Entity) : outcome BoneAttachment :=
  match aa_find e (m_bone_attachments s) with
  | Some ba => Ok ba
  | None => Fault MissingComponent
  end.

Definition setBoneAttachmentBone (e : Entity) (value : Z) (s : Scene) : outcome Scene :=
  bind (find_attachment s e) (fun ba =>
  let ba := {| entity := entity ba; parent_entity := parent_entity ba;
               bone_index := value; relative_transform := relative_transform ba |} in
  bind (updateRelativeMatrix ba s) (fun ba' =>
  Ok (with_bone_attachments s (aa_set e ba' (m_bone_attachments s))))).

Definition mark_parent (parent : Entity) (l : list ModelInstance) : list ModelInstance :=
  if isValid parent && (parent <? Z.of_nat (length l)) then
    match at_index l parent with
    | Some mi =>
        <[Z.to_nat parent :=
            with_flags mi (FlagSet.set (flags mi) FlagSet.IS_BONE_ATTACHMENT_PARENT)]> l
    | None => l
    end
  else l.

Definition setBoneAttachmentParent (e : Entity) (parent : Entity) (s : Scene)
  : outcome Scene :=
  bind (find_attachment s e) (fun ba =>
  let ba := {| entity := entity ba; parent_entity := parent;
               bone_index := bone_index ba; relative_transform := relative_transform ba |} in
  let s1 := with_model_instances s (mark_parent parent (m_model_instances s)) in
  bind (updateRelativeMatrix ba s1) (fun ba' =>
  Ok (with_bone_attachments s1 (aa_set e ba' (m_bone_attachments s1))))).

(** [destroyBoneAttachment].  The notification of the universe
    ([onComponentDestroyed]) concerns the bone-attachment component type only
    and is left out. *)
Definition destroyBoneAttachment (e : Entity) (s : Scene) : outcome Scene :=
  bind (find_attachment s e) (fun bone_attachment =>
  let parent := parent_entity bone_attachment in
  let instances :=
    if isValid parent && (parent <? Z.of_nat (length (m_model_instances s))) then
      match at_index (m_model_instances s) parent with
      | Some mi =>
          <[Z.to_nat parent :=
              with_flags mi (FlagSet.unset (flags mi) FlagSet.IS_BONE_ATTACHMENT_PARENT)]>
            (m_model_instances s)
      | None => m_model_instances s
      end
    else m_model_instances s in
  Ok {| m_universe := m_universe s;
        m_model_instances := instances;
        m_bone_attachments := aa_erase e (m_bone_attachments s);
        m_is_updating_attachments := m_is_updating_attachments s |}).

(** The loop of [unlockPose] over [m_bone_attachments]. *)
Fixpoint update_attachments_of (parent : Entity) (l : list (Z * BoneAttachment))
  (s : Scene) : outcome Scene :=
  match l with
  | [] => Ok s
  | (_, ba) :: rest =>
      if bool_decide (parent_entity ba <> parent) then update_attachments_of parent rest s
      else
        bind (updateBoneAttachment ba (with_updating s true)) (fun s' =>
        update_attachments_of parent rest (with_updating s' false))
  end.

Definition unlockPose (e : Entity) (changed : bool) (s : Scene) : outcome Scene :=
  if negb changed then Ok s else
  let in_table := e <? Z.of_nat (length (m_model_instances s)) in
  let flag_clear :=
    match at_index (m_model_instances s) e with
    | Some mi => negb (FlagSet.isSet (flags mi) FlagSet.IS_BONE_ATTACHMENT_PARENT)
    | None => false
    end in
  if in_table && flag_clear then Ok s
  else update_attachments_of e (m_bone_attachments s) s.

(** The transform algebra inverts within [close] when composing a
    parent-bone transform with the rigid part of "inverse of it, composed
    with a child" gives a transform [close] to the child (the scale is the
    child's own).  Float arithmetic and the conversion [toFloat] of the
    position to single precision lose digits, so for the engine's algebra
    [close] is a tolerance, not equality. *)
Definition inverse_within (close : Transform -> Transform -> Prop) : Prop :=
  forall X C : Transform,
    close
      (with_scale
         (mul_rigid X (mkRigid (toFloat (pos (mul (inverted X) C))) (rot (mul (inverted X) C))))
         (scale C))
      C.

Definition with_bone_index (ba : BoneAttachment) (value : Z) : BoneAttachment :=
  {| entity := entity ba; parent_entity := parent_entity ba;
     bone_index := value; relative_transform := relative_transform ba |}.

Definition with_parent (ba : BoneAttachment) (parent : Entity) : BoneAttachment :=
  {| entity := entity ba; parent_entity := parent;
     bone_index := bone_index ba; relative_transform := relative_transform ba |}.

(** What the forward update writes for the child. *)
Definition composed (u : Universe) (ba : BoneAttachment) (p : Vec3) (r : Quat) : Transform :=
  with_scale
    (mul_rigid (mul_rigid (getTransform u (parent_entity ba)) (mkRigid p r))
               (relative_transform ba))
    (getScale u (entity ba)).

(** The guards of both updates pass: valid parent with a model-instance
    component, an available pose, and bone [idx] of that pose. *)
Definition resolvable (s : Scene) (parent : Entity) (idx : Z) (p : Vec3) (r : Quat) : Prop :=
  isValid parent = true /\
  hasModelInstance (m_universe s) parent = true /\
  exists mi parent_pose,
    at_index (m_model_instances s) parent = Some mi /\
    pose mi = Some parent_pose /\
    0 <= idx < count parent_pose /\
    at_index (positions parent_pose) idx = Some p /\
    at_index (rotations parent_pose) idx = Some r.

(** No attachment of the table has [e] as its parent. *)
Definition childless (e : Entity) (l : list (Z * BoneAttachment)) : Prop :=
  forall k ba, (k, ba) ∈ l -> parent_entity ba <> e.

(** [below l e e']: entity [e'] is attached to [e], or to an entity that is
    below [e]. *)
Inductive below (l : list (Z * BoneAttachment)) : Entity -> Entity -> Prop :=
| below_child k ba :
    (k, ba) ∈ l -> below l (parent_entity ba) (entity ba)
| below_trans k ba e' :
    (k, ba) ∈ l -> below l (entity ba) e' -> below l (parent_entity ba) e'.

Lemma childless_not_below e l e' : childless e l -> ~ below l e e'.
Proof.
  intros Hno Hb. inversion Hb as [k ba Hin Hp He|k ba e2 Hin Hrest Hp He]; subst;
    by apply (Hno k ba).
Qed.

Lemma rigid_eta (t : LocalRigidTransform) : mkRigid (l_pos t) (l_rot t) = t.
Proof. by destruct t. Qed.

(** With the guards passed, the forward update is the write of the
    composition followed by the handler's run for the child. *)
Lemma updateBoneAttachment_with_ok handler ba s p r :
  resolvable s (parent_entity ba) (bone_index ba) p r ->
  updateBoneAttachment_with handler ba s =
  setTransform handler (entity ba) (composed (m_universe s) ba p r) s.
Proof.
  intros (Hv & Hc & mi & pp & Hmi & Hpose & Hidx & Hp & Hr).
  unfold updateBoneAttachment_with, lockPose. rewrite Hv, Hc, Hmi. simpl. rewrite Hpose.
  assert ((bone_index ba <? 0) = false) as -> by (apply Z.ltb_ge; lia).
  assert ((bone_index ba >? count pp) = false) as ->
    by (rewrite Z.gtb_ltb; apply Z.ltb_ge; lia).
  simpl. rewrite Hp, Hr. unfold composed. by rewrite rigid_eta.
Qed.

(** The three ways the forward update ends: without a change, with a read
    past the pose's arrays, or with one write and the handler's run. *)
Lemma updateBoneAttachment_with_cases handler ba s :
  updateBoneAttachment_with handler ba s = Ok s \/
  updateBoneAttachment_with handler ba s = Fault OutOfBoundsRead \/
  exists t, updateBoneAttachment_with handler ba s = setTransform handler (entity ba) t s.
Proof.
  unfold updateBoneAttachment_with, lockPose.
  repeat (case_match; cbn [bind]; eauto).
Qed.

Lemma updateRelativeMatrix_ok ba s p r :
  resolvable s (parent_entity ba) (bone_index ba) p r ->
  updateRelativeMatrix ba s =
  Ok (let res := mul (inverted (mul_rigid (getTransform (m_universe s) (parent_entity ba))
                                          (mkRigid p r)))
                     (getTransform (m_universe s) (entity ba)) in
      {| entity := entity ba; parent_entity := parent_entity ba;
         bone_index := bone_index ba;
         relative_transform := mkRigid (toFloat (pos res)) (rot res) |}).
Proof.
  intros (Hv & Hc & mi & pp & Hmi & Hpose & Hidx & Hp & Hr).
  unfold updateRelativeMatrix, lockPose. rewrite Hv, Hc, Hmi. simpl.
  assert ((bone_index ba <? 0) = false) as -> by (apply Z.ltb_ge; lia).
  rewrite Hpose.
  assert ((bone_index ba >=? count pp) = false) as ->
    by (rewrite Z.geb_leb; apply Z.leb_gt; lia).
  by rewrite Hp, Hr.
Qed.

(** The four edge cases of the spec, for the backward update: each is a
    silent no-op. *)
Lemma updateRelativeMatrix_noop ba s :
  isValid (parent_entity ba) = false \/
  hasModelInstance (m_universe s) (parent_entity ba) = false \/
  (exists mi, at_index (m_model_instances s) (parent_entity ba) = Some mi /\
              (pose mi = None \/
               exists pp, pose mi = Some pp /\
                          (bone_index ba < 0 \/ count pp <= bone_index ba))) ->
  updateRelativeMatrix ba s = Ok ba.
Proof.
  unfold updateRelativeMatrix, lockPose.
  intros [Hv | [Hc | (mi & Hmi & Hcase)]].
  - by rewrite Hv.
  - destruct (isValid _); simpl; [|done].
    destruct (bone_index ba <? 0); [done|]. by rewrite Hc.
  - destruct (isValid _); simpl; [|done].
    destruct (bone_index ba <? 0) eqn:Hneg; [done|].
    destruct (hasModelInstance _ _); simpl; [|done].
    rewrite Hmi. simpl.
    destruct Hcase as [-> | (pp & -> & [Hlt | Hge])]; [done| |].
    + apply Z.ltb_ge in Hneg. lia.
    + assert ((bone_index ba >=? count pp) = true) as ->; [|done].
      rewrite Z.geb_leb. apply Z.leb_le. lia.
Qed.

(** The forward update is a silent no-op when the parent is invalid, has no
    model-instance component, has no pose, or the bone index is negative or
    greater than the pose's bone count. *)
Lemma updateBoneAttachment_noop ba s :
  isValid (parent_entity ba) = false \/
  hasModelInstance (m_universe s) (parent_entity ba) = false \/
  (exists mi, at_index (m_model_instances s) (parent_entity ba) = Some mi /\
              (pose mi = None \/
               exists pp, pose mi = Some pp /\
                          (bone_index ba < 0 \/ count pp < bone_index ba))) ->
  updateBoneAttachment ba s = Ok s.
Proof.
  unfold updateBoneAttachment, updateBoneAttachment_with, lockPose.
  intros [Hv | [Hc | (mi & Hmi & Hcase)]].
  - by rewrite Hv.
  - destruct (isValid _); simpl; [|done]. by rewrite Hc.
  - destruct (isValid _); simpl; [|done].
    destruct (hasModelInstance _ _); simpl; [|done].
    rewrite Hmi. simpl.
    destruct Hcase as [-> | (pp & -> & [Hlt | Hgt])]; [done| |].
    + assert ((bone_index ba <? 0) = true) as -> by (apply Z.ltb_lt; lia). done.
    + assert ((bone_index ba >? count pp) = true) as ->
        by (rewrite Z.gtb_ltb; apply Z.ltb_lt; lia).
      by rewrite orb_true_r.
Qed.

(** A bone index equal to the bone count passes the guard [idx > count] of
    the forward update and reads one element past the pose's arrays. *)
Lemma updateBoneAttachment_index_eq_count ba s mi pp :
  isValid (parent_entity ba) = true ->
  hasModelInstance (m_universe s) (parent_entity ba) = true ->
  at_index (m_model_instances s) (parent_entity ba) = Some mi ->
  pose mi = Some pp ->
  0 <= count pp ->
  length (positions pp) = Z.to_nat (count pp) ->
  bone_index ba = count pp ->
  updateBoneAttachment ba s = Fault OutOfBoundsRead.
Proof.
  intros Hv Hc Hmi Hpose Hcount Hlen Hidx.
  unfold updateBoneAttachment, updateBoneAttachment_with, lockPose.
  rewrite Hv, Hc, Hmi. simpl. rewrite Hpose.
  rewrite Hidx.
  assert ((count pp <? 0) = false) as -> by (apply Z.ltb_ge; lia).
  assert ((count pp >? count pp) = false) as ->
    by (rewrite Z.gtb_ltb; apply Z.ltb_irrefl).
  simpl. unfold at_index at 1.
  assert ((count pp <? 0) = false) as -> by (apply Z.ltb_ge; lia).
  rewrite (lookup_ge_None_2 (positions pp)) by lia. done.
Qed.

Lemma aa_find_set (e : Z) (v v0 : BoneAttachment) l :
  aa_find e l = Some v0 -> aa_find e (aa_set e v l) = Some v.
Proof.
  induction l as [|[k w] t IH]; simpl; [done|].
  destruct (e =? k) eqn:Hk; simpl; rewrite Hk; [done|exact IH].
Qed.

Lemma resolvable_mark_parent s parent q idx p r :
  resolvable s parent idx p r ->
  resolvable (with_model_instances s (mark_parent q (m_model_instances s))) parent idx p r.
Proof.
  intros (Hv & Hc & mi & pp & Hmi & Hpose & Hrest).
  split; [done|]. split; [done|]. simpl. unfold mark_parent.
  destruct (isValid q) eqn:Hq; cbn [andb]; [|by eauto 10].
  destruct (q <? Z.of_nat (length (m_model_instances s))); [|by eauto 10].
  rewrite (at_index_valid _ q) by done.
  destruct (m_model_instances s !! Z.to_nat q) as [mq|] eqn:Hmq; [|by eauto 10].
  pose proof Hmi as Hmi'. rewrite at_index_valid in Hmi' by done.
  destruct (decide (Z.to_nat q = Z.to_nat parent)) as [Heq|Hne].
  - rewrite Heq in *. assert (mq = mi) as -> by congruence.
    exists (with_flags mi (FlagSet.set (flags mi) FlagSet.IS_BONE_ATTACHMENT_PARENT)), pp.
    split; [|done]. rewrite at_index_valid by done.
    apply list_lookup_insert_eq. by eapply lookup_lt_Some.
  - exists mi, pp. rewrite at_index_valid by done. by rewrite list_lookup_insert_ne.
Qed.

(** *** What a run of [onEntityMoved] can change

    [moved_below e s s']: from [s] to [s'] the updating flag, the
    model-instance table and the component registry are the same; the
    attachment table is the same when the backward update is switched off;
    and only entities below [e] have another transform. *)
Definition moved_below (e : Entity) (s s' : Scene) : Prop :=
  m_is_updating_attachments s' = m_is_updating_attachments s /\
  m_model_instances s' = m_model_instances s /\
  model_instance_components (m_universe s') = model_instance_components (m_universe s) /\
  (m_is_updating_attachments s || m_is_game_running = true ->
   m_bone_attachments s' = m_bone_attachments s) /\
  (forall e', ~ below (m_bone_attachments s) e e' ->
     getTransform (m_universe s') e' = getTransform (m_universe s) e').

Definition handler_moves_below (handler : Entity -> Scene -> outcome Scene) : Prop :=
  forall e s s', handler e s = Ok s' -> moved_below e s s'.

Lemma updateBoneAttachment_with_frame handler ba s s' :
  handler_moves_below handler ->
  updateBoneAttachment_with handler ba s = Ok s' ->
  m_is_updating_attachments s' = m_is_updating_attachments s /\
  m_model_instances s' = m_model_instances s /\
  model_instance_components (m_universe s') = model_instance_components (m_universe s) /\
  (m_is_updating_attachments s || m_is_game_running = true ->
   m_bone_attachments s' = m_bone_attachments s) /\
  (forall e', e' <> entity ba -> ~ below (m_bone_attachments s) (entity ba) e' ->
     getTransform (m_universe s') e' = getTransform (m_universe s) e').
Proof.
  intros Hh.
  destruct (updateBoneAttachment_with_cases handler ba s) as [-> | [-> | [t ->]]].
  - by intros [= <-].
  - done.
  - unfold setTransform. intros Hrun.
    destruct (Hh _ _ _ Hrun) as (Hf & Hi & Hc & Ha & Ht).
    cbn [m_is_updating_attachments m_model_instances m_bone_attachments m_universe
         with_universe write_transform model_instance_components] in *.
    repeat split; try done.
    intros e' Hne Hnb. rewrite (Ht e' Hnb). unfold getTransform.
    cbn [transforms write_transform]. by rewrite decide_False.
Qed.

Lemma follow_parent_frame handler e T :
  handler_moves_below handler ->
  forall l, l ⊆ T ->
  forall s s',
    m_is_updating_attachments s = true -> m_bone_attachments s = T ->
    follow_parent (updateBoneAttachment_with handler) e l s = Ok s' ->
    m_is_updating_attachments s' = true /\
    m_model_instances s' = m_model_instances s /\
    model_instance_components (m_universe s') = model_instance_components (m_universe s) /\
    m_bone_attachments s' = T /\
    (forall e', ~ below T e e' ->
       getTransform (m_universe s') e' = getTransform (m_universe s) e').
Proof.
  intros Hh. induction l as [|[k ba] rest IH]; intros Hsub s s' Hflag Hatt.
  - by intros [= <-].
  - cbn [follow_parent].
    assert (rest ⊆ T) as Hrest by (intros x Hx; apply Hsub; by right).
    destruct (Z.eqb_spec (parent_entity ba) e) as [Hpar|_]; [|by apply IH].
    destruct (updateBoneAttachment_with handler ba s) as [s1|] eqn:H1; [|done].
    cbn [bind]. intros Hgo.
    destruct (updateBoneAttachment_with_frame handler ba s s1 Hh H1)
      as (Hf1 & Hi1 & Hc1 & Ha1 & Ht1).
    rewrite Hflag in Hf1, Ha1. specialize (Ha1 eq_refl). rewrite Hatt in Ha1, Ht1.
    destruct (IH Hrest s1 s' Hf1 Ha1 Hgo) as (Hf & Hi & Hc & Ha & Ht).
    split; [done|]. split; [congruence|]. split; [congruence|]. split; [done|].
    intros e' Hnb. rewrite (Ht e' Hnb). apply Ht1.
    + intros ->. apply Hnb. rewrite <- Hpar. apply (below_child T k ba).
      apply Hsub. by left.
    + intros Hb. apply Hnb. rewrite <- Hpar. apply (below_trans T k ba e'); [|done].
      apply Hsub. by left.
Qed.

Lemma onEntityMoved_at_frame fuel : handler_moves_below (onEntityMoved_at fuel).
Proof.
  induction fuel as [|fuel IH]; intros e s s'; [done|]. cbn [onEntityMoved_at].
  destruct (follow_parent _ e _ _) as [s1|] eqn:H1; [|done]. cbn [bind].
  apply (follow_parent_frame _ e (m_bone_attachments s) IH) in H1
    as (Hf1 & Hi1 & Hc1 & Ha1 & Ht1); [|done|done|done].
  cbn [m_model_instances m_universe with_updating] in Hi1, Hc1, Ht1.
  destruct (m_is_updating_attachments s || m_is_game_running) eqn:Hoff.
  - intros [= <-]. unfold moved_below.
    cbn [m_is_updating_attachments m_model_instances m_bone_attachments m_universe
         with_updating]. by rewrite Hoff.
  - destruct (rebase_child e _ _) as [l|]; [|done]. cbn [bind]. intros [= <-].
    unfold moved_below.
    cbn [m_is_updating_attachments m_model_instances m_bone_attachments m_universe
         with_updating with_bone_attachments]. by rewrite Hoff.
Qed.

(** The forward update of [ba] moves [ba]'s entity and entities below it. *)
Lemma updateBoneAttachment_frame ba s s' :
  updateBoneAttachment ba s = Ok s' ->
  m_is_updating_attachments s' = m_is_updating_attachments s /\
  m_model_instances s' = m_model_instances s /\
  model_instance_components (m_universe s') = model_instance_components (m_universe s) /\
  (m_is_updating_attachments s || m_is_game_running = true ->
   m_bone_attachments s' = m_bone_attachments s) /\
  (forall e', e' <> entity ba -> ~ below (m_bone_attachments s) (entity ba) e' ->
     getTransform (m_universe s') e' = getTransform (m_universe s) e').
Proof. apply updateBoneAttachment_with_frame, onEntityMoved_at_frame. Qed.

Lemma follow_parent_childless update e l s :
  childless e l -> follow_parent update e l s = Ok s.
Proof.
  induction l as [|[k ba] rest IH]; intros Hno; [done|]. cbn [follow_parent].
  destruct (Z.eqb_spec (parent_entity ba) e) as [Heq|Hne].
  - exfalso. apply (Hno k ba); [by left|done].
  - apply IH. intros k' ba' Hin. apply (Hno k' ba'). by right.
Qed.

(** For an entity without attachments, and with the backward update switched
    off, the handler changes nothing. *)
Lemma onEntityMoved_at_childless fuel e s :
  childless e (m_bone_attachments s) ->
  m_is_updating_attachments s || m_is_game_running = true ->
  onEntityMoved_at (S fuel) e s = Ok s.
Proof.
  intros Hno Hoff. cbn [onEntityMoved_at].
  rewrite follow_parent_childless by done. cbn [bind]. rewrite Hoff. by destruct s.
Qed.

(** *** The fuel is enough when the attachments form no cycle

    A ranking of the entities in which every attached entity ranks below its
    parent bounds the depth of the recursion: with more fuel than the rank
    of the moved entity, the handler does not run out of fuel. *)
Lemma follow_parent_enough_fuel handler e T :
  handler_moves_below handler ->
  (forall k ba s, (k, ba) ∈ T -> parent_entity ba = e -> m_bone_attachments s = T ->
     handler (entity ba) s <> Fault Diverges) ->
  forall l, l ⊆ T ->
  forall s, m_is_updating_attachments s = true -> m_bone_attachments s = T ->
    follow_parent (updateBoneAttachment_with handler) e l s <> Fault Diverges.
Proof.
  intros Hh Hgo. induction l as [|[k ba] rest IH]; intros Hsub s Hflag Hatt; [done|].
  cbn [follow_parent].
  assert (rest ⊆ T) as Hrest by (intros x Hx; apply Hsub; by right).
  destruct (Z.eqb_spec (parent_entity ba) e) as [Hpar|_]; [|by apply IH].
  destruct (updateBoneAttachment_with handler ba s) as [s1|f] eqn:H1; cbn [bind].
  - destruct (updateBoneAttachment_with_frame handler ba s s1 Hh H1)
      as (Hf1 & _ & _ & Ha1 & _).
    rewrite Hflag in Hf1, Ha1. apply IH; [done|done|]. rewrite Ha1; done.
  - destruct (updateBoneAttachment_with_cases handler ba s) as [Hc | [Hc | [t Hc]]];
      rewrite Hc in H1; [done|congruence|].
    intros [= ->]. revert H1. unfold setTransform. apply (Hgo k ba); [|done|done].
    apply Hsub. by left.
Qed.

Lemma onEntityMoved_at_enough_fuel (rank : Entity -> nat) T :
  (forall k ba, (k, ba) ∈ T -> (rank (entity ba) < rank (parent_entity ba))%nat) ->
  forall fuel e s,
    (rank e < fuel)%nat -> m_bone_attachments s = T ->
    onEntityMoved_at fuel e s <> Fault Diverges.
Proof.
  intros Hrank. induction fuel as [|fuel IH]; intros e s Hlt Hatt; [lia|].
  cbn [onEntityMoved_at].
  destruct (follow_parent _ e _ _) as [s1|f] eqn:H1; cbn [bind].
  - destruct (m_is_updating_attachments s || m_is_game_running); [done|].
    destruct (rebase_child e _ _) as [l|f] eqn:H2; cbn [bind]; [done|].
    intros [= ->]. revert H2. clear.
    generalize (with_updating s1 (m_is_updating_attachments s)) as s2.
    intros s2. generalize (m_bone_attachments s2) as l.
    induction l as [|[k a] rest IHl]; cbn [rebase_child]; [done|].
    destruct (entity a =? e).
    + unfold updateRelativeMatrix, lockPose.
      repeat (case_match; cbn [bind]; try done).
    + destruct (rebase_child e rest s2) as [r|f]; cbn [bind]; [done|].
      intros [= ->]. by apply IHl.
  - intros [= ->]. revert H1.
    apply (follow_parent_enough_fuel _ e T (onEntityMoved_at_frame fuel));
      [|by rewrite Hatt|done|done].
    intros k ba s0 Hin Hpar Hs0. apply IH; [|done].
    specialize (Hrank k ba Hin). rewrite Hpar in Hrank. lia.
Qed.

(** *** When the handler returns

    [readable s ba]: the forward update of [ba] does not read past the
    arrays of the parent's pose (its guards stop it, or the pose holds the
    bone). *)
Definition readable (s : Scene) (ba : BoneAttachment) : Prop :=
  updateBoneAttachment_with (fun _ s0 => Ok s0) ba s <> Fault OutOfBoundsRead.

Lemma readable_cases handler ba s :
  readable s ba ->
  updateBoneAttachment_with handler ba s = Ok s \/
  exists t, updateBoneAttachment_with handler ba s = setTransform handler (entity ba) t s.
Proof.
  unfold readable, updateBoneAttachment_with, lockPose, setTransform.
  repeat (case_match; cbn [bind]; eauto); by intros [].
Qed.

(** Whether an update is readable depends on the model-instance table and
    on the component registry only. *)
Lemma readable_frame s s' ba :
  m_model_instances s' = m_model_instances s ->
  model_instance_components (m_universe s') = model_instance_components (m_universe s) ->
  readable s ba -> readable s' ba.
Proof.
  unfold readable, updateBoneAttachment_with, lockPose, hasModelInstance, setTransform.
  intros -> ->. repeat (case_match; cbn [bind]; try done).
Qed.

Lemma follow_parent_returns handler e T :
  handler_moves_below handler ->
  (forall k ba s, (k, ba) ∈ T -> parent_entity ba = e ->
     m_bone_attachments s = T -> m_is_updating_attachments s = true ->
     (forall k' b, (k', b) ∈ T -> readable s b) ->
     exists s', handler (entity ba) s = Ok s') ->
  forall l, l ⊆ T ->
  forall s,
    m_is_updating_attachments s = true -> m_bone_attachments s = T ->
    (forall k b, (k, b) ∈ T -> readable s b) ->
    exists s', follow_parent (updateBoneAttachment_with handler) e l s = Ok s'.
Proof.
  intros Hh Hgo. induction l as [|[k ba] rest IH]; intros Hsub s Hflag Hatt Hread;
    [by eexists|].
  cbn [follow_parent].
  assert (rest ⊆ T) as Hrest by (intros x Hx; apply Hsub; by right).
  assert ((k, ba) ∈ T) as Hin by (apply Hsub; by left).
  destruct (Z.eqb_spec (parent_entity ba) e) as [Hpar|_]; [|by apply IH].
  assert (exists s1, updateBoneAttachment_with handler ba s = Ok s1) as [s1 H1].
  { destruct (readable_cases handler ba s (Hread k ba Hin)) as [-> | [t ->]]; [by eexists|].
    unfold setTransform. apply (Hgo k ba); try done.
    intros k' b Hb. eapply readable_frame; [| |by apply (Hread k' b)]; done. }
  rewrite H1. cbn [bind].
  destruct (updateBoneAttachment_with_frame handler ba s s1 Hh H1)
    as (Hf1 & Hi1 & Hc1 & Ha1 & _).
  rewrite Hflag in Hf1, Ha1. apply IH; [done|done|by rewrite Ha1|].
  intros k' b Hb. by eapply readable_frame; [| |apply (Hread k' b)].
Qed.

(** With more fuel than the rank of the moved entity, readable updates
    throughout the table and the backward update switched off, the handler
    returns. *)
Lemma onEntityMoved_at_returns (rank : Entity -> nat) T :
  (forall k ba, (k, ba) ∈ T -> (rank (entity ba) < rank (parent_entity ba))%nat) ->
  forall fuel e s,
    (rank e < fuel)%nat -> m_bone_attachments s = T ->
    m_is_updating_attachments s || m_is_game_running = true ->
    (forall k b, (k, b) ∈ T -> readable s b) ->
    exists s', onEntityMoved_at fuel e s = Ok s'.
Proof.
  intros Hrank. induction fuel as [|fuel IH]; intros e s Hlt Hatt Hoff Hread; [lia|].
  cbn [onEntityMoved_at].
  destruct (follow_parent_returns (onEntityMoved_at fuel) e T (onEntityMoved_at_frame fuel))
    with (l := m_bone_attachments s) (s := with_updating s true) as [s1 H1].
  - intros k ba s0 Hin Hpar Hs0 Hflag0 Hread0. apply IH; [|done|by rewrite Hflag0|done].
    specialize (Hrank k ba Hin). rewrite Hpar in Hrank. lia.
  - by rewrite Hatt.
  - done.
  - done.
  - intros k b Hb. by eapply readable_frame; [| |apply (Hread k b)].
  - rewrite H1. cbn [bind]. rewrite Hoff. by eexists.
Qed.

Lemma updateBoneAttachment_ok ba s p r :
  resolvable s (parent_entity ba) (bone_index ba) p r ->
  updateBoneAttachment ba s =
  setTransform onEntityMoved (entity ba) (composed (m_universe s) ba p r) s.
Proof.
  intros Hres. unfold updateBoneAttachment.
  by rewrite (updateBoneAttachment_with_ok _ ba s p r Hres).
Qed.

(** The forward update of an attachment whose child has no attachments of
    its own, run while the backward update is switched off, is one write. *)
Lemma updateBoneAttachment_childless ba s p r :
  resolvable s (parent_entity ba) (bone_index ba) p r ->
  childless (entity ba) (m_bone_attachments s) ->
  m_is_updating_attachments s || m_is_game_running = true ->
  updateBoneAttachment ba s =
  Ok (with_universe s (write_transform (m_universe s) (entity ba)
                         (composed (m_universe s) ba p r))).
Proof.
  intros Hres Hno Hoff. rewrite (updateBoneAttachment_ok ba s p r Hres).
  unfold setTransform, onEntityMoved, attachment_fuel.
  by apply onEntityMoved_at_childless.
Qed.

(** After the backward update has recomputed the cached relative transform,
    the composition the forward update writes is within [close] of the
    transform the child has. *)
Lemma backward_within (close : Transform -> Transform -> Prop) ba s p r :
  inverse_within close ->
  resolvable s (parent_entity ba) (bone_index ba) p r ->
  exists ba',
    updateRelativeMatrix ba s = Ok ba' /\
    entity ba' = entity ba /\
    parent_entity ba' = parent_entity ba /\
    bone_index ba' = bone_index ba /\
    close (composed (m_universe s) ba' p r) (getTransform (m_universe s) (entity ba)).
Proof.
  intros Hclose Hres.
  eexists. split; [by apply updateRelativeMatrix_ok|]. cbv zeta.
  cbn [entity parent_entity bone_index]. repeat (split; [done|]).
  unfold composed. cbn [entity parent_entity relative_transform]. unfold getScale.
  apply Hclose.
Qed.


(** C4. A parent with a one-bone pose and an attachment whose bone index is
    1, the bone count: the backward update returns without a change, but the
    forward update passes its guard [idx > count] and reads element 1 of the
    one-element position array. *)
Theorem forward_update_reads_past_pose
  (tr : Z -> Transform) (p : Vec3) (q : Quat) (rel : LocalRigidTransform) :
  let parent_instance := mkModelInstance 0 FlagSet.ENABLED (Some (mkPose 1 [p] [q])) in
  let ba := mkBoneAttachment 1 0 1 rel in
  let s := mkScene (mkUniverse tr {[0]}) [parent_instance] [(1, ba)] false in
  updateRelativeMatrix ba s = Ok ba /\
  updateBoneAttachment ba s = Fault OutOfBoundsRead.
Proof.
  intros parent_instance ba s. split.
  - apply updateRelativeMatrix_noop. right. right.
    exists parent_instance. split; [done|]. right.
    eexists. split; [done|]. right. simpl. lia.
  - by eapply (updateBoneAttachment_index_eq_count ba s parent_instance).
Qed.

(** C10. Destroying a bone attachment whose parent is valid and inside the
    model-instance table clears the parent's is-bone-attachment-parent flag
    whatever else is attached to that parent: every other attachment stays
    as it is, and from then on [unlockPose] with [changed] returns without
    running a forward update. *)
Theorem destroyBoneAttachment_clears_parent_flag (s : Scene) (e : Entity) (ba : BoneAttachment) :
  aa_find e (m_bone_attachments s) = Some ba ->
  isValid (parent_entity ba) = true ->
  parent_entity ba < Z.of_nat (length (m_model_instances s)) ->
  exists s',
    destroyBoneAttachment e s = Ok s' /\
    (exists mi, at_index (m_model_instances s') (parent_entity ba) = Some mi /\
                FlagSet.isSet (flags mi) FlagSet.IS_BONE_ATTACHMENT_PARENT = false) /\
    (forall e2, e2 <> e ->
       aa_find e2 (m_bone_attachments s') = aa_find e2 (m_bone_attachments s)) /\
    unlockPose (parent_entity ba) true s' = Ok s'.
Proof.
  intros Hfind Hv Hlt.
  assert (Z.to_nat (parent_entity ba) < length (m_model_instances s))%nat as Hlt'
    by (unfold isValid in Hv; apply Z.leb_le in Hv; lia).
  destruct (lookup_lt_is_Some_2 _ _ Hlt') as [mi Hmi].
  unfold destroyBoneAttachment, find_attachment. rewrite Hfind. cbn [bind].
  rewrite Hv. apply Z.ltb_lt in Hlt as Hltb. rewrite Hltb. cbn [andb].
  rewrite at_index_valid, Hmi by done.
  eexists. split; [reflexivity|]. cbn [m_model_instances m_bone_attachments].
  assert (<[Z.to_nat (parent_entity ba) :=
              with_flags mi (FlagSet.unset (flags mi) FlagSet.IS_BONE_ATTACHMENT_PARENT)]>
            (m_model_instances s) !! Z.to_nat (parent_entity ba)
          = Some (with_flags mi (FlagSet.unset (flags mi) FlagSet.IS_BONE_ATTACHMENT_PARENT)))
    as Hnew by (by apply list_lookup_insert_eq).
  split; [|split].
  - eexists. split; [by rewrite at_index_valid|]. apply FlagSet.isSet_unset.
  - intros e2 He2. by apply aa_find_erase_ne.
  - unfold unlockPose. cbn [negb m_model_instances].
    rewrite at_index_valid, Hnew, length_insert, Hltb by done.
    cbn [flags with_flags]. by rewrite FlagSet.isSet_unset.
Qed.

End WithTransforms.

(** *** A model of the transform algebra: translations along one axis

    Positions are integers, every rotation is trivial, and composition adds
    positions.  With the identity as [toFloat] it inverts exactly; with a
    [toFloat] that drops the last binary digit it inverts within one unit. *)

Definition TTransform := @Transform Z unit.
Definition TRigid := @LocalRigidTransform Z unit.

Definition t_mul_rigid (a : TTransform) (r : TRigid) : TTransform :=
  mkTransform (pos a + l_pos r) tt (scale a).

Definition t_mul (a b : TTransform) : TTransform :=
  mkTransform (pos a + pos b) tt (scale a).

Definition t_inverted (a : TTransform) : TTransform :=
  mkTransform (- pos a) tt (scale a).

Definition t_toFloat (v : Z) : Z := v.

Definition t_truncate (v : Z) : Z := 2 * (v / 2).

Definition t_close (a b : TTransform) : Prop :=
  Z.abs (pos a - pos b) <= 1 /\ scale a = scale b.

Lemma translations_exact : inverse_within t_mul_rigid t_mul t_inverted t_toFloat eq.
Proof.
  intros [px [] sx] [pc [] sc]. unfold with_scale, t_mul_rigid, t_mul, t_inverted, t_toFloat.
  simpl. f_equal. lia.
Qed.

Lemma truncation_within : inverse_within t_mul_rigid t_mul t_inverted t_truncate t_close.
Proof.
  intros [px [] sx] [pc [] sc].
  unfold t_close, with_scale, t_mul_rigid, t_mul, t_inverted, t_truncate. simpl.
  split; [|done].
  pose proof (Z.div_mod (- px + pc) 2) as Hd.
  pose proof (Z.mod_pos_bound (- px + pc) 2) as Hm. lia.
Qed.

(** Parent entity 0 with a one-bone pose (bone at position 5), flagged as a
    bone-attachment parent and placed at 100; children 1 and 2 attached to
    bone 0 with cached offsets 7 and 9. *)
Definition t_parent : @ModelInstance Z unit :=
  mkModelInstance 0 (FlagSet.set FlagSet.ENABLED FlagSet.IS_BONE_ATTACHMENT_PARENT)
    (Some (mkPose 1 [5] [tt])).

Definition t_child1 : @BoneAttachment Z unit := mkBoneAttachment 1 0 0 (mkRigid 7 tt).
Definition t_child2 : @BoneAttachment Z unit := mkBoneAttachment 2 0 0 (mkRigid 9 tt).

Definition t_universe : @Universe Z unit :=
  mkUniverse
    (fun e => if decide (e = 0) then mkTransform 100 tt Float32.one
              else mkTransform 0 tt (Float32.of_int 2))
    {[0]}.

Definition t_scene : @Scene Z Z unit :=
  mkScene t_universe [t_parent] [(1, t_child1); (2, t_child2)] false.

Lemma t_resolvable : resolvable t_scene 0 0 5 tt.
Proof.
  split; [done|]. split; [done|].
  exists t_parent, (mkPose 1 [5] [tt]). repeat split; done.
Qed.

Lemma t_childless e : e <> 0 -> childless e (m_bone_attachments t_scene).
Proof.
  intros He k ba Hin. cbn in Hin.
  apply elem_of_cons in Hin as [[= _ ->]|Hin]; [by intros <-|].
  apply elem_of_cons in Hin as [[= _ ->]|Hin]; [by intros <-|].
  by apply elem_of_nil in Hin.
Qed.

(** A chain: entity 2 hangs on entity 1, which hangs on the parent 0. *)
Definition t_link : @BoneAttachment Z unit := mkBoneAttachment 2 1 0 (mkRigid 9 tt).

Definition t_chain : @Scene Z Z unit :=
  mkScene
    (mkUniverse (transforms t_universe) {[0; 1]})
    [t_parent; mkModelInstance 1 FlagSet.ENABLED (Some (mkPose 1 [3] [tt]))]
    [(1, t_child1); (2, t_link)] false.

Lemma t_chain_resolvable : resolvable t_chain 0 0 5 tt.
Proof.
  split; [done|]. split; [done|].
  exists t_parent, (mkPose 1 [5] [tt]). repeat split; done.
Qed.

Lemma t_chain_upwards a b : below (m_bone_attachments t_chain) a b -> a < b.
Proof.
  intros Hb. induction Hb as [k ba Hin|k ba e' Hin _ IH].
  - cbn in Hin. apply elem_of_cons in Hin as [[= _ ->]|Hin]; [done|].
    apply elem_of_cons in Hin as [[= _ ->]|Hin]; [done|]. by apply elem_of_nil in Hin.
  - cbn in Hin. apply elem_of_cons in Hin as [[= _ ->]|Hin]; [cbn in *; lia|].
    apply elem_of_cons in Hin as [[= _ ->]|Hin]; [cbn in *; lia|].
    by apply elem_of_nil in Hin.
Qed.

Lemma t_chain_not_below e : e <= 1 -> ~ below (m_bone_attachments t_chain) 1 e.
Proof. intros He Hb. apply t_chain_upwards in Hb. lia. Qed.

Lemma t_chain_readable k b :
  (k, b) ∈ m_bone_attachments t_chain ->
  readable t_mul_rigid t_chain b.
Proof.
  intros Hin. cbn in Hin.
  apply elem_of_cons in Hin as [[= _ ->]|Hin]; [by vm_compute|].
  apply elem_of_cons in Hin as [[= _ ->]|Hin]; [by vm_compute|].
  by apply elem_of_nil in Hin.
Qed.

Lemma t_chain_ranked k b :
  (k, b) ∈ m_bone_attachments t_chain ->
  (Z.to_nat (2 - entity b) < Z.to_nat (2 - parent_entity b))%nat.
Proof.
  intros Hin. cbn in Hin.
  apply elem_of_cons in Hin as [[= _ ->]|Hin]; [cbn; lia|].
  apply elem_of_cons in Hin as [[= _ ->]|Hin]; [cbn; lia|].
  by apply elem_of_nil in Hin.
Qed.


Lemma destroyBoneAttachment_clears_parent_flag_witness :
  (exists s0, unlockPose t_mul_rigid t_mul t_inverted t_toFloat false 0 true t_scene = Ok s0 /\
              getTransform (m_universe s0) 2 = mkTransform 114 tt (Float32.of_int 2)) /\
  (exists s',
     destroyBoneAttachment 1 t_scene = Ok s' /\
     aa_find 2 (m_bone_attachments s') = Some t_child2 /\
     unlockPose t_mul_rigid t_mul t_inverted t_toFloat false 0 true s' = Ok s').
Proof.
  split.
  - eexists. split; [reflexivity|]. reflexivity.
  - destruct (destroyBoneAttachment_clears_parent_flag t_mul_rigid t_mul t_inverted t_toFloat
                false t_scene 1 t_child1 eq_refl eq_refl ltac:(simpl; lia))
      as (s' & Hd & _ & Hrest & Hunlock).
    exists s'. split; [exact Hd|]. split; [|exact Hunlock].
    rewrite Hrest by done. reflexivity.
Defined.

End BoneAttachments.

(** ** Model instances, model dependency lists and culling membership

    [createModelInstance], [destroyModelInstance], [setModel],
    [addToModelEntityMap], [removeFromModelEntityMap], [modelStateChanged],
    [modelLoaded], [modelUnloaded], [enableModelInstance] and the helpers
    for custom meshes.

    A model resource is identified by an integer (its address); [nullptr] is
    [None].  Of the resource subsystem the scene state keeps which models
    are ready and the bone and mesh counts the callbacks read.  Of the
    culling system (an external black box) it keeps the set of registered
    entities; positions, radii and layer masks are not needed to decide
    membership.  Reference counts and the material callback lists live in
    the resource subsystem and are not part of this state.  The last
    statement of [modelLoaded], for an instance flagged as a bone-attachment
    parent, looks the entity up in the bone-attachment table and runs the
    forward update; the table and the entity transforms are not part of this
    state and that statement is left out here.  [Serialization] embeds it
    for [deserializeModelInstances], where the flag arrives from the
    stream. *)

Module ModelInstances.

Inductive ResourceState := EMPTY | READY | FAILURE.

Inductive mesh_view :=
| NoMeshes
| SharedMeshes (model : Z)
| OwnMeshes.

Record ModelInstance := mkModelInstance {
  entity : Entity;
  model : option Z;
  pose : option Z;
  meshes : mesh_view;
  mesh_count : Z;
  flags : Z;
  next_model : Entity;
  prev_model : Entity
}.

Record Scene := mkScene {
  ready_models : gset Z;
  getBoneCount : Z -> Z;
  getMeshCount : Z -> Z;
  m_model_instances : list ModelInstance;
  m_model_entity_map : gmap Z Z;
  m_culling_system : gset Z
}.

Definition isReady (s : Scene) (m : Z) : bool := bool_decide (m ∈ ready_models s).

Definition with_instances (s : Scene) (l : list ModelInstance) : Scene :=
  mkScene (ready_models s) (getBoneCount s) (getMeshCount s) l
          (m_model_entity_map s) (m_culling_system s).

Definition with_map (s : Scene) (m : gmap Z Z) : Scene :=
  mkScene (ready_models s) (getBoneCount s) (getMeshCount s) (m_model_instances s)
          m (m_culling_system s).

Definition with_culling (s : Scene) (c : gset Z) : Scene :=
  mkScene (ready_models s) (getBoneCount s) (getMeshCount s) (m_model_instances s)
          (m_model_entity_map s) c.

Definition with_ready (s : Scene) (r : gset Z) : Scene :=
  mkScene r (getBoneCount s) (getMeshCount s) (m_model_instances s)
          (m_model_entity_map s) (m_culling_system s).

(** [m_model_instances[e.index]]. *)
Definition instance_at (s : Scene) (e : Entity) : outcome ModelInstance :=
  if e <? 0 then Fault OutOfBoundsRead
  else match m_model_instances s !! Z.to_nat e with
       | Some r => Ok r
       | None => Fault OutOfBoundsRead
       end.

Definition set_instance (s : Scene) (e : Entity) (r : ModelInstance) : Scene :=
  with_instances s (<[Z.to_nat e := r]> (m_model_instances s)).

(** Modelled from the spec: [CullingSystem::add], [remove] and [isAdded]
    (renderer/culling_system.h is not among the sources), as far as
    membership goes. *)
Definition culling_add (s : Scene) (e : Entity) : Scene :=
  with_culling s ({[e]} ∪ m_culling_system s).

Definition culling_remove (s : Scene) (e : Entity) : Scene :=
  with_culling s (m_culling_system s ∖ {[e]}).

Definition isAdded (s : Scene) (e : Entity) : bool :=
  bool_decide (e ∈ m_culling_system s).

Definition hasCustomMeshes (r : ModelInstance) : bool :=
  FlagSet.isSet (flags r) FlagSet.CUSTOM_MESHES.

Definition fresh_instance : ModelInstance :=
  mkModelInstance INVALID_ENTITY None None NoMeshes 0 FlagSet.clear
                  INVALID_ENTITY INVALID_ENTITY.

(** The padding loop of [createModelInstance]. *)
Definition pad_to (l : list ModelInstance) (e : Entity) : list ModelInstance :=
  l ++ replicate (Z.to_nat (e + 1) - length l) fresh_instance.

Definition createModelInstance (e : Entity) (s : Scene) : Scene :=
  let table := pad_to (m_model_instances s) e in
  match table !! Z.to_nat e with
  | Some r =>
      with_instances s
        (<[Z.to_nat e :=
             mkModelInstance e None None NoMeshes 0
               (FlagSet.set FlagSet.clear FlagSet.ENABLED)
               (next_model r) (prev_model r)]> table)
  | None => with_instances s table
  end.

Definition freeCustomMeshes (r : ModelInstance) : ModelInstance :=
  if negb (hasCustomMeshes r) then r
  else mkModelInstance (entity r) (model r) (pose r) NoMeshes 0
         (FlagSet.unset (flags r) FlagSet.CUSTOM_MESHES) (next_model r) (prev_model r).

(** [allocateCustomMeshes]: [ASSERT(r.model)], then a new array of [count]
    meshes, to whose front all [r.mesh_count] meshes of the instance are
    copied. *)
Definition allocateCustomMeshes (r : ModelInstance) (count : Z) : outcome ModelInstance :=
  if hasCustomMeshes r && (mesh_count r =? count) then Ok r
  else
    match model r with
    | None => Fault AssertionFailed
    | Some _ =>
        let copied :=
          match meshes r with
          | NoMeshes => 0
          | _ => mesh_count r
          end in
        if count <? copied then Fault OutOfBoundsWrite
        else
          Ok (mkModelInstance (entity r) (model r) (pose r) OwnMeshes count
                (FlagSet.set (flags r) FlagSet.CUSTOM_MESHES) (next_model r) (prev_model r))
    end.

(** [modelLoaded] for one entity, with its two assertions, [ASSERT(!r.pose)]
    and [ASSERT(!r.meshes || hasCustomMeshes(r))]. *)
Definition modelLoaded_entity (m : Z) (e : Entity) (s : Scene) : outcome Scene :=
  bind (instance_at s e) (fun r =>
  match model r with
  | None => Fault NullDereference
  | Some rm =>
      let s1 := if FlagSet.isSet (flags r) FlagSet.ENABLED then culling_add s e else s in
      match pose r with
      | Some _ => Fault AssertionFailed
      | None =>
          let r1 :=
            if 0 <? getBoneCount s m
            then mkModelInstance (entity r) (model r) (Some (getBoneCount s m)) (meshes r)
                   (mesh_count r) (flags r) (next_model r) (prev_model r)
            else r in
          match meshes r1 with
          | NoMeshes =>
              Ok (set_instance s1 e
                    (mkModelInstance (entity r1) (model r1) (pose r1) (SharedMeshes rm)
                       (getMeshCount s rm) (flags r1) (next_model r1) (prev_model r1)))
          | _ =>
              if negb (hasCustomMeshes r1) then Fault AssertionFailed
              else
                bind (allocateCustomMeshes r1 (getMeshCount s m)) (fun r2 =>
                Ok (set_instance s1 e r2))
          end
      end
  end).

(** [modelUnloaded] for one entity. *)
Definition modelUnloaded_entity (e : Entity) (s : Scene) : outcome Scene :=
  bind (instance_at s e) (fun r =>
  let r1 :=
    if negb (hasCustomMeshes r)
    then mkModelInstance (entity r) (model r) (pose r) NoMeshes 0 (flags r)
           (next_model r) (prev_model r)
    else r in
  let r2 := mkModelInstance (entity r1) (model r1) None (meshes r1) (mesh_count r1)
              (flags r1) (next_model r1) (prev_model r1) in
  Ok (culling_remove (set_instance s e r2) e)).

(** [modelUnloaded] with the model alone: a scan of the whole table. *)
Fixpoint modelUnloaded_scan (m : Z) (indices : list nat) (s : Scene) : outcome Scene :=
  match indices with
  | [] => Ok s
  | i :: rest =>
      match m_model_instances s !! i with
      | Some r =>
          if negb (entity r =? INVALID_ENTITY) && bool_decide (model r = Some m)
          then bind (modelUnloaded_entity (Z.of_nat i) s) (modelUnloaded_scan m rest)
          else modelUnloaded_scan m rest s
      | None => Fault OutOfBoundsRead
      end
  end.

Definition modelUnloaded (m : Z) (s : Scene) : outcome Scene :=
  modelUnloaded_scan m (seq 0 (length (m_model_instances s))) s.

(** [modelLoaded] with the model alone: a walk along [next_model] from the head kept in
    [m_model_entity_map].  The walk need not end, hence the fuel. *)
Fixpoint modelLoaded_walk (fuel : nat) (m : Z) (e : Entity) (s : Scene) : outcome Scene :=
  if isValid e then
    match fuel with
    | O => Fault Diverges
    | S fuel' =>
        bind (modelLoaded_entity m e s) (fun s' =>
        bind (instance_at s' e) (fun r =>
        modelLoaded_walk fuel' m (next_model r) s'))
    end
  else Ok s.

Definition modelLoaded (fuel : nat) (m : Z) (s : Scene) : outcome Scene :=
  match m_model_entity_map s !! m with
  | Some e => modelLoaded_walk fuel m e s
  | None => Fault MissingComponent
  end.

Definition modelStateChanged (fuel : nat) (old_state new_state : ResourceState) (m : Z)
  (s : Scene) : outcome Scene :=
  match new_state, old_state with
  | READY, _ => modelLoaded fuel m s
  | _, READY => modelUnloaded m s
  | _, _ => Ok s
  end.

Definition addToModelEntityMap (m : Z) (e : Entity) (s : Scene) : outcome Scene :=
  bind (instance_at s e) (fun r =>
  match m_model_entity_map s !! m with
  | Some head =>
      let r' := mkModelInstance (entity r) (model r) (pose r) (meshes r) (mesh_count r)
                  (flags r) head INVALID_ENTITY in
      Ok (with_map (set_instance s e r') (<[m := e]> (m_model_entity_map s)))
  | None =>
      let r' := mkModelInstance (entity r) (model r) (pose r) (meshes r) (mesh_count r)
                  (flags r) INVALID_ENTITY INVALID_ENTITY in
      Ok (with_map (set_instance s e r') (<[m := e]> (m_model_entity_map s)))
  end).

Definition set_next (r : ModelInstance) (n : Entity) : ModelInstance :=
  mkModelInstance (entity r) (model r) (pose r) (meshes r) (mesh_count r) (flags r)
                  n (prev_model r).

Definition set_prev (r : ModelInstance) (p : Entity) : ModelInstance :=
  mkModelInstance (entity r) (model r) (pose r) (meshes r) (mesh_count r) (flags r)
                  (next_model r) p.

Definition removeFromModelEntityMap (m : Z) (e : Entity) (s : Scene) : outcome Scene :=
  bind (instance_at s e) (fun r =>
  bind (if isValid (prev_model r)
        then bind (instance_at s (prev_model r)) (fun rp =>
             Ok (set_instance s (prev_model r) (set_next rp (next_model r))))
        else Ok s) (fun s1 =>
  bind (if isValid (next_model r)
        then bind (instance_at s1 (next_model r)) (fun rn =>
             Ok (set_instance s1 (next_model r) (set_prev rn (prev_model r))))
        else Ok s1) (fun s2 =>
  match m_model_entity_map s2 !! m with
  | None => Fault MissingComponent
  | Some head =>
      if head =? e then
        if isValid (next_model r)
        then Ok (with_map s2 (<[m := next_model r]> (m_model_entity_map s2)))
        else Ok (with_map s2 (delete m (m_model_entity_map s2)))
      else Ok s2
  end))).

(** [setModel]; it starts with [ASSERT(model_instance.entity.isValid())]. *)
Definition setModel (e : Entity) (new_model : option Z) (s : Scene) : outcome Scene :=
  bind (instance_at s e) (fun model_instance =>
  if negb (isValid (entity model_instance)) then Fault AssertionFailed else
  let old_model := model model_instance in
  let no_change := bool_decide (new_model = old_model) && bool_decide (old_model <> None) in
  if no_change then Ok s
  else
    bind (match old_model with
          | Some om =>
              let s1 := set_instance s e (freeCustomMeshes model_instance) in
              bind (removeFromModelEntityMap om e s1) (fun s2 =>
              Ok (if isReady s2 om then culling_remove s2 e else s2))
          | None => Ok s
          end) (fun s3 =>
    bind (instance_at s3 e) (fun r =>
    let s4 := set_instance s3 e
                (mkModelInstance (entity r) new_model None NoMeshes 0 (flags r)
                   (next_model r) (prev_model r)) in
    match new_model with
    | Some m =>
        bind (addToModelEntityMap m e s4) (fun s5 =>
        if isReady s5 m then modelLoaded_entity m e s5 else Ok s5)
    | None => Ok s4
    end))).

(** [destroyModelInstance]. *)
Definition destroyModelInstance (e : Entity) (s : Scene) : outcome Scene :=
  bind (setModel e None s) (fun s1 =>
  bind (instance_at s1 e) (fun r =>
  Ok (set_instance s1 e
        (mkModelInstance INVALID_ENTITY (model r) None (meshes r) (mesh_count r)
           (flags r) (next_model r) (prev_model r))))).

(** [enableModelInstance]. *)
Definition enableModelInstance (e : Entity) (enable : bool) (s : Scene) : outcome Scene :=
  bind (instance_at s e) (fun model_instance =>
  let r := mkModelInstance (entity model_instance) (model model_instance)
             (pose model_instance) (meshes model_instance) (mesh_count model_instance)
             (FlagSet.set_to (flags model_instance) FlagSet.ENABLED enable)
             (next_model model_instance) (prev_model model_instance) in
  let s1 := set_instance s e r in
  if enable then
    match model r with
    | None => Ok s1
    | Some m =>
        if negb (isReady s1 m) then Ok s1
        else if negb (isAdded s1 e) then Ok (culling_add s1 e) else Ok s1
    end
  else Ok (culling_remove s1 e)).

(** The resource subsystem switches a model's state and notifies the scene. *)
Definition resource_state_changed (fuel : nat) (old_state new_state : ResourceState)
  (m : Z) (s : Scene) : outcome Scene :=
  let ready :=
    match new_state with
    | READY => {[m]} ∪ ready_models s
    | _ => ready_models s ∖ {[m]}
    end in
  if bool_decide (m ∈ dom (m_model_entity_map s))
  then modelStateChanged fuel old_state new_state m (with_ready s ready)
  else Ok (with_ready s ready).

(** The property of the spec: an entity with a model instance whose model is
    ready is registered for culling exactly when the instance is enabled. *)
Definition culling_matches_enabled (s : Scene) : Prop :=
  forall (e : Entity) (r : ModelInstance) (m : Z),
    instance_at s e = Ok r ->
    isValid (entity r) = true ->
    model r = Some m ->
    isReady s m = true ->
    (e ∈ m_culling_system s <-> FlagSet.isSet (flags r) FlagSet.ENABLED = true).

Definition empty_scene (bones meshes : Z -> Z) : Scene :=
  mkScene ∅ bones meshes [] ∅ ∅.

(** Three enabled instances are given model 10 while it is still loading,
    then the middle one of the dependency list (entity 1) is switched to
    model 20. *)
Definition scene_before_ready : outcome Scene :=
  let s := createModelInstance 2 (createModelInstance 1 (createModelInstance 0
             (empty_scene (fun _ => 0) (fun _ => 1)))) in
  bind (setModel 0 (Some 10) s) (fun s =>
  bind (setModel 1 (Some 10) s) (fun s =>
  bind (setModel 2 (Some 10) s) (fun s =>
  setModel 1 (Some 20) s))).

(** Model 10 finishes loading. *)
Definition scene_after_ready : outcome Scene :=
  bind scene_before_ready (resource_state_changed 8 EMPTY READY 10).

Lemma isSet_set_to_true base : FlagSet.isSet (FlagSet.set_to base FlagSet.ENABLED true) FlagSet.ENABLED = true.
Proof. by apply FlagSet.isSet_set. Qed.

Lemma isSet_set_to_false base : FlagSet.isSet (FlagSet.set_to base FlagSet.ENABLED false) FlagSet.ENABLED = false.
Proof. apply FlagSet.isSet_unset. Qed.

Lemma instance_at_Ok s e r :
  instance_at s e = Ok r -> 0 <= e /\ m_model_instances s !! Z.to_nat e = Some r.
Proof.
  unfold instance_at. destruct (e <? 0) eqn:He; [done|].
  apply Z.ltb_ge in He. destruct (_ !! _); [|done]. by intros [= ->].
Qed.

Lemma instance_at_set_instance s e r e' :
  instance_at (set_instance s e r) e' =
  if bool_decide (0 <= e' /\ Z.to_nat e' = Z.to_nat e /\
                  (Z.to_nat e < length (m_model_instances s))%nat)
  then Ok r else instance_at s e'.
Proof.
  unfold instance_at, set_instance. simpl.
  destruct (e' <? 0) eqn:He'.
  - apply Z.ltb_lt in He'. rewrite bool_decide_eq_false_2; [done|lia].
  - apply Z.ltb_ge in He'. case_bool_decide as Hc.
    + destruct Hc as (_ & -> & Hlt). by rewrite list_lookup_insert_eq.
    + destruct (decide (Z.to_nat e' = Z.to_nat e)) as [Heq|Hne].
      * rewrite Heq. rewrite list_insert_ge; [done|]. lia.
      * by rewrite list_lookup_insert_ne.
Qed.

Lemma culling_matches_enabled_update s e r (c : gset Z) :
  culling_matches_enabled s ->
  0 <= e ->
  (Z.to_nat e < length (m_model_instances s))%nat ->
  (forall e', e' <> e -> e' ∈ c <-> e' ∈ m_culling_system s) ->
  (forall m, isValid (entity r) = true -> model r = Some m -> isReady s m = true ->
             (e ∈ c <-> FlagSet.isSet (flags r) FlagSet.ENABLED = true)) ->
  culling_matches_enabled (with_culling (set_instance s e r) c).
Proof.
  intros Hinv He Hlen Hc Hr e' r' m Hat Hv Hm Hready.
  change (instance_at (with_culling (set_instance s e r) c) e')
    with (instance_at (set_instance s e r) e') in Hat.
  change (isReady (with_culling (set_instance s e r) c) m) with (isReady s m) in Hready.
  cbn [m_culling_system with_culling].
  rewrite instance_at_set_instance in Hat.
  case_bool_decide as Hcase.
  - destruct Hcase as (He' & Heq & _). assert (e' = e) as -> by lia.
    injection Hat as <-. by eapply Hr.
  - assert (e' <> e) as Hne by (intros ->; apply Hcase; done).
    rewrite (Hc e' Hne). by eapply Hinv.
Qed.

(** [enableModelInstance] keeps culling membership in step with the enabled
    flag. *)
Lemma enableModelInstance_preserves e enable s s' :
  culling_matches_enabled s ->
  enableModelInstance e enable s = Ok s' ->
  culling_matches_enabled s'.
Proof.
  intros Hinv Hen. unfold enableModelInstance in Hen.
  destruct (instance_at s e) as [mi|] eqn:Hmi; [|done]. cbn [bind] in Hen.
  apply instance_at_Ok in Hmi as [He Hlook].
  apply lookup_lt_Some in Hlook as Hlen.
  set (r := mkModelInstance (entity mi) (model mi) (pose mi) (meshes mi) (mesh_count mi)
              (FlagSet.set_to (flags mi) FlagSet.ENABLED enable)
              (next_model mi) (prev_model mi)) in *.
  assert (forall c,
            (forall e', e' <> e -> e' ∈ c <-> e' ∈ m_culling_system s) ->
            (forall m, model r = Some m -> isReady s m = true ->
                       (e ∈ c <-> FlagSet.isSet (flags r) FlagSet.ENABLED = true)) ->
            culling_matches_enabled (with_culling (set_instance s e r) c)) as Hupd.
  { intros c H1 H2. apply culling_matches_enabled_update; [done|done|done|done|].
    intros m _. apply H2. }
  destruct enable.
  - assert (FlagSet.isSet (flags r) FlagSet.ENABLED = true) as Hflag
      by apply isSet_set_to_true.
    destruct (model r) as [m0|] eqn:Hmodel.
    + change (isReady (set_instance s e r) m0) with (isReady s m0) in Hen.
      change (isAdded (set_instance s e r) e) with (isAdded s e) in Hen.
      destruct (isReady s m0) eqn:Hready; cbn [negb] in Hen.
      * destruct (isAdded s e) eqn:Hadded; cbn [negb] in Hen; injection Hen as <-.
        -- apply (Hupd (m_culling_system s)); [done|].
           intros m _ _. apply bool_decide_eq_true in Hadded. done.
        -- apply (Hupd ({[e]} ∪ m_culling_system s)).
           ++ intros e' Hne. rewrite elem_of_union, elem_of_singleton. tauto.
           ++ intros m _ _. split; [done|]. intros _.
              apply elem_of_union. left. by apply elem_of_singleton.
      * injection Hen as <-. apply (Hupd (m_culling_system s)); [done|].
        intros m Hm Hr. congruence.
    + injection Hen as <-. apply (Hupd (m_culling_system s)); [done|].
      intros m Hm. congruence.
  - injection Hen as <-. apply (Hupd (m_culling_system s ∖ {[e]})).
    + intros e' Hne. rewrite elem_of_difference, elem_of_singleton. tauto.
    + intros m _ _. unfold r. cbn [flags]. rewrite isSet_set_to_false.
      split; [|done]. rewrite elem_of_difference, elem_of_singleton. tauto.
Qed.

(** *** Array position equals entity index *)

Definition entities (s : Scene) : list Entity := entity <$> m_model_instances s.

Definition positions_ok (s : Scene) : Prop :=
  forall (i : nat) e, entities s !! i = Some e -> e = Z.of_nat i \/ e = INVALID_ENTITY.

Lemma set_instance_entities s e r r0 :
  instance_at s e = Ok r0 -> entity r = entity r0 ->
  entities (set_instance s e r) = entities s.
Proof.
  intros [_ Hlook]%instance_at_Ok Hent. unfold entities, set_instance. simpl.
  rewrite list_fmap_insert, Hent. apply list_insert_id.
  by rewrite list_lookup_fmap, Hlook.
Qed.

Lemma allocateCustomMeshes_entity r count r' :
  allocateCustomMeshes r count = Ok r' -> entity r' = entity r.
Proof.
  unfold allocateCustomMeshes. destruct (_ && _); [by intros [= <-]|].
  destruct (model r); [|done]. destruct (_ <? _); [done|]. by intros [= <-].
Qed.

Lemma freeCustomMeshes_entity r : entity (freeCustomMeshes r) = entity r.
Proof. unfold freeCustomMeshes. by destruct (negb _). Qed.

Lemma modelLoaded_entity_entities m e s s' :
  modelLoaded_entity m e s = Ok s' -> entities s' = entities s.
Proof.
  unfold modelLoaded_entity. destruct (instance_at s e) as [r|] eqn:Hr; [|done].
  cbn [bind]. destruct (model r) as [rm|]; [|done]. destruct (pose r); [done|].
  assert (forall c, instance_at (with_culling s c) e = Ok r) as Hc by (intros c; exact Hr).
  set (r1 := if 0 <? getBoneCount s m then _ else r).
  assert (entity r1 = entity r) as E1 by (unfold r1; by destruct (0 <? getBoneCount s m)).
  assert (forall r2, entity r2 = entity r ->
            entities (set_instance
                        (if FlagSet.isSet (flags r) FlagSet.ENABLED then culling_add s e else s)
                        e r2) = entities s) as Hset.
  { intros r2 E2. destruct (FlagSet.isSet (flags r) FlagSet.ENABLED).
    - by erewrite (set_instance_entities (culling_add s e)); [|apply Hc|].
    - by erewrite (set_instance_entities s). }
  destruct (meshes r1).
  - intros [= <-]. by apply Hset.
  - destruct (negb (hasCustomMeshes r1)); [done|].
    destruct (allocateCustomMeshes r1 _) as [r2|] eqn:Ha; [|done]. cbn [bind].
    intros [= <-]. apply Hset. apply allocateCustomMeshes_entity in Ha. congruence.
  - destruct (negb (hasCustomMeshes r1)); [done|].
    destruct (allocateCustomMeshes r1 _) as [r2|] eqn:Ha; [|done]. cbn [bind].
    intros [= <-]. apply Hset. apply allocateCustomMeshes_entity in Ha. congruence.
Qed.

Lemma addToModelEntityMap_entities m e s s' :
  addToModelEntityMap m e s = Ok s' -> entities s' = entities s.
Proof.
  unfold addToModelEntityMap. destruct (instance_at s e) as [r|] eqn:Hr; [|done].
  cbn [bind]. destruct (m_model_entity_map s !! m); intros [= <-];
    by apply (set_instance_entities s e _ r).
Qed.

Lemma removeFromModelEntityMap_entities m e s s' :
  removeFromModelEntityMap m e s = Ok s' -> entities s' = entities s.
Proof.
  unfold removeFromModelEntityMap. destruct (instance_at s e) as [r|] eqn:Hr; [|done].
  cbn [bind].
  match goal with |- bind ?step _ = _ -> _ => destruct step as [s1|] eqn:H1; [|done] end.
  cbn [bind].
  assert (entities s1 = entities s) as E1.
  { destruct (isValid (prev_model r)); [|by injection H1 as <-].
    destruct (instance_at s (prev_model r)) as [rp|] eqn:Hrp; [|done].
    cbn [bind] in H1. injection H1 as <-. by apply (set_instance_entities s _ _ rp). }
  match goal with |- bind ?step _ = _ -> _ => destruct step as [s2|] eqn:H2; [|done] end.
  cbn [bind].
  assert (entities s2 = entities s1) as E2.
  { destruct (isValid (next_model r)); [|by injection H2 as <-].
    destruct (instance_at s1 (next_model r)) as [rn|] eqn:Hrn; [|done].
    cbn [bind] in H2. injection H2 as <-. by apply (set_instance_entities s1 _ _ rn). }
  destruct (m_model_entity_map s2 !! m) as [head|]; [|done].
  destruct (head =? e); [|intros [= <-]; congruence].
  destruct (isValid (next_model r)); intros [= <-];
    change (entities s2 = entities s); congruence.
Qed.

Lemma setModel_entities e new_model s s' :
  setModel e new_model s = Ok s' -> entities s' = entities s.
Proof.
  unfold setModel. destruct (instance_at s e) as [mi|] eqn:Hmi; [|done]. cbn [bind].
  destruct (negb (isValid (entity mi))); [done|].
  destruct (_ && _); [by intros [= <-]|].
  match goal with |- bind ?step _ = _ -> _ => destruct step as [s3|] eqn:H3; [|done] end.
  cbn [bind].
  assert (entities s3 = entities s) as E3.
  { destruct (model mi) as [om|]; [|by injection H3 as <-].
    destruct (removeFromModelEntityMap om e _) as [s2|] eqn:Hrem; [|done].
    cbn [bind] in H3. injection H3 as <-.
    apply removeFromModelEntityMap_entities in Hrem.
    rewrite (set_instance_entities s e _ mi) in Hrem
      by (done || apply freeCustomMeshes_entity).
    by destruct (isReady s2 om). }
  destruct (instance_at s3 e) as [r|] eqn:Hr; [|done]. cbn [bind].
  assert (entities (set_instance s3 e
            (mkModelInstance (entity r) new_model None NoMeshes 0 (flags r)
               (next_model r) (prev_model r))) = entities s) as E4
    by (rewrite <- E3; by apply (set_instance_entities s3 e _ r)).
  destruct new_model as [m|]; [|by intros [= <-]].
  destruct (addToModelEntityMap m e _) as [s5|] eqn:Hadd; [|done]. cbn [bind].
  apply addToModelEntityMap_entities in Hadd. rewrite E4 in Hadd.
  destruct (isReady s5 m).
  - intros Hl%modelLoaded_entity_entities. congruence.
  - by intros [= <-].
Qed.

(** [createModelInstance] keeps position and entity index together: the
    table is padded with holes up to the new index. *)
Lemma createModelInstance_positions e s :
  0 <= e -> positions_ok s -> positions_ok (createModelInstance e s).
Proof.
  intros He Hok i e' Hi. unfold createModelInstance, entities in Hi.
  assert (forall j r, pad_to (m_model_instances s) e !! j = Some r ->
            entity r = Z.of_nat j \/ entity r = INVALID_ENTITY) as Hpad.
  { intros j r Hj. unfold pad_to in Hj.
    apply lookup_app_Some in Hj as [Hj | [_ Hj]].
    - apply (Hok j). unfold entities. by rewrite list_lookup_fmap, Hj.
    - apply lookup_replicate in Hj as [-> _]. by right. }
  destruct (pad_to (m_model_instances s) e !! Z.to_nat e) as [r|] eqn:Hr.
  - simpl in Hi. rewrite list_lookup_fmap in Hi.
    destruct (decide (i = Z.to_nat e)) as [->|Hne].
    + rewrite list_lookup_insert_eq in Hi by (by eapply lookup_lt_Some).
      simpl in Hi. injection Hi as <-. left. lia.
    + rewrite list_lookup_insert_ne in Hi by done.
      destruct (pad_to (m_model_instances s) e !! i) as [r'|] eqn:Hr'; [|done].
      simpl in Hi. injection Hi as <-. by eapply Hpad.
  - simpl in Hi. rewrite list_lookup_fmap in Hi.
    destruct (pad_to (m_model_instances s) e !! i) as [r'|] eqn:Hr'; [|done].
    simpl in Hi. injection Hi as <-. by eapply Hpad.
Qed.

(** [destroyModelInstance] leaves a hole at the entity's position. *)
Lemma destroyModelInstance_positions e s s' :
  positions_ok s -> destroyModelInstance e s = Ok s' -> positions_ok s'.
Proof.
  intros Hok. unfold destroyModelInstance.
  destruct (setModel e None s) as [s1|] eqn:Hset; [|done]. cbn [bind].
  destruct (instance_at s1 e) as [r|] eqn:Hr; [|done]. cbn [bind]. intros [= <-].
  apply setModel_entities in Hset.
  intros i e' Hi. unfold entities, set_instance in Hi. simpl in Hi.
  rewrite list_fmap_insert in Hi. fold (entities s1) in Hi. rewrite Hset in Hi.
  destruct (decide (i = Z.to_nat e)) as [->|Hne].
  - apply list_lookup_insert_Some in Hi as [(_ & <- & _) | (? & _)]; [by right|done].
  - rewrite list_lookup_insert_ne in Hi by done. by apply Hok.
Qed.

(** C2. While model 10 is loading the property holds; when model 10 becomes
    ready, [modelLoaded] walks the dependency list 2 -> 1, where entity 1 no
    longer uses model 10 and entity 0 is no longer reachable: entity 0 has a
    model instance, its model is ready and it is enabled, yet it is not
    registered for culling. *)
Theorem ready_transition_skips_entity :
  exists s0 s1 r0,
    scene_before_ready = Ok s0 /\
    culling_matches_enabled s0 /\
    scene_after_ready = Ok s1 /\
    instance_at s1 0 = Ok r0 /\
    isValid (entity r0) = true /\
    model r0 = Some 10 /\
    isReady s1 10 = true /\
    FlagSet.isSet (flags r0) FlagSet.ENABLED = true /\
    isAdded s1 0 = false /\
    ~ culling_matches_enabled s1.
Proof.
  assert (exists s0, scene_before_ready = Ok s0 /\ ready_models s0 = ∅) as (s0 & Hs0 & Hr0)
    by (eexists; split; [vm_compute; reflexivity|vm_compute; reflexivity]).
  assert (exists s1 r0,
            scene_after_ready = Ok s1 /\ instance_at s1 0 = Ok r0 /\
            isValid (entity r0) = true /\ model r0 = Some 10 /\
            isReady s1 10 = true /\
            FlagSet.isSet (flags r0) FlagSet.ENABLED = true /\
            isAdded s1 0 = false) as (s1 & r0 & Hs1 & Hat & Hv & Hm & Hr & Hf & Ha)
    by (eexists _, _; do 6 (split; [vm_compute; reflexivity|]); vm_compute; reflexivity).
  assert (culling_matches_enabled s0) as Hinv0.
  { intros e r m _ _ _ Hready. unfold isReady in Hready. rewrite Hr0 in Hready.
    apply bool_decide_eq_true in Hready. set_solver. }
  exists s0, s1, r0. do 9 (split; [assumption|]).
  intros Hinv. apply bool_decide_eq_false in Ha. apply Ha.
  by apply (Hinv 0 r0 10).
Qed.

End ModelInstances.

(** ** The visible-mesh-instance builder

    [getModelInstanceInfos].  The culling system, the frustum, the positions
    kept by the universe and the squared distance between two points are
    parameters.  Each job of the parallel region reads shared state and
    appends to its own buffer only, so the jobs are run one after the other
    here; [JobSystem::wait] is the point where all buffers are complete. *)

Module VisibleMeshes.
Import Float32 Containers.

Record Mesh := mkMesh {
  layer_mask : Z;
  material_ready : bool
}.

Record LODMeshIndices := mkLOD {
  from : Z;
  to : Z
}.

(** A model as the builder reads it: its LOD table. *)
Record Model := mkModel {
  getLODMeshIndices : float -> LODMeshIndices
}.

Record ModelInstance := mkModelInstance {
  model : option Model;
  meshes : list Mesh
}.

(** [MeshInstance]: [mesh] is the index [j] of [&model_instance->meshes[j]]. *)
Record MeshInstance := mkMeshInstance {
  owner : Entity;
  mesh : Z;
  depth : float
}.

Record Scene := mkScene {
  m_model_instances : list ModelInstance;
  m_lod_multiplier : float
}.

(** The size of the [jobs] and [job_storage] arrays. *)
Definition MAX_JOBS : nat := 64.

(** What [Array::resize] leaves in the slots it adds. *)
Definition uninitialized : MeshInstance := mkMeshInstance INVALID_ENTITY 0 (of_int 0).

Section WithCulling.

Context {Frustum DVec3 : Type}.

(** [CullingSystem::cull], [Universe::getPosition] and
    [float((a - b).squaredLength())]. *)
Variable cull : Frustum -> Z -> list (list Entity).
Variable getPosition : Entity -> DVec3.
Variable squaredLength_of_difference : DVec3 -> DVec3 -> float.

(** The loop [for (int j = lod.from, c = lod.to; j <= c; ++j)], with
    [n] iterations left. *)
Fixpoint mesh_loop (n : nat) (j : Z) (model_instance : ModelInstance) (layer_mask_arg : Z)
  (e : Entity) (squared_distance : float) (subinfos : list MeshInstance)
  : outcome (list MeshInstance) :=
  match n with
  | O => Ok subinfos
  | S n' =>
      match at_index (meshes model_instance) j with
      | None => Fault OutOfBoundsRead
      | Some m =>
          if Z.land (layer_mask m) layer_mask_arg =? 0
          then mesh_loop n' (j + 1) model_instance layer_mask_arg e squared_distance subinfos
          else if material_ready m
          then mesh_loop n' (j + 1) model_instance layer_mask_arg e squared_distance
                 (subinfos ++ [mkMeshInstance e j squared_distance])
          else mesh_loop n' (j + 1) model_instance layer_mask_arg e squared_distance subinfos
      end
  end.

(** The loop over the candidates of one bucket. *)
Fixpoint candidate_loop (s : Scene) (ref_point : DVec3) (final_lod_multiplier : float)
  (layer_mask_arg : Z) (candidates : list Entity) (subinfos : list MeshInstance)
  : outcome (list MeshInstance) :=
  match candidates with
  | [] => Ok subinfos
  | e :: rest =>
      match at_index (m_model_instances s) e with
      | None => Fault OutOfBoundsRead
      | Some model_instance =>
          let squared_distance :=
            fmul (squaredLength_of_difference (getPosition e) ref_point)
                 final_lod_multiplier in
          match model model_instance with
          | None => Fault NullDereference
          | Some m =>
              let lod := getLODMeshIndices m squared_distance in
              bind (mesh_loop (Z.to_nat (to lod - from lod + 1)) (from lod) model_instance
                      layer_mask_arg e squared_distance subinfos)
                   (candidate_loop s ref_point final_lod_multiplier layer_mask_arg rest)
          end
      end
  end.

(** The body of one job. *)
Definition job (s : Scene) (lod_ref_point : DVec3) (lod_multiplier : float)
  (layer_mask_arg : Z) (subresult : list Entity) : outcome (list MeshInstance) :=
  if bool_decide (subresult = []) then Ok []
  else
    let final_lod_multiplier := fmul (m_lod_multiplier s) lod_multiplier in
    candidate_loop s lod_ref_point final_lod_multiplier layer_mask_arg subresult [].

Fixpoint run_jobs (s : Scene) (lod_ref_point : DVec3) (lod_multiplier : float)
  (layer_mask_arg : Z) (cull_results : list (list Entity))
  : outcome (list (list MeshInstance)) :=
  match cull_results with
  | [] => Ok []
  | subresult :: rest =>
      bind (job s lod_ref_point lod_multiplier layer_mask_arg subresult) (fun subinfos =>
      bind (run_jobs s lod_ref_point lod_multiplier layer_mask_arg rest) (fun tmp =>
      Ok (subinfos :: tmp)))
  end.

(** [Array::resize] and [memcpy(result.begin() + offset, i.begin(), ...)]. *)
Definition resize (count : nat) (result : list MeshInstance) : list MeshInstance :=
  take count result ++ replicate (count - length result) uninitialized.

Definition memcpy_at (offset : nat) (src dst : list MeshInstance) : list MeshInstance :=
  take offset dst ++ src ++ drop (offset + length src) dst.

Fixpoint merge_loop (tmp : list (list MeshInstance)) (offset : nat)
  (result : list MeshInstance) : list MeshInstance :=
  match tmp with
  | [] => result
  | i :: rest => merge_loop rest (offset + length i) (memcpy_at offset i result)
  end.

Definition total_size (tmp : list (list MeshInstance)) : nat :=
  foldr (fun i count => length i + count)%nat 0%nat tmp.

(** [getModelInstanceInfos].  [ASSERT(cull_results.size() <= lengthOf(jobs))]
    guards the two arrays of [MAX_JOBS] job records. *)
Definition getModelInstanceInfos (s : Scene) (frustum : Frustum) (lod_ref_point : DVec3)
  (lod_multiplier : float) (layer_mask_arg : Z) (result : list MeshInstance)
  : outcome (list MeshInstance) :=
  let cull_results := cull frustum layer_mask_arg in
  if bool_decide (cull_results = []) then Ok result
  else if bool_decide (MAX_JOBS < length cull_results)%nat then Fault AssertionFailed
  else
    bind (run_jobs s lod_ref_point lod_multiplier layer_mask_arg cull_results) (fun tmp =>
    let count := total_size tmp in
    Ok (merge_loop tmp 0 (resize count result))).

(** *** The builder as the spec words it *)

(** One record per mesh of the LOD range whose layer mask intersects the
    query mask and whose material is ready. *)
Definition mesh_records (model_instance : ModelInstance) (layer_mask_arg : Z) (e : Entity)
  (squared_distance : float) (lod : LODMeshIndices) : list MeshInstance :=
  concat ((fun j =>
             match at_index (meshes model_instance) j with
             | Some m =>
                 if negb (Z.land (layer_mask m) layer_mask_arg =? 0) && material_ready m
                 then [mkMeshInstance e j squared_distance]
                 else []
             | None => []
             end) <$> seqZ (from lod) (to lod - from lod + 1)).

Definition candidate_records (s : Scene) (ref_point : DVec3) (lod_multiplier : float)
  (layer_mask_arg : Z) (e : Entity) : list MeshInstance :=
  match at_index (m_model_instances s) e with
  | Some model_instance =>
      match model model_instance with
      | Some m =>
          let squared_distance :=
            fmul (squaredLength_of_difference (getPosition e) ref_point)
                 (fmul (m_lod_multiplier s) lod_multiplier) in
          mesh_records model_instance layer_mask_arg e squared_distance
            (getLODMeshIndices m squared_distance)
      | None => []
      end
  | None => []
  end.

Definition bucket_records (s : Scene) (ref_point : DVec3) (lod_multiplier : float)
  (layer_mask_arg : Z) (bucket : list Entity) : list MeshInstance :=
  concat (candidate_records s ref_point lod_multiplier layer_mask_arg <$> bucket).

Definition visible_mesh_instances (s : Scene) (frustum : Frustum) (ref_point : DVec3)
  (lod_multiplier : float) (layer_mask_arg : Z) : list MeshInstance :=
  concat (bucket_records s ref_point lod_multiplier layer_mask_arg
            <$> cull frustum layer_mask_arg).

(** Every culled candidate is a model instance with a model, and every LOD
    range of that model lies inside the instance's mesh array. *)
Definition candidates_resolved (s : Scene) (buckets : list (list Entity)) : Prop :=
  forall bucket e, bucket ∈ buckets -> e ∈ bucket ->
    exists model_instance m,
      at_index (m_model_instances s) e = Some model_instance /\
      model model_instance = Some m /\
      forall d j, from (getLODMeshIndices m d) <= j <= to (getLODMeshIndices m d) ->
                  is_Some (at_index (meshes model_instance) j).

Lemma mesh_loop_spec n j model_instance layer_mask_arg e d acc :
  (forall k, j <= k < j + Z.of_nat n -> is_Some (at_index (meshes model_instance) k)) ->
  mesh_loop n j model_instance layer_mask_arg e d acc =
  Ok (acc ++ mesh_records model_instance layer_mask_arg e d (mkLOD j (j + Z.of_nat n - 1))).
Proof.
  unfold mesh_records. cbn [from to].
  replace (j + Z.of_nat n - 1 - j + 1) with (Z.of_nat n) by lia.
  revert j acc. induction n as [|n IH]; intros j acc Hin.
  - simpl. by rewrite app_nil_r.
  - rewrite seqZ_cons by lia. cbn [mesh_loop fmap list_fmap concat].
    destruct (Hin j ltac:(lia)) as [m Hm]. rewrite Hm.
    replace (Z.pred (Z.of_nat (S n))) with (Z.of_nat n) by lia.
    replace (Z.succ j) with (j + 1) by lia.
    assert (forall k, j + 1 <= k < j + 1 + Z.of_nat n ->
                      is_Some (at_index (meshes model_instance) k)) as Hin'
      by (intros k Hk; apply Hin; lia).
    destruct (Z.land (layer_mask m) layer_mask_arg =? 0); cbn [negb andb].
    + by rewrite IH.
    + destruct (material_ready m).
      * rewrite IH by done. by rewrite <- app_assoc.
      * by rewrite IH.
Qed.

Lemma mesh_loop_range model_instance layer_mask_arg e d lod acc :
  (forall j, from lod <= j <= to lod -> is_Some (at_index (meshes model_instance) j)) ->
  mesh_loop (Z.to_nat (to lod - from lod + 1)) (from lod) model_instance layer_mask_arg e d acc =
  Ok (acc ++ mesh_records model_instance layer_mask_arg e d lod).
Proof.
  intros Hin. rewrite mesh_loop_spec by (intros k Hk; apply Hin; lia).
  do 2 f_equal. unfold mesh_records. cbn [from to]. do 2 f_equal.
  unfold seqZ. f_equal. f_equal. lia.
Qed.

Lemma candidate_loop_spec s ref_point lod_multiplier layer_mask_arg candidates acc :
  (forall e, e ∈ candidates ->
     exists model_instance m,
       at_index (m_model_instances s) e = Some model_instance /\
       model model_instance = Some m /\
       forall d j, from (getLODMeshIndices m d) <= j <= to (getLODMeshIndices m d) ->
                   is_Some (at_index (meshes model_instance) j)) ->
  candidate_loop s ref_point (fmul (m_lod_multiplier s) lod_multiplier) layer_mask_arg
    candidates acc =
  Ok (acc ++ bucket_records s ref_point lod_multiplier layer_mask_arg candidates).
Proof.
  unfold bucket_records.
  revert acc. induction candidates as [|e rest IH]; intros acc Hres.
  - simpl. by rewrite app_nil_r.
  - destruct (Hres e ltac:(set_solver)) as (mi & m & Hmi & Hm & Hin).
    cbn [candidate_loop fmap list_fmap concat]. unfold candidate_records at 1.
    rewrite Hmi, Hm. rewrite mesh_loop_range by apply Hin. cbn [bind].
    rewrite IH by (intros e' He'; apply Hres; set_solver).
    by rewrite <- app_assoc.
Qed.

Lemma run_jobs_spec s ref_point lod_multiplier layer_mask_arg buckets :
  candidates_resolved s buckets ->
  run_jobs s ref_point lod_multiplier layer_mask_arg buckets =
  Ok (bucket_records s ref_point lod_multiplier layer_mask_arg <$> buckets).
Proof.
  induction buckets as [|b rest IH]; intros Hres; [done|].
  cbn [run_jobs]. unfold job. case_bool_decide as Hb.
  - subst b. cbn [bind]. rewrite IH.
    + done.
    + intros b' e Hb' He. apply (Hres b' e); set_solver.
  - rewrite candidate_loop_spec.
    + cbn [bind app]. rewrite IH; [done|].
      intros b' e Hb' He. apply (Hres b' e); set_solver.
    + intros e He. apply (Hres b e); set_solver.
Qed.

Lemma total_size_concat tmp : total_size tmp = length (concat tmp).
Proof.
  induction tmp as [|i rest IH]; [done|].
  unfold total_size in *. cbn [foldr concat]. rewrite length_app. by rewrite IH.
Qed.

Lemma merge_loop_spec tmp offset result :
  length result = (offset + total_size tmp)%nat ->
  merge_loop tmp offset result = take offset result ++ concat tmp.
Proof.
  revert offset result. induction tmp as [|i rest IH]; intros offset result Hlen.
  - simpl in *. rewrite app_nil_r. rewrite take_ge; [done|lia].
  - cbn [merge_loop concat]. cbn [total_size foldr] in Hlen. fold (total_size rest) in Hlen.
    rewrite IH.
    + unfold memcpy_at. rewrite app_assoc.
      rewrite take_app_length'; [by rewrite <- app_assoc|].
      rewrite length_app, length_take. lia.
    + unfold memcpy_at. rewrite !length_app, length_take, length_drop. lia.
Qed.

Lemma resize_length count result : length (resize count result) = count.
Proof.
  unfold resize. rewrite length_app, length_take, length_replicate. lia.
Qed.

(** C8. When the culling system returns no bucket the builder returns at
    once and the result array stays as it was passed in.  Otherwise (with at
    most [MAX_JOBS] buckets whose candidates are model instances with a model
    and LOD ranges inside their mesh arrays) the result array becomes, bucket
    after bucket and candidate after candidate, one record for each mesh of
    the LOD range selected by the squared distance to the reference point
    times [m_lod_multiplier * lod_multiplier], kept when the mesh's layer
    mask intersects the query mask and its material is ready. *)
Theorem getModelInstanceInfos_spec (s : Scene) (frustum : Frustum) (lod_ref_point : DVec3)
  (lod_multiplier : float) (layer_mask_arg : Z) (result : list MeshInstance) :
  (length (cull frustum layer_mask_arg) <= MAX_JOBS)%nat ->
  candidates_resolved s (cull frustum layer_mask_arg) ->
  getModelInstanceInfos s frustum lod_ref_point lod_multiplier layer_mask_arg result =
  Ok (if bool_decide (cull frustum layer_mask_arg = [])
      then result
      else visible_mesh_instances s frustum lod_ref_point lod_multiplier layer_mask_arg).
Proof.
  intros Hmax Hres. unfold getModelInstanceInfos, visible_mesh_instances.
  case_bool_decide as Hempty; [done|].
  rewrite bool_decide_eq_false_2 by lia.
  rewrite run_jobs_spec by done. cbn [bind]. f_equal.
  rewrite merge_loop_spec.
  - by rewrite take_0.
  - by rewrite resize_length.
Qed.

End WithCulling.

(** *** Two concrete queries over a point scene

    One instance (entity 0) with two meshes: mesh 0 on layer 1 with a ready
    material, mesh 1 on layer 2.  The LOD table selects both meshes at every
    distance. *)

Definition q_instance : ModelInstance :=
  mkModelInstance (Some (mkModel (fun _ => mkLOD 0 1)))
                  [mkMesh 1 true; mkMesh 2 true].

Definition q_scene : Scene := mkScene [q_instance] one.

Definition q_distance (_ _ : unit) : float := of_int 9.

Definition stale : MeshInstance := mkMeshInstance 5 0 one.

(** The culling system returns no bucket and the caller passes an array that
    still holds a record: the result is that record, not the (empty)
    concatenation of the per-bucket outputs. *)
Lemma getModelInstanceInfos_no_bucket_keeps_result :
  getModelInstanceInfos (fun (_ : unit) _ => []) (fun _ => tt) q_distance
    q_scene tt tt one 1 [stale] = Ok [stale] /\
  visible_mesh_instances (fun (_ : unit) _ => []) (fun _ => tt) q_distance
    q_scene tt tt one 1 = [] /\
  getModelInstanceInfos (fun (_ : unit) _ => []) (fun _ => tt) q_distance
    q_scene tt tt one 1 [stale] <>
  Ok (visible_mesh_instances (fun (_ : unit) _ => []) (fun _ => tt) q_distance
        q_scene tt tt one 1).
Proof.
  split; [vm_compute; reflexivity|]. split; [vm_compute; reflexivity|].
  vm_compute. discriminate.
Qed.

Lemma q_resolved : candidates_resolved q_scene [[0]; []; [0]].
Proof.
  intros bucket e Hb He.
  assert (e = 0) as ->.
  { rewrite !elem_of_cons, elem_of_nil in Hb.
    destruct Hb as [-> | [-> | [-> | []]]];
      rewrite ?elem_of_cons, ?elem_of_nil in He; tauto. }
  exists q_instance, (mkModel (fun _ => mkLOD 0 1)).
  split; [done|]. split; [done|].
  intros d j Hj. simpl in Hj.
  assert (j = 0 \/ j = 1) as [-> | ->] by lia; by eexists.
Qed.

Lemma getModelInstanceInfos_spec_witness :
  getModelInstanceInfos (fun (_ : unit) _ => [[0]; []; [0]]) (fun _ => tt) q_distance
    q_scene tt tt one 1 [stale] =
  Ok [mkMeshInstance 0 0 (of_int 9); mkMeshInstance 0 0 (of_int 9)].
Proof.
  rewrite (getModelInstanceInfos_spec (fun (_ : unit) _ => [[0]; []; [0]]) (fun _ => tt)
             q_distance q_scene tt tt one 1 [stale] ltac:(simpl; unfold MAX_JOBS; lia) q_resolved).
  reflexivity.
Defined.

End VisibleMeshes.

(** ** Ray casting against the whole scene

    [castRay].  Ray parameters, distances and radii are rationals, compared
    and multiplied exactly; [DBL_MAX], the initial [cur_dist], is [None].
    The geometry (positions and scales kept by the universe, the distance of
    two points, the ray and sphere test, [Model::castRay] and
    [Terrain::castRay]) is not among the sources and is a parameter. *)

Module RayCast.

Inductive ComponentType :=
| INVALID_COMPONENT_TYPE
| MODEL_INSTANCE_TYPE
| TERRAIN_TYPE.

Section WithGeometry.

Context {DVec3 Vec3 Pose : Type}.

Record RayCastModelHit := mkHit {
  is_hit : bool;
  t : Q;
  origin : DVec3;
  dir : Vec3;
  mesh : option Z;
  entity : Entity;
  component_type : ComponentType
}.

Record Model := mkModel {
  getBoundingRadius : Q;
  model_castRay : Vec3 -> Vec3 -> option Pose -> RayCastModelHit
}.

Record ModelInstance := mkModelInstance {
  mi_entity : Entity;
  model : option Model;
  pose : option Pose;
  flags : Z
}.

Record Terrain := mkTerrain {
  getEntity : Entity;
  terrain_castRay : DVec3 -> Vec3 -> RayCastModelHit
}.

Record Scene := mkScene {
  m_model_instances : list ModelInstance;
  m_terrains : list Terrain
}.

(** [Universe::getPosition], [Universe::getScale], [(a - b).length()],
    [(a - b).toFloat()], [Vec3::length] and [Math::getRaySphereIntersection]
    with a sphere centred at zero. *)
Variable getPosition : Entity -> DVec3.
Variable getScale : Entity -> Q.
Variable distance : DVec3 -> DVec3 -> Q.
Variable relative : DVec3 -> DVec3 -> Vec3.
Variable length_of : Vec3 -> Q.
Variable getRaySphereIntersection : Vec3 -> Vec3 -> Q -> bool.

Definition Qltb (a b : Q) : bool := negb (Qle_bool b a).

(** [a > cur_dist], where [None] is [DBL_MAX]. *)
Definition exceeds (a : Q) (cur_dist : option Q) : bool :=
  match cur_dist with
  | Some c => Qltb c a
  | None => false
  end.

Definition with_owner (h : RayCastModelHit) (e : Entity) (ty : ComponentType)
  : RayCastModelHit :=
  mkHit true (t h) (origin h) (dir h) (mesh h) e ty.

Definition without_mesh (h : RayCastModelHit) (e : Entity) (ty : ComponentType)
  : RayCastModelHit :=
  mkHit (is_hit h) (t h) (origin h) (dir h) None e ty.

(** [new_hit.is_hit && (!hit.is_hit || new_hit.t < hit.t)]. *)
Definition closer (new_hit hit : RayCastModelHit) : bool :=
  is_hit new_hit && (negb (is_hit hit) || Qltb (t new_hit) (t hit)).

(** One iteration of the loop over [m_model_instances], at index [i]. *)
Definition instance_step (origin_arg : DVec3) (dir_arg : Vec3) (ignored : Entity)
  (i : Z) (r : ModelInstance) (st : RayCastModelHit * option Q)
  : RayCastModelHit * option Q :=
  let '(hit, cur_dist) := st in
  match model r with
  | None => st
  | Some m =>
      if ignored =? i then st
      else if negb (FlagSet.isSet (flags r) FlagSet.ENABLED) then st
      else
        let e := mi_entity r in
        let pos := getPosition e in
        let scale := getScale e in
        let radius := (getBoundingRadius m * scale)%Q in
        let dist := distance pos origin_arg in
        if exceeds (dist - radius)%Q cur_dist then st
        else
          let rel_pos := relative origin_arg pos in
          if getRaySphereIntersection rel_pos dir_arg radius then
            let new_hit := model_castRay m rel_pos dir_arg (pose r) in
            if closer new_hit hit then
              let hit' := with_owner new_hit e MODEL_INSTANCE_TYPE in
              (hit', Some (length_of dir_arg * t hit')%Q)
            else st
          else st
  end.

Fixpoint instance_loop (origin_arg : DVec3) (dir_arg : Vec3) (ignored : Entity)
  (i : Z) (table : list ModelInstance) (st : RayCastModelHit * option Q)
  : RayCastModelHit * option Q :=
  match table with
  | [] => st
  | r :: rest =>
      instance_loop origin_arg dir_arg ignored (i + 1) rest
        (instance_step origin_arg dir_arg ignored i r st)
  end.

Definition terrain_step (origin_arg : DVec3) (dir_arg : Vec3) (terrain : Terrain)
  (hit : RayCastModelHit) : RayCastModelHit :=
  let terrain_hit := terrain_castRay terrain origin_arg dir_arg in
  if closer terrain_hit hit
  then without_mesh terrain_hit (getEntity terrain) TERRAIN_TYPE
  else hit.

Fixpoint terrain_loop (origin_arg : DVec3) (dir_arg : Vec3) (terrains : list Terrain)
  (hit : RayCastModelHit) : RayCastModelHit :=
  match terrains with
  | [] => hit
  | terrain :: rest =>
      terrain_loop origin_arg dir_arg rest (terrain_step origin_arg dir_arg terrain hit)
  end.

(** The hit [castRay] starts from: only [is_hit], [origin] and [dir] are
    assigned; the other fields hold the values of a default-constructed
    [RayCastModelHit]. *)
Definition no_hit (origin_arg : DVec3) (dir_arg : Vec3) : RayCastModelHit :=
  mkHit false 0 origin_arg dir_arg None INVALID_ENTITY INVALID_COMPONENT_TYPE.

Definition castRay (s : Scene) (origin_arg : DVec3) (dir_arg : Vec3)
  (ignored_model_instance : Entity) : RayCastModelHit :=
  let '(hit, _) :=
    instance_loop origin_arg dir_arg ignored_model_instance 0 (m_model_instances s)
      (no_hit origin_arg dir_arg, None) in
  terrain_loop origin_arg dir_arg (m_terrains s) hit.

(** *** The candidates of the spec *)

(** The hit of the instance at index [i], when that instance is enabled, has
    a model, is not the ignored one, passes the bounding-sphere test and is
    hit by the model's precise ray cast. *)
Definition instance_hit (origin_arg : DVec3) (dir_arg : Vec3) (ignored : Entity)
  (i : Z) (r : ModelInstance) : option RayCastModelHit :=
  match model r with
  | None => None
  | Some m =>
      if ignored =? i then None
      else if negb (FlagSet.isSet (flags r) FlagSet.ENABLED) then None
      else
        let e := mi_entity r in
        let radius := (getBoundingRadius m * getScale e)%Q in
        let rel_pos := relative origin_arg (getPosition e) in
        if getRaySphereIntersection rel_pos dir_arg radius then
          let new_hit := model_castRay m rel_pos dir_arg (pose r) in
          if is_hit new_hit then Some (with_owner new_hit e MODEL_INSTANCE_TYPE)
          else None
        else None
  end.

Fixpoint instance_hits (origin_arg : DVec3) (dir_arg : Vec3) (ignored : Entity)
  (i : Z) (table : list ModelInstance) : list RayCastModelHit :=
  match table with
  | [] => []
  | r :: rest =>
      match instance_hit origin_arg dir_arg ignored i r with
      | Some h => h :: instance_hits origin_arg dir_arg ignored (i + 1) rest
      | None => instance_hits origin_arg dir_arg ignored (i + 1) rest
      end
  end.

Definition terrain_hit_of (origin_arg : DVec3) (dir_arg : Vec3) (terrain : Terrain)
  : option RayCastModelHit :=
  let h := terrain_castRay terrain origin_arg dir_arg in
  if is_hit h then Some (without_mesh h (getEntity terrain) TERRAIN_TYPE) else None.

Fixpoint terrain_hits (origin_arg : DVec3) (dir_arg : Vec3) (terrains : list Terrain)
  : list RayCastModelHit :=
  match terrains with
  | [] => []
  | terrain :: rest =>
      match terrain_hit_of origin_arg dir_arg terrain with
      | Some h => h :: terrain_hits origin_arg dir_arg rest
      | None => terrain_hits origin_arg dir_arg rest
      end
  end.

Definition all_hits (s : Scene) (origin_arg : DVec3) (dir_arg : Vec3) (ignored : Entity)
  : list RayCastModelHit :=
  instance_hits origin_arg dir_arg ignored 0 (m_model_instances s)
  ++ terrain_hits origin_arg dir_arg (m_terrains s).

(** The precise hit of a model lies inside the sphere the pre-test uses:
    the hit point is at least [dist - radius] away from the ray's origin. *)
Definition hits_inside_spheres (s : Scene) (origin_arg : DVec3) (dir_arg : Vec3) : Prop :=
  (0 <= length_of dir_arg)%Q /\
  forall r m,
    r ∈ m_model_instances s -> model r = Some m ->
    let e := mi_entity r in
    let radius := (getBoundingRadius m * getScale e)%Q in
    let new_hit := model_castRay m (relative origin_arg (getPosition e)) dir_arg (pose r) in
    is_hit new_hit = true ->
    (distance (getPosition e) origin_arg - radius <= length_of dir_arg * t new_hit)%Q.

(** At most one hit as a list. *)
Definition as_list (o : option RayCastModelHit) : list RayCastModelHit :=
  match o with
  | Some h => [h]
  | None => []
  end.

Lemma Qltb_true a b : Qltb a b = true <-> (a < b)%Q.
Proof.
  unfold Qltb. rewrite negb_true_iff. split.
  - intros H. apply Qnot_le_lt. intros Hle. apply Qle_bool_iff in Hle. congruence.
  - intros H. destruct (Qle_bool b a) eqn:E; [|done]. apply Qle_bool_iff in E. lra.
Qed.

Lemma Qltb_false a b : Qltb a b = false <-> (b <= a)%Q.
Proof.
  unfold Qltb. rewrite negb_false_iff. apply Qle_bool_iff.
Qed.

(** [hit] is the closest of [cands] (or there is none). *)
Definition closest_of (cands : list RayCastModelHit) (hit : RayCastModelHit) : Prop :=
  if is_hit hit
  then hit ∈ cands /\ forall c, c ∈ cands -> (t hit <= t c)%Q
  else cands = [].

(** [cur_dist] is the distance of [hit] along the ray. *)
Definition tracks (dir_arg : Vec3) (hit : RayCastModelHit) (cur_dist : option Q) : Prop :=
  if is_hit hit then cur_dist = Some (length_of dir_arg * t hit)%Q else cur_dist = None.

Lemma closest_of_skip cands hit h :
  closest_of cands hit -> is_hit hit = true -> (t hit <= t h)%Q ->
  closest_of (cands ++ [h]) hit.
Proof.
  unfold closest_of. intros Hc Hh Hle. rewrite Hh in *. destruct Hc as [Hin Hmin].
  split; [apply elem_of_app; by left|].
  intros c [Hc | Hc%list_elem_of_singleton]%elem_of_app; [by apply Hmin|by subst].
Qed.

Lemma closest_of_take cands hit h :
  closest_of cands hit -> is_hit h = true ->
  (is_hit hit = false \/ (t h < t hit)%Q) ->
  closest_of (cands ++ [h]) h.
Proof.
  unfold closest_of. intros Hc Hh Hcase. rewrite Hh.
  split; [apply elem_of_app; right; by apply list_elem_of_singleton|].
  intros c [Hin | Hin%list_elem_of_singleton]%elem_of_app; [|subst; lra].
  destruct (is_hit hit).
  - destruct Hc as [_ Hmin]. destruct Hcase as [|Hlt]; [done|].
    specialize (Hmin c Hin). lra.
  - subst cands. by apply elem_of_nil in Hin.
Qed.

Lemma closer_cases new_hit hit :
  (closer new_hit hit = true /\ is_hit new_hit = true /\
     (is_hit hit = false \/ (t new_hit < t hit)%Q)) \/
  (closer new_hit hit = false /\ is_hit new_hit = false) \/
  (closer new_hit hit = false /\ is_hit new_hit = true /\ is_hit hit = true /\
     (t hit <= t new_hit)%Q).
Proof.
  unfold closer. destruct (is_hit new_hit); [|by right; left].
  destruct (is_hit hit); cbn [negb andb orb]; [|by left; auto].
  destruct (Qltb (t new_hit) (t hit)) eqn:Hlt.
  - left. apply Qltb_true in Hlt. auto.
  - right. right. apply Qltb_false in Hlt. auto.
Qed.

Lemma instance_step_inv origin_arg dir_arg ignored i r done hit cur :
  (0 <= length_of dir_arg)%Q ->
  (forall m, model r = Some m ->
     let e := mi_entity r in
     let radius := (getBoundingRadius m * getScale e)%Q in
     let new_hit := model_castRay m (relative origin_arg (getPosition e)) dir_arg (pose r) in
     is_hit new_hit = true ->
     (distance (getPosition e) origin_arg - radius <= length_of dir_arg * t new_hit)%Q) ->
  closest_of done hit -> tracks dir_arg hit cur ->
  let st' := instance_step origin_arg dir_arg ignored i r (hit, cur) in
  closest_of (done ++ as_list (instance_hit origin_arg dir_arg ignored i r)) st'.1 /\
  tracks dir_arg st'.1 st'.2.
Proof.
  intros Hlen Hsound Hclosest Htracks. unfold instance_step, instance_hit.
  destruct (model r) as [m|] eqn:Hm; [|by rewrite app_nil_r].
  destruct (ignored =? i); [by rewrite app_nil_r|].
  destruct (negb (FlagSet.isSet (flags r) FlagSet.ENABLED)); [by rewrite app_nil_r|].
  specialize (Hsound m eq_refl). cbv zeta in Hsound.
  set (radius := (getBoundingRadius m * getScale (mi_entity r))%Q) in *.
  set (new_hit := model_castRay m (relative origin_arg (getPosition (mi_entity r)))
                    dir_arg (pose r)) in *.
  destruct (exceeds _ cur) eqn:Hex.
  - cbn [fst snd]. split; [|done].
    destruct (getRaySphereIntersection _ _ _); [|by rewrite app_nil_r].
    destruct (is_hit new_hit) eqn:Hnew; [|by rewrite app_nil_r].
    unfold tracks in Htracks. unfold exceeds in Hex.
    destruct (is_hit hit) eqn:Hhit; [|by subst cur].
    subst cur. apply Qltb_true in Hex. specialize (Hsound eq_refl).
    cbn [as_list].
    apply (closest_of_skip done hit (with_owner new_hit (mi_entity r) MODEL_INSTANCE_TYPE)
             Hclosest Hhit).
    cbn [t with_owner].
    destruct (Qlt_le_dec (t new_hit) (t hit)) as [Hlt|Hle]; [|done].
    exfalso. assert (length_of dir_arg * t new_hit <= length_of dir_arg * t hit)%Q by nra.
    lra.
  - destruct (getRaySphereIntersection _ _ _); [|by rewrite app_nil_r].
    fold new_hit.
    destruct (closer_cases new_hit hit) as [(-> & Hnew & Hcase) | [(-> & Hnew) | (-> & Hnew & Hhit & Hle)]];
      rewrite Hnew; cbn [fst snd as_list].
    + cbn [as_list].
      split; [exact (closest_of_take done hit
                       (with_owner new_hit (mi_entity r) MODEL_INSTANCE_TYPE)
                       Hclosest eq_refl Hcase)|].
      unfold tracks. done.
    + by rewrite app_nil_r.
    + cbn [as_list].
      split; [exact (closest_of_skip done hit
                       (with_owner new_hit (mi_entity r) MODEL_INSTANCE_TYPE)
                       Hclosest Hhit Hle)|done].
Qed.

Lemma instance_loop_inv origin_arg dir_arg ignored table :
  (0 <= length_of dir_arg)%Q ->
  (forall r m, r ∈ table -> model r = Some m ->
     let e := mi_entity r in
     let radius := (getBoundingRadius m * getScale e)%Q in
     let new_hit := model_castRay m (relative origin_arg (getPosition e)) dir_arg (pose r) in
     is_hit new_hit = true ->
     (distance (getPosition e) origin_arg - radius <= length_of dir_arg * t new_hit)%Q) ->
  forall i done hit cur,
    closest_of done hit -> tracks dir_arg hit cur ->
    closest_of (done ++ instance_hits origin_arg dir_arg ignored i table)
      (instance_loop origin_arg dir_arg ignored i table (hit, cur)).1.
Proof.
  intros Hlen. induction table as [|r rest IH]; intros Hsound i done hit cur Hc Ht.
  - simpl. by rewrite app_nil_r.
  - cbn [instance_loop instance_hits].
    destruct (instance_step_inv origin_arg dir_arg ignored i r done hit cur Hlen) as [Hc' Ht'];
      [intros m; apply Hsound; by left|done|done|].
    destruct (instance_step origin_arg dir_arg ignored i r (hit, cur)) as [hit' cur'].
    cbn [fst snd] in *.
    assert (done ++ instance_hits origin_arg dir_arg ignored i (r :: rest)
            = (done ++ as_list (instance_hit origin_arg dir_arg ignored i r))
              ++ instance_hits origin_arg dir_arg ignored (i + 1) rest) as Heq.
    { cbn [instance_hits]. destruct (instance_hit _ _ _ _ _); cbn [as_list].
      - by rewrite <- app_assoc.
      - by rewrite app_nil_r. }
    cbn [instance_hits] in Heq. rewrite Heq.
    apply IH; [|done|done].
    intros r' m Hr'. apply Hsound. by right.
Qed.

Lemma terrain_loop_inv origin_arg dir_arg terrains :
  forall done hit,
    closest_of done hit ->
    closest_of (done ++ terrain_hits origin_arg dir_arg terrains)
      (terrain_loop origin_arg dir_arg terrains hit).
Proof.
  induction terrains as [|terrain rest IH]; intros done hit Hc.
  - simpl. by rewrite app_nil_r.
  - cbn [terrain_loop terrain_hits].
    unfold terrain_step, terrain_hit_of. cbv zeta.
    set (h := terrain_castRay terrain origin_arg dir_arg).
    destruct (closer_cases h hit) as [(-> & Hnew & Hcase) | [(-> & Hnew) | (-> & Hnew & Hhit & Hle)]];
      rewrite Hnew.
    + replace (done ++ without_mesh h (getEntity terrain) TERRAIN_TYPE
                 :: terrain_hits origin_arg dir_arg rest)
        with ((done ++ [without_mesh h (getEntity terrain) TERRAIN_TYPE])
                ++ terrain_hits origin_arg dir_arg rest)
        by (by rewrite <- app_assoc).
      apply IH. exact (closest_of_take done hit
                         (without_mesh h (getEntity terrain) TERRAIN_TYPE) Hc Hnew Hcase).
    + by apply IH.
    + replace (done ++ without_mesh h (getEntity terrain) TERRAIN_TYPE
                 :: terrain_hits origin_arg dir_arg rest)
        with ((done ++ [without_mesh h (getEntity terrain) TERRAIN_TYPE])
                ++ terrain_hits origin_arg dir_arg rest)
        by (by rewrite <- app_assoc).
      apply IH. exact (closest_of_skip done hit
                         (without_mesh h (getEntity terrain) TERRAIN_TYPE) Hc Hhit Hle).
Qed.

Lemma instance_hits_type origin_arg dir_arg ignored table i h :
  h ∈ instance_hits origin_arg dir_arg ignored i table ->
  component_type h = MODEL_INSTANCE_TYPE.
Proof.
  revert i. induction table as [|r rest IH]; intros i Hin; [by apply elem_of_nil in Hin|].
  cbn [instance_hits] in Hin.
  destruct (instance_hit origin_arg dir_arg ignored i r) as [h'|] eqn:Hh.
  - apply elem_of_cons in Hin as [-> | Hin]; [|by eapply IH].
    unfold instance_hit in Hh. repeat case_match; try done. by injection Hh as <-.
  - by eapply IH.
Qed.

Lemma terrain_hits_mesh origin_arg dir_arg terrains h :
  h ∈ terrain_hits origin_arg dir_arg terrains -> mesh h = None.
Proof.
  induction terrains as [|terrain rest IH]; intros Hin; [by apply elem_of_nil in Hin|].
  cbn [terrain_hits] in Hin.
  destruct (terrain_hit_of origin_arg dir_arg terrain) as [h'|] eqn:Hh; [|by apply IH].
  apply elem_of_cons in Hin as [-> | Hin]; [|by apply IH].
  unfold terrain_hit_of in Hh. case_match; [|done]. by injection Hh as <-.
Qed.

(** C9. When precise hits lie inside the bounding spheres of their
    instances, [castRay] reports no hit exactly when neither an instance
    (enabled, with a model, not the ignored one, passing the sphere test and
    the model's precise ray cast with the instance's pose) nor a terrain is
    hit; otherwise it returns one of those hits with the smallest [t] of all
    of them, and a returned terrain hit has a null mesh.  An instance that is
    disabled, has no model or is the ignored one contributes no hit. *)
Theorem castRay_closest (s : Scene) (origin_arg : DVec3) (dir_arg : Vec3) (ignored : Entity) :
  hits_inside_spheres s origin_arg dir_arg ->
  let h := castRay s origin_arg dir_arg ignored in
  (is_hit h = false -> all_hits s origin_arg dir_arg ignored = []) /\
  (is_hit h = true ->
     h ∈ all_hits s origin_arg dir_arg ignored /\
     (forall c, c ∈ all_hits s origin_arg dir_arg ignored -> (t h <= t c)%Q) /\
     (component_type h = TERRAIN_TYPE -> mesh h = None)) /\
  (forall i r,
     model r = None \/ FlagSet.isSet (flags r) FlagSet.ENABLED = false \/ ignored = i ->
     instance_hit origin_arg dir_arg ignored i r = None).
Proof.
  intros [Hlen Hsound] h.
  assert (closest_of (all_hits s origin_arg dir_arg ignored) h) as Hclosest.
  { unfold h, castRay, all_hits.
    pose proof (instance_loop_inv origin_arg dir_arg ignored (m_model_instances s) Hlen
                  Hsound 0 [] (no_hit origin_arg dir_arg) None eq_refl eq_refl) as Hinst.
    destruct (instance_loop _ _ _ _ _ _) as [hit cur]. cbn [fst app] in Hinst.
    by apply terrain_loop_inv. }
  unfold closest_of in Hclosest. split; [|split].
  - intros Hno. by rewrite Hno in Hclosest.
  - intros Hyes. rewrite Hyes in Hclosest. destruct Hclosest as [Hin Hmin].
    split; [done|]. split; [done|].
    intros Hty. unfold all_hits in Hin. apply elem_of_app in Hin as [Hin | Hin].
    + apply instance_hits_type in Hin. congruence.
    + by eapply terrain_hits_mesh.
  - intros i r [Hm | [Hf | Hi]]; unfold instance_hit.
    + by rewrite Hm.
    + destruct (model r); [|done]. destruct (ignored =? i); [done|]. by rewrite Hf.
    + destruct (model r); [|done]. subst. by rewrite Z.eqb_refl.
Qed.

End WithGeometry.

(** *** A scene on a line

    Points and directions are rationals.  Three instances whose models are
    hit at t = 5, 2 and 1 (the last instance is disabled) and one terrain hit
    at t = 3. *)

Definition line_model (tv : Q) : @Model Q Q unit :=
  mkModel 1 (fun _ d _ => mkHit true tv 0%Q d (Some 1) INVALID_ENTITY INVALID_COMPONENT_TYPE).

Definition line_scene : @Scene Q Q unit :=
  mkScene
    [mkModelInstance 0 (Some (line_model 5)) None FlagSet.ENABLED;
     mkModelInstance 1 (Some (line_model 2)) None FlagSet.ENABLED;
     mkModelInstance 2 (Some (line_model 1)) None FlagSet.clear]
    [mkTerrain 7 (fun o d => mkHit true 3 o d (Some 9) INVALID_ENTITY INVALID_COMPONENT_TYPE)].

Definition line_position (e : Entity) : Q := inject_Z e.
Definition line_scale (_ : Entity) : Q := 1%Q.
Definition line_distance (a b : Q) : Q := Qabs (a - b).
Definition line_relative (a b : Q) : Q := (a - b)%Q.
Definition line_length (d : Q) : Q := Qabs d.
Definition line_sphere_test (_ _ _ : Q) : bool := true.

Lemma line_scene_sound :
  hits_inside_spheres line_position line_scale line_distance line_relative line_length
    line_scene 0%Q 1%Q.
Proof.
  split; [by vm_compute|].
  intros r m Hr Hm e radius new_hit _. subst e radius new_hit.
  unfold line_scene in Hr. cbn [m_model_instances] in Hr.
  rewrite !elem_of_cons, elem_of_nil in Hr.
  destruct Hr as [-> | [-> | [-> | []]]]; injection Hm as <-; by vm_compute.
Qed.

Lemma castRay_closest_witness :
  let h := castRay line_position line_scale line_distance line_relative line_length
             line_sphere_test line_scene 0%Q 1%Q INVALID_ENTITY in
  entity h = 1 /\ component_type h = MODEL_INSTANCE_TYPE /\
  forall c, c ∈ all_hits line_position line_scale line_relative line_sphere_test
                  line_scene 0%Q 1%Q INVALID_ENTITY -> (t h <= t c)%Q.
Proof.
  intros h.
  destruct (castRay_closest line_position line_scale line_distance line_relative
              line_length line_sphere_test line_scene 0%Q 1%Q INVALID_ENTITY
              line_scene_sound) as (_ & Hhit & _).
  destruct (Hhit eq_refl) as (_ & Hmin & _).
  split; [reflexivity|]. split; [reflexivity|]. exact Hmin.
Defined.

(** Two enabled instances on the line, seen from the origin along the
    positive direction.  The model of instance 0 (at position 0) is hit at
    t = 1/2.  Instance 1 sits at position 1 with a bounding radius of 1/4,
    and its model reports a hit at t = 1/4, outside that sphere.  After the
    first hit [cur_dist] is 1/2; for instance 1, [dist - radius] is 3/4, so
    the loop skips it before the sphere test and the precise test.
    [castRay] returns the hit at t = 1/2, although instance 1 is enabled, has
    a model, is not ignored and is hit at t = 1/4. *)
Definition small_model : @Model Q Q unit :=
  mkModel (1 # 4)
    (fun _ d _ => mkHit true (1 # 4) 0%Q d (Some 1) INVALID_ENTITY INVALID_COMPONENT_TYPE).

Definition far_scene : @Scene Q Q unit :=
  mkScene
    [mkModelInstance 0 (Some (line_model (1 # 2))) None FlagSet.ENABLED;
     mkModelInstance 1 (Some small_model) None FlagSet.ENABLED]
    [].

Lemma castRay_skips_closer_hit :
  is_hit (castRay line_position line_scale line_distance line_relative line_length
            line_sphere_test far_scene 0%Q 1%Q INVALID_ENTITY) = true /\
  t (castRay line_position line_scale line_distance line_relative line_length
       line_sphere_test far_scene 0%Q 1%Q INVALID_ENTITY) = (1 # 2)%Q /\
  (exists c,
     c ∈ all_hits line_position line_scale line_relative line_sphere_test
           far_scene 0%Q 1%Q INVALID_ENTITY /\
     entity c = 1 /\ t c = (1 # 4)%Q /\
     (t c < t (castRay line_position line_scale line_distance line_relative line_length
                 line_sphere_test far_scene 0%Q 1%Q INVALID_ENTITY))%Q) /\
  ~ (forall c,
       c ∈ all_hits line_position line_scale line_relative line_sphere_test
             far_scene 0%Q 1%Q INVALID_ENTITY ->
       (t (castRay line_position line_scale line_distance line_relative line_length
             line_sphere_test far_scene 0%Q 1%Q INVALID_ENTITY) <= t c)%Q).
Proof.
  assert (mkHit true (1 # 4) 0%Q 1%Q (Some 1) 1 MODEL_INSTANCE_TYPE
          ∈ all_hits line_position line_scale line_relative line_sphere_test
              far_scene 0%Q 1%Q INVALID_ENTITY) as Hin.
  { vm_compute. apply elem_of_cons. right. apply elem_of_cons. by left. }
  split; [reflexivity|]. split; [reflexivity|]. split.
  - eexists. split; [exact Hin|]. split; [reflexivity|]. split; [reflexivity|].
    by vm_compute.
  - intros Hall. specialize (Hall _ Hin). by vm_compute in Hall.
Qed.

End RayCast.

(** ** Binary blobs

    engine/blob.h ([OutputBlob], [InputBlob]) is not among the sources.  A
    blob is a sequence of bytes; [write] appends the bytes of a value in
    little-endian order, [read] takes them from the front.  A read past the
    end of the input, which the source leaves undefined, is the fault
    [TruncatedStream]. *)

Module Blob.

Definition Blob := list Z.

(** The [n] low bytes of [v], least significant first. *)
Fixpoint le (n : nat) (v : Z) : list Z :=
  match n with
  | O => []
  | S n' => v mod 256 :: le n' (v / 256)
  end.

Fixpoint of_le (bytes : list Z) : Z :=
  match bytes with
  | [] => 0
  | b :: rest => b + 256 * of_le rest
  end.

(** Modelled from the spec: [OutputBlob::write] at the scalar types the
    scene writes; each appends the bytes of its argument. *)
Definition write_u8 (v : Z) (b : Blob) : Blob := b ++ le 1 v.
Definition write_u16 (v : Z) (b : Blob) : Blob := b ++ le 2 v.
Definition write_u32 (v : Z) (b : Blob) : Blob := b ++ le 4 v.
Definition write_i32 (v : Z) (b : Blob) : Blob := b ++ le 4 v.
Definition write_u64 (v : Z) (b : Blob) : Blob := b ++ le 8 v.
Definition write_float (bits : Z) (b : Blob) : Blob := b ++ le 4 bits.
Definition write_bool (v : bool) (b : Blob) : Blob := b ++ [if v then 1 else 0].
Definition write_entity (e : Entity) (b : Blob) : Blob := b ++ le 4 e.

(** Modelled from the spec: [OutputBlob::writeString].  A string is written
    as its length including the terminating zero (an [i32]), its characters
    and the zero. *)
Definition string_bytes (s : list Z) : list Z :=
  le 4 (Z.of_nat (length s) + 1) ++ s ++ [0].

Definition writeString (s : list Z) (b : Blob) : Blob := b ++ string_bytes s.

(** *** Readers: a state and error monad over the unread input *)

Definition reader (A : Type) : Type := Blob -> outcome (A * Blob).

Definition ret {A} (a : A) : reader A := fun b => Ok (a, b).

Definition rbind {A B} (r : reader A) (k : A -> reader B) : reader B :=
  fun b =>
    match r b with
    | Ok (a, b') => k a b'
    | Fault f => Fault f
    end.

Notation "'do' x <- r ; k" := (rbind r (fun x => k))
  (at level 10, x name, r at level 100, k at level 200).

(** Modelled from the spec: [InputBlob::read] of [n] bytes, and the reads at
    the scalar types built on it. *)
Definition read_bytes (n : nat) : reader (list Z) :=
  fun b =>
    if bool_decide (n <= length b)%nat then Ok (take n b, drop n b)
    else Fault TruncatedStream.

Definition read_unsigned (n : nat) : reader Z :=
  do bytes <- read_bytes n; ret (of_le bytes).

Definition read_u8 : reader Z := read_unsigned 1.
Definition read_u16 : reader Z := read_unsigned 2.
Definition read_u32 : reader Z := read_unsigned 4.
Definition read_u64 : reader Z := read_unsigned 8.
Definition read_float : reader Z := read_unsigned 4.

Definition to_signed32 (v : Z) : Z := if v <? 2 ^ 31 then v else v - 2 ^ 32.

Definition read_i32 : reader Z := do v <- read_unsigned 4; ret (to_signed32 v).
Definition read_entity : reader Entity := read_i32.
Definition read_bool : reader bool := do v <- read_unsigned 1; ret (negb (v =? 0)).

(** Modelled from the spec: [InputBlob::readString]; the length, then that
    many bytes, the last of which is the terminating zero. *)
Definition readString : reader (list Z) :=
  do size <- read_i32;
  do bytes <- read_bytes (Z.to_nat size);
  ret (take (length bytes - 1) bytes).

(** A loop [for (int i = 0; i < count; ++i)] that reads one element per
    iteration.  Every element takes at least one byte, so the loop reads at
    most as many elements as there are bytes: [fuel] is the length of the
    input when the loop starts. *)
Fixpoint read_loop {A} (item : reader A) (fuel : nat) (count : Z) : reader (list A) :=
  if count <=? 0 then ret []
  else
    match fuel with
    | O => fun _ => Fault TruncatedStream
    | S fuel' =>
        do x <- item;
        do xs <- read_loop item fuel' (count - 1);
        ret (x :: xs)
    end.

Definition read_count_then {A} (item : reader A) : reader (list A) :=
  do count <- read_i32;
  fun b => read_loop item (length b) count b.

(** A step that reads nothing and may fault. *)
Definition lift {A} (o : outcome A) : reader A :=
  fun b =>
    match o with
    | Ok a => Ok (a, b)
    | Fault f => Fault f
    end.

(** A loop [for (int i = 0; i < count; ++i)] whose body reads one element
    and changes a state before the next element is read, so that a fault of
    the body comes before the reads that would follow it.  The body starts
    with a read; [fuel] is as in [read_loop]. *)
Fixpoint read_each {S} (body : Z -> S -> reader S) (fuel : nat) (i count : Z) (s : S)
  : reader S :=
  if count <=? i then ret s
  else
    match fuel with
    | O => fun _ => Fault TruncatedStream
    | S fuel' =>
        do s' <- body i s;
        read_each body fuel' (i + 1) count s'
    end.

Definition read_count_then_each {S} (body : Z -> S -> reader S) (s : S) : reader S :=
  do count <- read_i32;
  fun b => read_each body (length b) 0 count s b.

Lemma le_length n v : length (le n v) = n.
Proof. revert v. induction n as [|n IH]; intros v; simpl; [done|]. by rewrite IH. Qed.

Lemma of_le_le n v : 0 <= v < 256 ^ Z.of_nat n -> of_le (le n v) = v.
Proof.
  revert v. induction n as [|n IH]; intros v Hv.
  - simpl in *. lia.
  - cbn [le of_le]. rewrite IH.
    + pose proof (Z.div_mod v 256 ltac:(lia)). lia.
    + rewrite Nat2Z.inj_succ, Z.pow_succ_r in Hv by lia.
      split; [apply Z.div_pos; lia|]. apply Z.div_lt_upper_bound; lia.
Qed.

End Blob.

(** ** Whole-scene binary serialization

    [serialize], [deserialize] and the nine pairs of section functions.  The
    scene state is the persisted content of the component tables: a [float]
    is its bit pattern, a resource is the path it was loaded from, a path or
    text is its characters.  A table is the list of its elements in
    iteration order; the key-sorted [AssociativeArray] tables keep (entity,
    element) pairs.  A struct written as a whole ([PointLight],
    [GlobalLight], [Vec3], [LocalRigidTransform]) is written field after
    field.  [Terrain::serialize], [ParticleEmitter::serialize] and their
    readers belong to other files and are parameters. *)

Module Serialization.
Import Blob Containers.

Record Vec3 := mkVec3 { x : Z; y : Z; z : Z }.
Record Vec4 := mkVec4 { vx : Z; vy : Z; vz : Z; vw : Z }.

Record LocalRigidTransform := mkRigid { pos : Vec3; rot : Vec4 }.

(** [aspect], [screen_width] and [screen_height] are [None] in a camera
    whose fields of that name have not been assigned. *)
Record Camera := mkCamera {
  c_entity : Entity;
  fov : Z;
  aspect : option Z;
  near : Z;
  far : Z;
  ortho_size : Z;
  screen_width : option Z;
  screen_height : option Z;
  is_ortho : bool
}.

(** The model of an instance: the hash of its path and whether it is ready. *)
Record ModelRef := mkModelRef {
  path_hash : Z;
  isReady : bool
}.

(** [custom_materials]: the material paths of the instance's own meshes, when
    [meshes] is not the model's mesh array; a mesh without material has the
    empty path. *)
Record ModelInstance := mkModelInstance {
  mi_entity : Entity;
  mi_flags : Z;
  model : option ModelRef;
  custom_materials : option (list (list Z))
}.

Record PointLight := mkPointLight {
  m_diffuse_color : Vec3;
  m_specular_color : Vec3;
  m_diffuse_intensity : Z;
  m_specular_intensity : Z;
  m_entity : Entity;
  m_fov : Z;
  m_attenuation_param : Z;
  m_range : Z;
  m_cast_shadows : bool
}.

Record GlobalLight := mkGlobalLight {
  g_diffuse_color : Vec3;
  g_diffuse_intensity : Z;
  g_indirect_intensity : Z;
  g_fog_color : Vec3;
  g_fog_density : Z;
  g_fog_bottom : Z;
  g_fog_height : Z;
  g_entity : Entity;
  g_cascades : Vec4
}.

Record BoneAttachment := mkBoneAttachment {
  b_entity : Entity;
  parent_entity : Entity;
  bone_index : Z;
  relative_transform : LocalRigidTransform
}.

Record EnvironmentProbe := mkEnvironmentProbe {
  radius : Z;
  guid : Z;
  p_flags : Z;
  radiance_size : Z;
  irradiance_size : Z;
  reflection_size : Z
}.

Record Decal := mkDecal {
  d_entity : Entity;
  scale : Vec3;
  material : option (list Z)
}.

Record TextMesh := mkTextMesh {
  font : option (list Z);
  color : Z;
  font_size : Z;
  text : list Z;
  t_flags : Z
}.

Section WithExternalCodecs.

Context {Terrain ParticleEmitter : Type}.

(** The bytes [Terrain::serialize] and [ParticleEmitter::serialize] append
    to the blob, the readers [Terrain::deserialize] and
    [ParticleEmitter::deserialize], the emitter's [m_entity], and whether the
    resource manager has the model of a given path hash ready when it is
    loaded. *)
Variable terrain_bytes : Terrain -> list Z.
Variable terrain_deserialize : reader Terrain.
Variable emitter_bytes : ParticleEmitter -> list Z.
Variable emitter_deserialize : reader ParticleEmitter.
Variable emitter_entity : ParticleEmitter -> Entity.
Variable model_is_ready : Z -> bool.

(** The material paths of the meshes of the model with a given path hash,
    [getMesh(i).material->getPath()] for [i] below [getMeshCount()]. *)
Variable model_materials : Z -> list (list Z).

(** The forward update of a bone attachment ([updateBoneAttachment], embedded
    in [BoneAttachments]).  It reads poses and writes entity transforms,
    which are not persisted; what matters here is whether it returns. *)
Variable updateBoneAttachment : BoneAttachment -> outcome unit.

Record Scene := mkScene {
  m_cameras : list Camera;
  m_model_instances : list ModelInstance;
  m_point_lights : list PointLight;
  m_point_lights_map : gmap Z nat;
  m_global_lights : list GlobalLight;
  m_active_global_light_entity : Entity;
  m_terrains : list Terrain;
  m_particle_emitters : list (Z * ParticleEmitter);
  m_bone_attachments : list (Z * BoneAttachment);
  m_environment_probes : list (Z * EnvironmentProbe);
  m_decals : list (Z * Decal);
  m_text_meshes : list (Z * TextMesh)
}.

Definition write_Vec3 (v : Vec3) (b : Blob) : Blob :=
  write_float (z v) (write_float (y v) (write_float (x v) b)).

Definition write_Vec4 (v : Vec4) (b : Blob) : Blob :=
  write_float (vw v) (write_float (vz v) (write_float (vy v) (write_float (vx v) b))).

Definition write_rigid (r : LocalRigidTransform) (b : Blob) : Blob :=
  write_Vec4 (rot r) (write_Vec3 (pos r) b).

Definition write_PointLight (l : PointLight) (b : Blob) : Blob :=
  write_bool (m_cast_shadows l)
    (write_float (m_range l)
      (write_float (m_attenuation_param l)
        (write_float (m_fov l)
          (write_entity (m_entity l)
            (write_float (m_specular_intensity l)
              (write_float (m_diffuse_intensity l)
                (write_Vec3 (m_specular_color l)
                  (write_Vec3 (m_diffuse_color l) b)))))))).

Definition write_GlobalLight (l : GlobalLight) (b : Blob) : Blob :=
  write_Vec4 (g_cascades l)
    (write_entity (g_entity l)
      (write_float (g_fog_height l)
        (write_float (g_fog_bottom l)
          (write_float (g_fog_density l)
            (write_Vec3 (g_fog_color l)
              (write_float (g_indirect_intensity l)
                (write_float (g_diffuse_intensity l)
                  (write_Vec3 (g_diffuse_color l) b)))))))).

Definition path_or_empty (p : option (list Z)) : list Z :=
  match p with
  | Some s => s
  | None => []
  end.

(** A [for] loop over a table that writes each element in turn. *)
Definition for_each {A} (write : A -> Blob -> Blob) (l : list A) (b : Blob) : Blob :=
  fold_left (fun acc a => write a acc) l b.

Definition serializeCameras (s : Scene) (serializer : Blob) : Blob :=
  for_each (fun camera b =>
      write_float (near camera)
        (write_float (ortho_size camera)
          (write_bool (is_ortho camera)
            (write_float (fov camera)
              (write_float (far camera)
                (write_entity (c_entity camera) b))))))
    (m_cameras s)
    (write_i32 (Z.of_nat (length (m_cameras s))) serializer).

(** [has_changed_materials]: the model is assigned and ready and the
    instance's mesh array is not the model's. *)
Definition has_changed_materials (r : ModelInstance) : bool :=
  match model r, custom_materials r with
  | Some m, Some _ => isReady m
  | _, _ => false
  end.

Definition serializeModelInstances (s : Scene) (serializer : Blob) : Blob :=
  for_each (fun r b =>
      let b1 := write_u8 (Z.land (mi_flags r) FlagSet.PERSISTENT_FLAGS)
                  (write_entity (mi_entity r) b) in
      if negb (mi_entity r =? INVALID_ENTITY) then
        let b2 := write_u32 (match model r with Some m => path_hash m | None => 0 end) b1 in
        let materials :=
          if has_changed_materials r then default [] (custom_materials r) else [] in
        for_each writeString materials
          (write_i32 (Z.of_nat (length materials)) b2)
      else b1)
    (m_model_instances s)
    (write_i32 (Z.of_nat (length (m_model_instances s))) serializer).

Definition serializeLights (s : Scene) (serializer : Blob) : Blob :=
  let b1 := for_each write_PointLight (m_point_lights s)
              (write_i32 (Z.of_nat (length (m_point_lights s))) serializer) in
  let b2 := for_each write_GlobalLight (m_global_lights s)
              (write_i32 (Z.of_nat (length (m_global_lights s))) b1) in
  write_entity (m_active_global_light_entity s) b2.

Definition serializeTerrains (s : Scene) (serializer : Blob) : Blob :=
  for_each (fun terrain b => b ++ terrain_bytes terrain) (m_terrains s)
    (write_i32 (Z.of_nat (length (m_terrains s))) serializer).

Definition serializeParticleEmitters (s : Scene) (serializer : Blob) : Blob :=
  for_each (fun emitter b => b ++ emitter_bytes emitter.2) (m_particle_emitters s)
    (write_i32 (Z.of_nat (length (m_particle_emitters s))) serializer).

Definition serializeBoneAttachments (s : Scene) (serializer : Blob) : Blob :=
  for_each (fun a b =>
      let attachment := a.2 in
      write_rigid (relative_transform attachment)
        (write_entity (parent_entity attachment)
          (write_entity (b_entity attachment)
            (write_i32 (bone_index attachment) b))))
    (m_bone_attachments s)
    (write_i32 (Z.of_nat (length (m_bone_attachments s))) serializer).

Definition serializeEnvironmentProbes (s : Scene) (serializer : Blob) : Blob :=
  for_each (fun p b =>
      let entity := p.1 in
      let probe := p.2 in
      write_u16 (reflection_size probe)
        (write_u16 (irradiance_size probe)
          (write_u16 (radiance_size probe)
            (write_u32 (p_flags probe)
              (write_u64 (guid probe)
                (write_float (radius probe)
                  (write_entity entity b)))))))
    (m_environment_probes s)
    (write_i32 (Z.of_nat (length (m_environment_probes s))) serializer).

Definition serializeDecals (s : Scene) (serializer : Blob) : Blob :=
  for_each (fun d b =>
      let decal := d.2 in
      writeString (path_or_empty (material decal))
        (write_Vec3 (scale decal)
          (write_entity (d_entity decal) b)))
    (m_decals s)
    (write_i32 (Z.of_nat (length (m_decals s))) serializer).

Definition serializeTextMeshes (s : Scene) (serializer : Blob) : Blob :=
  for_each (fun tm b =>
      let e := tm.1 in
      let text_mesh := tm.2 in
      writeString (text text_mesh)
        (write_i32 (font_size text_mesh)
          (write_u32 (color text_mesh)
            (writeString (path_or_empty (font text_mesh))
              (write_entity e b)))))
    (m_text_meshes s)
    (write_i32 (Z.of_nat (length (m_text_meshes s))) serializer).

Definition serialize (s : Scene) (serializer : Blob) : Blob :=
  serializeTextMeshes s
    (serializeDecals s
      (serializeEnvironmentProbes s
        (serializeBoneAttachments s
          (serializeParticleEmitters s
            (serializeTerrains s
              (serializeLights s
                (serializeModelInstances s
                  (serializeCameras s serializer)))))))).

(** *** Readers *)

Definition read_Vec3 : reader Vec3 :=
  do a <- read_float; do b <- read_float; do c <- read_float; ret (mkVec3 a b c).

Definition read_Vec4 : reader Vec4 :=
  do a <- read_float; do b <- read_float; do c <- read_float; do d <- read_float;
  ret (mkVec4 a b c d).

Definition read_rigid : reader LocalRigidTransform :=
  do p <- read_Vec3; do r <- read_Vec4; ret (mkRigid p r).

Definition read_PointLight : reader PointLight :=
  do dc <- read_Vec3; do sc <- read_Vec3; do di <- read_float; do si <- read_float;
  do e <- read_entity; do f <- read_float; do a <- read_float; do r <- read_float;
  do cs <- read_bool;
  ret (mkPointLight dc sc di si e f a r cs).

Definition read_GlobalLight : reader GlobalLight :=
  do dc <- read_Vec3; do di <- read_float; do ii <- read_float; do fc <- read_Vec3;
  do fd <- read_float; do fb <- read_float; do fh <- read_float; do e <- read_entity;
  do c <- read_Vec4;
  ret (mkGlobalLight dc di ii fc fd fb fh e c).

(** The [Camera camera;] declared in the loop of [deserializeCameras] has no
    initialiser; it is given its entity and the five values read, and
    [aspect], [screen_width] and [screen_height] are never assigned. *)
Definition read_Camera : reader Camera :=
  do e <- read_entity; do fa <- read_float; do fo <- read_float; do o <- read_bool;
  do os <- read_float; do n <- read_float;
  ret (mkCamera e fo None n fa os None None o).

Definition deserializeCameras (s : Scene) : reader Scene :=
  do cameras <- read_count_then read_Camera;
  ret (mkScene (m_cameras s ++ cameras) (m_model_instances s) (m_point_lights s)
         (m_point_lights_map s) (m_global_lights s) (m_active_global_light_entity s)
         (m_terrains s) (m_particle_emitters s) (m_bone_attachments s)
         (m_environment_probes s) (m_decals s) (m_text_meshes s)).

Definition with_model_instances (s : Scene) (l : list ModelInstance) : Scene :=
  mkScene (m_cameras s) l (m_point_lights s)
    (m_point_lights_map s) (m_global_lights s) (m_active_global_light_entity s)
    (m_terrains s) (m_particle_emitters s) (m_bone_attachments s)
    (m_environment_probes s) (m_decals s) (m_text_meshes s).

(** [m_model_instances[entity.index]]. *)
Definition instance_at (s : Scene) (e : Entity) : outcome ModelInstance :=
  match at_index (m_model_instances s) e with
  | Some r => Ok r
  | None => Fault OutOfBoundsRead
  end.

Definition set_instance (s : Scene) (e : Entity) (r : ModelInstance) : Scene :=
  with_model_instances s (<[Z.to_nat e := r]> (m_model_instances s)).

Definition hasCustomMeshes (r : ModelInstance) : bool :=
  FlagSet.isSet (mi_flags r) FlagSet.CUSTOM_MESHES.

(** What [r.meshes] points to, with the material path of every mesh:
    nothing, the mesh array of the model, or an array of the instance's own.
    An instance without meshes of its own has the mesh array of its model
    when the model is ready ([modelLoaded] binds it) and none otherwise.
    [r.mesh_count] is the length of the array; the type of that member is
    declared in render_scene.h, which is not among the sources, and a count
    that the member cannot hold is outside this model. *)
Inductive mesh_array :=
| NullMeshes
| ModelMeshes (materials : list (list Z))
| OwnMeshes (materials : list (list Z)).

Definition meshes (r : ModelInstance) : mesh_array :=
  match custom_materials r with
  | Some paths => OwnMeshes paths
  | None =>
      match model r with
      | Some m => if isReady m then ModelMeshes (model_materials (path_hash m))
                  else NullMeshes
      | None => NullMeshes
      end
  end.

Definition is_null (a : mesh_array) : bool :=
  match a with
  | NullMeshes => true
  | _ => false
  end.

Definition materials_of (a : mesh_array) : list (list Z) :=
  match a with
  | NullMeshes => []
  | ModelMeshes ms | OwnMeshes ms => ms
  end.

Definition mesh_count (r : ModelInstance) : Z := Z.of_nat (length (materials_of (meshes r))).

(** [freeCustomMeshes]. *)
Definition freeCustomMeshes (r : ModelInstance) : ModelInstance :=
  if negb (hasCustomMeshes r) then r
  else mkModelInstance (mi_entity r)
         (FlagSet.unset (mi_flags r) FlagSet.CUSTOM_MESHES) (model r) None.

(** [allocateCustomMeshes]: a new array of [count] meshes; the meshes the
    instance has are copied to its front, all [r.mesh_count] of them, and
    the rest are meshes without material. *)
Definition allocateCustomMeshes (r : ModelInstance) (count : Z) : outcome ModelInstance :=
  if hasCustomMeshes r && (mesh_count r =? count) then Ok r
  else
    match model r with
    | None => Fault AssertionFailed
    | Some _ =>
        if count <? mesh_count r then Fault OutOfBoundsWrite
        else
          let new_meshes :=
            materials_of (meshes r) ++ replicate (Z.to_nat (count - mesh_count r)) [] in
          Ok (mkModelInstance (mi_entity r)
                (FlagSet.set (mi_flags r) FlagSet.CUSTOM_MESHES) (model r) (Some new_meshes))
    end.

(** [modelLoaded(model, entity)] as [setModel] calls it: [r.pose] and
    [r.meshes] have just been cleared, so its two assertions hold and the
    instance takes the model's mesh array, which is what [meshes] gives for
    a ready model.  The culling system and the pose are not persisted.  Its
    last statement runs the forward update of [m_bone_attachments[entity]]
    when the instance is flagged as a bone-attachment parent. *)
Definition modelLoaded (e : Entity) (s : Scene) : outcome Scene :=
  bind (instance_at s e) (fun r =>
  if FlagSet.isSet (mi_flags r) FlagSet.IS_BONE_ATTACHMENT_PARENT then
    match aa_find e (m_bone_attachments s) with
    | Some attachment => bind (updateBoneAttachment attachment) (fun _ => Ok s)
    | None => Fault MissingComponent
    end
  else Ok s).

(** [setModel(entity, model)] with the model the resource manager loads for
    the path hash [path]; two loads of one path give the same resource.  The
    dependency lists of the models, the culling system and the reference
    counts of the resources are not part of the persisted state. *)
Definition setModel (e : Entity) (path : Z) (s : Scene) : outcome Scene :=
  bind (instance_at s e) (fun model_instance =>
  if negb (isValid (mi_entity model_instance)) then Fault AssertionFailed else
  let new_model := mkModelRef path (model_is_ready path) in
  let old_model := model model_instance in
  let no_change :=
    match old_model with
    | Some old => path_hash old =? path
    | None => false
    end in
  if no_change then Ok s
  else
    let r1 :=
      match old_model with
      | Some _ => freeCustomMeshes model_instance
      | None => model_instance
      end in
    let r2 := mkModelInstance (mi_entity r1) (mi_flags r1) (Some new_model) None in
    let s1 := set_instance s e r2 in
    if isReady new_model then modelLoaded e s1 else Ok s1).

(** [int8_t(v)]. *)
Definition to_i8 (v : Z) : Z := (v + 128) mod 256 - 128.

(** [setModelInstanceMaterial].  It returns at once when the mesh at
    [index] has the material of that path already; else the instance gets an
    array of its own that reaches [index], and the mesh there gets the
    material the resource manager loads for [path]. *)
Definition setModelInstanceMaterial (e : Entity) (index : Z) (path : list Z) (s : Scene)
  : outcome Scene :=
  bind (instance_at s e) (fun r =>
  let in_array := negb (is_null (meshes r)) && (index <? mesh_count r) in
  if in_array && (index <? 0) then Fault OutOfBoundsRead
  else
    let unchanged :=
      in_array &&
      match at_index (materials_of (meshes r)) index with
      | Some current => negb (bool_decide (current = [])) && bool_decide (path = current)
      | None => false
      end in
    if unchanged then Ok s
    else
      match model r with
      | None => Fault NullDereference
      | Some _ =>
          let new_count := Z.max (to_i8 (index + 1)) (mesh_count r) in
          bind (allocateCustomMeshes r new_count) (fun r1 =>
          match custom_materials r1 with
          | None => Fault AssertionFailed
          | Some own =>
              if (index <? 0) || (Z.of_nat (length own) <=? index)
              then Fault OutOfBoundsRead
              else
                Ok (set_instance s e
                      (mkModelInstance (mi_entity r1) (mi_flags r1) (model r1)
                         (Some (<[Z.to_nat index := path]> own))))
          end)
      end).

(** The loop over the material paths of one element. *)
Definition read_material (e : Entity) (j : Z) (s : Scene) : reader Scene :=
  do path <- readString;
  lift (setModelInstanceMaterial e j path s).

(** One iteration of the loop of [deserializeModelInstances], at index [i].
    [r] is the element [emplace] appends; [setModel] and
    [setModelInstanceMaterial] index the table with the entity read. *)
Definition read_ModelInstance (i : Z) (s : Scene) : reader Scene :=
  let slot := Z.of_nat (length (m_model_instances s)) in
  do e <- read_entity;
  do f <- read_u8;
  let flags := Z.land f FlagSet.PERSISTENT_FLAGS in
  if negb ((e =? i) || negb (isValid e)) then lift (Fault AssertionFailed)
  else
    let s1 := with_model_instances s
                (m_model_instances s ++ [mkModelInstance e flags None None]) in
    if isValid e then
      do path <- read_u32;
      do s2 <- lift (if negb (path =? 0) then setModel e path s1 else Ok s1);
      do material_count <- read_i32;
      if 0 <? material_count then
        do s3 <- lift (bind (instance_at s2 slot) (fun r =>
                       bind (allocateCustomMeshes r material_count) (fun r' =>
                       Ok (set_instance s2 slot r'))));
        fun b => read_each (read_material e) (length b) 0 material_count s3 b
      else ret s2
    else ret s1.

Definition deserializeModelInstances (s : Scene) : reader Scene :=
  read_count_then_each read_ModelInstance s.

(** [m_point_lights_map.insert(light.m_entity, i)] for every slot [i]. *)
Fixpoint index_lights (i : nat) (lights : list PointLight) (map : gmap Z nat) : gmap Z nat :=
  match lights with
  | [] => map
  | l :: rest => index_lights (S i) rest (<[m_entity l := i]> map)
  end.

Definition deserializeLights (s : Scene) : reader Scene :=
  do lights <- read_count_then read_PointLight;
  do globals <- read_count_then read_GlobalLight;
  do active <- read_entity;
  ret (mkScene (m_cameras s) (m_model_instances s) lights
         (index_lights 0 lights (m_point_lights_map s))
         (m_global_lights s ++ globals) active
         (m_terrains s) (m_particle_emitters s) (m_bone_attachments s)
         (m_environment_probes s) (m_decals s) (m_text_meshes s)).

Definition deserializeTerrains (s : Scene) : reader Scene :=
  do terrains <- read_count_then terrain_deserialize;
  ret (mkScene (m_cameras s) (m_model_instances s) (m_point_lights s)
         (m_point_lights_map s) (m_global_lights s) (m_active_global_light_entity s)
         (m_terrains s ++ terrains) (m_particle_emitters s) (m_bone_attachments s)
         (m_environment_probes s) (m_decals s) (m_text_meshes s)).

(** [insert] of every element read, in the order read. *)
Definition insert_all {V} (key : V -> Z) (l : list V) (table : list (Z * V)) : list (Z * V) :=
  fold_left (fun acc v => aa_insert (key v) v acc) l table.

Definition deserializeParticleEmitters (s : Scene) : reader Scene :=
  do emitters <- read_count_then emitter_deserialize;
  let kept := filter (fun e => isValid (emitter_entity e) = true) emitters in
  ret (mkScene (m_cameras s) (m_model_instances s) (m_point_lights s)
         (m_point_lights_map s) (m_global_lights s) (m_active_global_light_entity s)
         (m_terrains s) (insert_all emitter_entity kept (m_particle_emitters s))
         (m_bone_attachments s)
         (m_environment_probes s) (m_decals s) (m_text_meshes s)).

Definition read_BoneAttachment : reader BoneAttachment :=
  do i <- read_i32; do e <- read_entity; do p <- read_entity; do r <- read_rigid;
  ret (mkBoneAttachment e p i r).

Definition deserializeBoneAttachments (s : Scene) : reader Scene :=
  do attachments <- read_count_then read_BoneAttachment;
  ret (mkScene (m_cameras s) (m_model_instances s) (m_point_lights s)
         (m_point_lights_map s) (m_global_lights s) (m_active_global_light_entity s)
         (m_terrains s) (m_particle_emitters s)
         (insert_all b_entity attachments [])
         (m_environment_probes s) (m_decals s) (m_text_meshes s)).

(** One element of the environment-probe section, as
    [deserializeEnvironmentProbes] reads it: the entity, then [guid],
    [flags] and the three sizes.  [radius] is not read; the inserted probe's
    [radius] is never assigned and is 0 here. *)
Definition read_EnvironmentProbe : reader (Z * EnvironmentProbe) :=
  do entity <- read_entity;
  do g <- read_u64;
  do f <- read_u32;
  do rad <- read_u16;
  do irr <- read_u16;
  do refl <- read_u16;
  ret (entity, mkEnvironmentProbe 0 g f rad irr refl).

Definition deserializeEnvironmentProbes (s : Scene) : reader Scene :=
  do probes <- read_count_then read_EnvironmentProbe;
  ret (mkScene (m_cameras s) (m_model_instances s) (m_point_lights s)
         (m_point_lights_map s) (m_global_lights s) (m_active_global_light_entity s)
         (m_terrains s) (m_particle_emitters s) (m_bone_attachments s)
         (fold_left (fun acc p => aa_insert p.1 p.2 acc) probes (m_environment_probes s))
         (m_decals s) (m_text_meshes s)).

Definition path_of (chars : list Z) : option (list Z) :=
  match chars with
  | [] => None
  | _ => Some chars
  end.

(** [updateDecalInfo]: its statements are commented out, but for a closing
    [ASSERT(false)]. *)
Definition updateDecalInfo (decal : Decal) : outcome Decal := Fault AssertionFailed.

(** One iteration of the loop of [deserializeDecals]. *)
Definition read_Decal (s : Scene) : reader Scene :=
  do e <- read_entity; do sc <- read_Vec3; do tmp <- readString;
  do decal <- lift (updateDecalInfo (mkDecal e sc (path_of tmp)));
  ret (mkScene (m_cameras s) (m_model_instances s) (m_point_lights s)
         (m_point_lights_map s) (m_global_lights s) (m_active_global_light_entity s)
         (m_terrains s) (m_particle_emitters s) (m_bone_attachments s)
         (m_environment_probes s) (aa_insert (d_entity decal) decal (m_decals s))
         (m_text_meshes s)).

Definition deserializeDecals (s : Scene) : reader Scene :=
  read_count_then_each (fun _ => read_Decal) s.

(** A text mesh read back has the flags of a newly constructed [TextMesh]. *)
Definition read_TextMesh : reader (Z * TextMesh) :=
  do e <- read_entity; do tmp <- readString; do c <- read_u32; do fs <- read_i32;
  do txt <- readString;
  ret (e, mkTextMesh (path_of tmp) c fs txt 0).

Definition deserializeTextMeshes (s : Scene) : reader Scene :=
  do texts <- read_count_then read_TextMesh;
  ret (mkScene (m_cameras s) (m_model_instances s) (m_point_lights s)
         (m_point_lights_map s) (m_global_lights s) (m_active_global_light_entity s)
         (m_terrains s) (m_particle_emitters s) (m_bone_attachments s)
         (m_environment_probes s) (m_decals s)
         (fold_left (fun acc p => aa_insert p.1 p.2 acc) texts (m_text_meshes s))).

Definition deserialize (s : Scene) : reader Scene :=
  do s1 <- deserializeCameras s;
  do s2 <- deserializeModelInstances s1;
  do s3 <- deserializeLights s2;
  do s4 <- deserializeTerrains s3;
  do s5 <- deserializeParticleEmitters s4;
  do s6 <- deserializeBoneAttachments s5;
  do s7 <- deserializeEnvironmentProbes s6;
  do s8 <- deserializeDecals s7;
  deserializeTextMeshes s8.

Definition fresh_scene : Scene :=
  mkScene [] [] [] ∅ [] INVALID_ENTITY [] [] [] [] [] [].

(** *** The layout of the stream, as the spec words it *)

(** A section: the element count, then the elements one after the other. *)
Definition section {A} (encode : A -> list Z) (items : list A) : list Z :=
  le 4 (Z.of_nat (length items)) ++ concat (encode <$> items).

Definition Vec3_bytes (v : Vec3) : list Z := le 4 (x v) ++ le 4 (y v) ++ le 4 (z v).

Definition Vec4_bytes (v : Vec4) : list Z :=
  le 4 (vx v) ++ le 4 (vy v) ++ le 4 (vz v) ++ le 4 (vw v).

Definition Camera_bytes (c : Camera) : list Z :=
  le 4 (c_entity c) ++ le 4 (far c) ++ le 4 (fov c) ++ [if is_ortho c then 1 else 0]
  ++ le 4 (ortho_size c) ++ le 4 (near c).

Definition ModelInstance_bytes (r : ModelInstance) : list Z :=
  le 4 (mi_entity r) ++ le 1 (Z.land (mi_flags r) FlagSet.PERSISTENT_FLAGS)
  ++ (if mi_entity r =? INVALID_ENTITY then []
      else le 4 (match model r with Some m => path_hash m | None => 0 end)
           ++ section string_bytes
                (if has_changed_materials r then default [] (custom_materials r) else [])).

Definition PointLight_bytes (l : PointLight) : list Z :=
  Vec3_bytes (m_diffuse_color l) ++ Vec3_bytes (m_specular_color l)
  ++ le 4 (m_diffuse_intensity l) ++ le 4 (m_specular_intensity l) ++ le 4 (m_entity l)
  ++ le 4 (m_fov l) ++ le 4 (m_attenuation_param l) ++ le 4 (m_range l)
  ++ [if m_cast_shadows l then 1 else 0].

Definition GlobalLight_bytes (l : GlobalLight) : list Z :=
  Vec3_bytes (g_diffuse_color l) ++ le 4 (g_diffuse_intensity l)
  ++ le 4 (g_indirect_intensity l) ++ Vec3_bytes (g_fog_color l) ++ le 4 (g_fog_density l)
  ++ le 4 (g_fog_bottom l) ++ le 4 (g_fog_height l) ++ le 4 (g_entity l)
  ++ Vec4_bytes (g_cascades l).

Definition BoneAttachment_bytes (a : Z * BoneAttachment) : list Z :=
  le 4 (bone_index a.2) ++ le 4 (b_entity a.2) ++ le 4 (parent_entity a.2)
  ++ Vec3_bytes (pos (relative_transform a.2)) ++ Vec4_bytes (rot (relative_transform a.2)).

Definition EnvironmentProbe_bytes (p : Z * EnvironmentProbe) : list Z :=
  le 4 p.1 ++ le 4 (radius p.2) ++ le 8 (guid p.2) ++ le 4 (p_flags p.2)
  ++ le 2 (radiance_size p.2) ++ le 2 (irradiance_size p.2) ++ le 2 (reflection_size p.2).

Definition Decal_bytes (d : Z * Decal) : list Z :=
  le 4 (d_entity d.2) ++ Vec3_bytes (scale d.2) ++ string_bytes (path_or_empty (material d.2)).

Definition TextMesh_bytes (tm : Z * TextMesh) : list Z :=
  le 4 tm.1 ++ string_bytes (path_or_empty (font tm.2)) ++ le 4 (color tm.2)
  ++ le 4 (font_size tm.2) ++ string_bytes (text tm.2).

Definition cameras_section (s : Scene) : list Z := section Camera_bytes (m_cameras s).

Definition model_instances_section (s : Scene) : list Z :=
  section ModelInstance_bytes (m_model_instances s).

(** The lights section holds the point lights and the global lights, each
    with its count, and then the active global light. *)
Definition lights_section (s : Scene) : list Z :=
  section PointLight_bytes (m_point_lights s)
  ++ section GlobalLight_bytes (m_global_lights s)
  ++ le 4 (m_active_global_light_entity s).

Definition terrains_section (s : Scene) : list Z := section terrain_bytes (m_terrains s).

Definition particle_emitters_section (s : Scene) : list Z :=
  section (fun e => emitter_bytes e.2) (m_particle_emitters s).

Definition bone_attachments_section (s : Scene) : list Z :=
  section BoneAttachment_bytes (m_bone_attachments s).

Definition environment_probes_section (s : Scene) : list Z :=
  section EnvironmentProbe_bytes (m_environment_probes s).

Definition decals_section (s : Scene) : list Z := section Decal_bytes (m_decals s).

Definition text_meshes_section (s : Scene) : list Z := section TextMesh_bytes (m_text_meshes s).

(** Array position equals entity index; a hole holds the invalid entity. *)
Definition positions_ok (table : list ModelInstance) : Prop :=
  forall (i : nat) r, table !! i = Some r ->
    mi_entity r = Z.of_nat i \/ mi_entity r = INVALID_ENTITY.

Lemma for_each_append {A} (write : A -> Blob -> Blob) (encode : A -> list Z) l b :
  (forall a b', write a b' = b' ++ encode a) ->
  for_each write l b = b ++ concat (encode <$> l).
Proof.
  intros Hw. unfold for_each. revert b. induction l as [|a l IH]; intros b.
  - simpl. by rewrite app_nil_r.
  - cbn [fold_left fmap list_fmap concat]. rewrite IH, Hw. by rewrite <- app_assoc.
Qed.

Ltac unfold_writes :=
  unfold write_rigid, write_PointLight, write_GlobalLight, write_Vec3, write_Vec4,
    writeString, write_u8, write_u16, write_u32, write_i32, write_u64, write_float,
    write_bool, write_entity.

Lemma serializeCameras_layout s b : serializeCameras s b = b ++ cameras_section s.
Proof.
  unfold serializeCameras, cameras_section, section.
  rewrite (for_each_append _ Camera_bytes).
  - unfold_writes. by rewrite <- !app_assoc.
  - intros c b'. unfold_writes. unfold Camera_bytes. by rewrite <- !app_assoc.
Qed.

Lemma serializeModelInstances_layout s b :
  serializeModelInstances s b = b ++ model_instances_section s.
Proof.
  unfold serializeModelInstances, model_instances_section, section.
  rewrite (for_each_append _ ModelInstance_bytes).
  - unfold_writes. by rewrite <- !app_assoc.
  - intros r b'. unfold ModelInstance_bytes, section.
    destruct (mi_entity r =? INVALID_ENTITY); cbn [negb].
    + unfold_writes. by rewrite <- !app_assoc, app_nil_r.
    + rewrite (for_each_append _ string_bytes) by done.
      unfold_writes. by rewrite <- !app_assoc.
Qed.

Lemma serializeLights_layout s b : serializeLights s b = b ++ lights_section s.
Proof.
  unfold serializeLights, lights_section, section.
  rewrite (for_each_append _ PointLight_bytes).
  - rewrite (for_each_append _ GlobalLight_bytes).
    + unfold_writes. by rewrite <- !app_assoc.
    + intros l b'. unfold_writes. unfold GlobalLight_bytes, Vec3_bytes, Vec4_bytes.
      by rewrite <- !app_assoc.
  - intros l b'. unfold_writes. unfold PointLight_bytes, Vec3_bytes.
    by rewrite <- !app_assoc.
Qed.

Lemma serializeTerrains_layout s b : serializeTerrains s b = b ++ terrains_section s.
Proof.
  unfold serializeTerrains, terrains_section, section.
  rewrite (for_each_append _ terrain_bytes) by done.
  unfold_writes. by rewrite <- !app_assoc.
Qed.

Lemma serializeParticleEmitters_layout s b :
  serializeParticleEmitters s b = b ++ particle_emitters_section s.
Proof.
  unfold serializeParticleEmitters, particle_emitters_section, section.
  rewrite (for_each_append _ (fun e => emitter_bytes e.2)) by done.
  unfold_writes. by rewrite <- !app_assoc.
Qed.

Lemma serializeBoneAttachments_layout s b :
  serializeBoneAttachments s b = b ++ bone_attachments_section s.
Proof.
  unfold serializeBoneAttachments, bone_attachments_section, section.
  rewrite (for_each_append _ BoneAttachment_bytes).
  - unfold_writes. by rewrite <- !app_assoc.
  - intros a b'. unfold_writes. unfold BoneAttachment_bytes, Vec3_bytes, Vec4_bytes.
    by rewrite <- !app_assoc.
Qed.

Lemma serializeEnvironmentProbes_layout s b :
  serializeEnvironmentProbes s b = b ++ environment_probes_section s.
Proof.
  unfold serializeEnvironmentProbes, environment_probes_section, section.
  rewrite (for_each_append _ EnvironmentProbe_bytes).
  - unfold_writes. by rewrite <- !app_assoc.
  - intros a b'. unfold_writes. unfold EnvironmentProbe_bytes. by rewrite <- !app_assoc.
Qed.

Lemma serializeDecals_layout s b : serializeDecals s b = b ++ decals_section s.
Proof.
  unfold serializeDecals, decals_section, section.
  rewrite (for_each_append _ Decal_bytes).
  - unfold_writes. by rewrite <- !app_assoc.
  - intros a b'. unfold_writes. unfold Decal_bytes, Vec3_bytes. by rewrite <- !app_assoc.
Qed.

Lemma serializeTextMeshes_layout s b : serializeTextMeshes s b = b ++ text_meshes_section s.
Proof.
  unfold serializeTextMeshes, text_meshes_section, section.
  rewrite (for_each_append _ TextMesh_bytes).
  - unfold_writes. by rewrite <- !app_assoc.
  - intros a b'. unfold_writes. unfold TextMesh_bytes. by rewrite <- !app_assoc.
Qed.


End WithExternalCodecs.

(** *** The model-instance table of a scene built by the component store

    What the stream keeps of a table of [ModelInstances]: [path_hash_of]
    gives the hash of a model's path, [materials_of] the material paths of an
    instance with meshes of its own. *)

Definition persisted_view (path_hash_of : Z -> Z) (materials_of : Entity -> list (list Z))
  (ms : ModelInstances.Scene) : list ModelInstance :=
  (fun r =>
     mkModelInstance (ModelInstances.entity r) (ModelInstances.flags r)
       (match ModelInstances.model r with
        | Some m => Some (mkModelRef (path_hash_of m) (ModelInstances.isReady ms m))
        | None => None
        end)
       (match ModelInstances.meshes r with
        | ModelInstances.OwnMeshes => Some (materials_of (ModelInstances.entity r))
        | _ => None
        end))
  <$> ModelInstances.m_model_instances ms.

Lemma persisted_view_positions path_hash_of materials_of ms :
  ModelInstances.positions_ok ms ->
  positions_ok (persisted_view path_hash_of materials_of ms).
Proof.
  intros Hok i r Hr. unfold persisted_view in Hr.
  rewrite list_lookup_fmap in Hr.
  destruct (ModelInstances.m_model_instances ms !! i) as [r0|] eqn:Hr0; [|done].
  simpl in Hr. injection Hr as <-. cbn [mi_entity].
  apply (Hok i). unfold ModelInstances.entities. by rewrite list_lookup_fmap, Hr0.
Qed.

(** Entities 0 and 2 get a model instance; position 1 is a hole. *)
Definition sparse_instances : ModelInstances.Scene :=
  ModelInstances.createModelInstance 2
    (ModelInstances.createModelInstance 0
       (ModelInstances.empty_scene (fun _ => 0) (fun _ => 0))).

Lemma sparse_instances_positions : ModelInstances.positions_ok sparse_instances.
Proof.
  unfold sparse_instances.
  do 2 (apply ModelInstances.createModelInstance_positions; [lia|]).
  intros i e Hi. by destruct i.
Qed.

Definition sparse_scene : @Scene unit unit :=
  mkScene [] (persisted_view (fun m => m) (fun _ => []) sparse_instances)
          [] ∅ [] INVALID_ENTITY [] [] [] [] [] [].


(** *** Environment probes do not survive the round trip *)

(** [createEnvironmentProbe]: radius 1.0f, the enabled flag, the sizes of a
    default-constructed probe and a fresh GUID. *)
Definition ENABLED_PROBE : Z := 4.
Definition one_f : Z := 1065353216.

Definition createEnvironmentProbe {Terrain ParticleEmitter : Type}
  (entity : Entity) (new_guid : Z) (s : @Scene Terrain ParticleEmitter)
  : @Scene Terrain ParticleEmitter :=
  mkScene (m_cameras s) (m_model_instances s) (m_point_lights s)
    (m_point_lights_map s) (m_global_lights s) (m_active_global_light_entity s)
    (m_terrains s) (m_particle_emitters s) (m_bone_attachments s)
    (aa_insert entity (mkEnvironmentProbe one_f new_guid ENABLED_PROBE 128 32 1024)
       (m_environment_probes s))
    (m_decals s) (m_text_meshes s).

Definition some_guid : Z := 81985529216486895.

Definition probe_scene : @Scene unit unit :=
  createEnvironmentProbe 5 some_guid fresh_scene.

Definition no_terrain : reader unit := fun _ => Fault TruncatedStream.

Definition empty : @Scene unit unit := fresh_scene.

(** C1. A scene that holds one newly created environment probe (entity 5,
    GUID 0x0123456789ABCDEF).  [serializeEnvironmentProbes] writes the
    radius between the entity and the GUID; [deserializeEnvironmentProbes]
    reads the GUID right after the entity.  Read back into a fresh scene, the
    probe's GUID is made of the radius' bytes and the low half of the GUID,
    its flags are the high half of the GUID, its sizes are shifted by one
    field, its radius is never assigned, and four bytes of the section are
    left for the next section: the decal count is read from them, and
    [deserialize] of the whole stream runs past its end. *)
Theorem probe_round_trip_fails :
  deserializeEnvironmentProbes empty
    (environment_probes_section probe_scene) =
  Ok (mkScene [] [] [] ∅ [] INVALID_ENTITY [] [] []
        [(5, mkEnvironmentProbe 0 (one_f + 2 ^ 32 * (some_guid mod 2 ^ 32))
               (some_guid / 2 ^ 32) ENABLED_PROBE 0 128)]
        [] [] : @Scene unit unit,
      le 2 32 ++ le 2 1024) /\
  deserialize no_terrain no_terrain (fun _ => INVALID_ENTITY) (fun _ => false)
    (fun _ => []) (fun _ => Ok tt) empty
    (serialize (fun _ => []) (fun _ => []) probe_scene []) = Fault TruncatedStream.
Proof. split; vm_compute; reflexivity. Qed.

(** A scene without environment probes and decals: a camera as
    [deserializeCameras] leaves it, a point light, a global light, a bone
    attachment and a text mesh. *)
Definition plain_scene : @Scene unit unit :=
  mkScene
    [mkCamera 1 1065353216 None 1036831949 1176256512 1092616192 None None false]
    []
    [mkPointLight (mkVec3 1 2 3) (mkVec3 4 5 6) 7 8 2 9 10 11 true]
    {[ 2 := 0%nat ]}
    [mkGlobalLight (mkVec3 1 1 1) 0 1 (mkVec3 1 1 1) 0 0 10 3 (mkVec4 3 8 100 300)]
    3 [] []
    [(4, mkBoneAttachment 4 (-1) (-1) (mkRigid (mkVec3 0 0 0) (mkVec4 0 0 0 1)))]
    []
    []
    [(7, mkTextMesh (Some [102; 46; 116; 116; 102]) 4278190080 13 [104; 105] 0)].

(** Without probes and decals the stream is read back to the same persisted
    state and nothing is left unread. *)
Lemma plain_scene_round_trip :
  deserialize no_terrain no_terrain (fun _ => INVALID_ENTITY) (fun _ => false)
    (fun _ => []) (fun _ => Ok tt) empty
    (serialize (fun _ => []) (fun _ => []) plain_scene []) = Ok (plain_scene, []).
Proof. vm_compute. reflexivity. Qed.

End Serialization.

(** ** More binary32 operations *)

Module Float32Arith.
Import Float32.

Definition zero : float := S754_zero false.
Definition fadd : float -> float -> float := SFadd prec emax.
Definition fsub : float -> float -> float := SFsub prec emax.

(** [a < b]; false when either side is a NaN. *)
Definition flt : float -> float -> bool := SFltb.

(** The conversion of a float to an integer type drops the fraction; a NaN
    or an infinity has no integer value. *)
Definition truncate (f : float) : option Z :=
  match f with
  | S754_zero _ => Some 0
  | S754_finite s m e =>
      let magnitude := if 0 <=? e then Z.pos m * 2 ^ e else Z.pos m / 2 ^ (- e) in
      Some (if s then - magnitude else magnitude)
  | _ => None
  end.

End Float32Arith.

(** ** Debug-draw buffers

    [ARGBToABGR], [addDebugLine], [addDebugTriangle], [addDebugPoint],
    [addDebugCube] (the overload that takes two corners) and [update].

    [DebugTriangle], [DebugLine] and [DebugPoint] are declared in
    renderer/render_scene.h, which is not among the sources; their fields are
    the ones the functions here assign.  A [DVec3] is its three coordinates.
    [ParticleEmitter::update] belongs to another file and is a parameter. *)

Module DebugDraw.
Import Float32 Float32Arith Containers.

Definition ARGBToABGR (color : Z) : Z :=
  Z.lor
    (Z.lor
       (Z.lor (Z.shiftl (Z.land color 0xff) 16) (Z.land color 0xff00))
       (Z.shiftr (Z.land color 0xff0000) 16))
    (Z.land color 0xff000000).

(** Byte [k] of a 32-bit colour, counted from the least significant one. *)
Definition channel (k : Z) (color : Z) : Z := Z.land (Z.shiftr color (8 * k)) 0xff.

Section WithCoordinates.

Context {D ParticleEmitter : Type}.

Variable emitter_update : ParticleEmitter -> float -> ParticleEmitter.

Record DVec3 := mkDVec3 { x : D; y : D; z : D }.

Record DebugTriangle := mkDebugTriangle {
  p0 : DVec3;
  p1 : DVec3;
  p2 : DVec3;
  t_color : Z;
  t_life : float
}.

Record DebugLine := mkDebugLine {
  from : DVec3;
  to : DVec3;
  color : Z;
  life : float
}.

Record DebugPoint := mkDebugPoint {
  pos : DVec3;
  p_color : Z;
  p_life : float
}.

Record Scene := mkScene {
  m_debug_triangles : list DebugTriangle;
  m_debug_lines : list DebugLine;
  m_debug_points : list DebugPoint;
  m_particle_emitters : list (Z * ParticleEmitter);
  m_time : float;
  m_is_game_running : bool
}.

Definition with_lines (s : Scene) (lines : list DebugLine) : Scene :=
  mkScene (m_debug_triangles s) lines (m_debug_points s) (m_particle_emitters s)
          (m_time s) (m_is_game_running s).

Definition addDebugLine (from_arg to_arg : DVec3) (color_arg : Z) (life_arg : float)
  (s : Scene) : Scene :=
  with_lines s
    (m_debug_lines s ++ [mkDebugLine from_arg to_arg (ARGBToABGR color_arg) life_arg]).

Definition addDebugTriangle (a b c : DVec3) (color_arg : Z) (life_arg : float)
  (s : Scene) : Scene :=
  mkScene (m_debug_triangles s ++ [mkDebugTriangle a b c (ARGBToABGR color_arg) life_arg])
          (m_debug_lines s) (m_debug_points s) (m_particle_emitters s)
          (m_time s) (m_is_game_running s).

Definition addDebugPoint (p : DVec3) (color_arg : Z) (life_arg : float) (s : Scene) : Scene :=
  mkScene (m_debug_triangles s) (m_debug_lines s)
          (m_debug_points s ++ [mkDebugPoint p (ARGBToABGR color_arg) life_arg])
          (m_particle_emitters s) (m_time s) (m_is_game_running s).

Definition set_x (v : DVec3) (d : D) : DVec3 := mkDVec3 d (y v) (z v).
Definition set_y (v : DVec3) (d : D) : DVec3 := mkDVec3 (x v) d (z v).
Definition set_z (v : DVec3) (d : D) : DVec3 := mkDVec3 (x v) (y v) d.

(** [addDebugCube(const DVec3& min, const DVec3& max, u32 color, float life)]:
    the statements of the source in their order, [a] and [b] being the two
    local points. *)
Definition addDebugCube (min max : DVec3) (color_arg : Z) (life_arg : float)
  (s : Scene) : Scene :=
  let line a b s := addDebugLine a b color_arg life_arg s in
  let a := min in
  let b := min in
  let b := set_x b (x max) in
  let s := line a b s in
  let a := mkDVec3 (x b) (y b) (z max) in
  let s := line a b s in
  let b := mkDVec3 (x min) (y a) (z a) in
  let s := line a b s in
  let a := mkDVec3 (x b) (y b) (z min) in
  let s := line a b s in

  let a := min in
  let a := set_y a (y max) in
  let b := a in
  let b := set_x b (x max) in
  let s := line a b s in
  let a := mkDVec3 (x b) (y b) (z max) in
  let s := line a b s in
  let b := mkDVec3 (x min) (y a) (z a) in
  let s := line a b s in
  let a := mkDVec3 (x b) (y b) (z min) in
  let s := line a b s in

  let a := min in
  let b := a in
  let b := set_y b (y max) in
  let s := line a b s in
  let a := set_x a (x max) in
  let b := set_x b (x max) in
  let s := line a b s in
  let a := set_z a (z max) in
  let b := set_z b (z max) in
  let s := line a b s in
  let a := set_x a (x min) in
  let b := set_x b (x min) in
  line a b s.

(** *** Expiry *)

Section Expiry.

Context {A : Type}.
Variable get_life : A -> float.
Variable set_life : A -> float -> A.

(** The loop [for (int i = size - 1; i >= 0; --i)] of [update] over one
    buffer, with [n] = [i + 1] iterations left. *)
Fixpoint expire_loop (dt : float) (n : nat) (items : list A) : outcome (list A) :=
  match n with
  | O => Ok items
  | S i =>
      match items !! i with
      | None => Fault OutOfBoundsRead
      | Some item =>
          let l := get_life item in
          if flt l zero then expire_loop dt i (eraseFast items i)
          else expire_loop dt i (<[i := set_life item (fsub l dt)]> items)
      end
  end.

Definition expire (dt : float) (items : list A) : outcome (list A) :=
  expire_loop dt (length items) items.

(** An item that stays, one tick later. *)
Definition aged (dt : float) (item : A) : A := set_life item (fsub (get_life item) dt).

Definition stays (item : A) : Prop := flt (get_life item) zero = false.

#[global] Instance stays_dec (item : A) : Decision (stays item).
Proof. unfold stays. apply _. Defined.

End Expiry.

Definition set_t_life (t : DebugTriangle) (l : float) : DebugTriangle :=
  mkDebugTriangle (p0 t) (p1 t) (p2 t) (t_color t) l.

Definition set_life (line : DebugLine) (l : float) : DebugLine :=
  mkDebugLine (from line) (to line) (color line) l.

Definition set_p_life (p : DebugPoint) (l : float) : DebugPoint :=
  mkDebugPoint (pos p) (p_color p) l.

Definition update (dt : float) (paused : bool) (s : Scene) : outcome Scene :=
  let time := fadd (m_time s) dt in
  bind (expire t_life set_t_life dt (m_debug_triangles s)) (fun triangles =>
  bind (expire life set_life dt (m_debug_lines s)) (fun lines =>
  bind (expire p_life set_p_life dt (m_debug_points s)) (fun points =>
  let emitters :=
    if m_is_game_running s && negb paused
    then (fun e => (e.1, emitter_update e.2 dt)) <$> m_particle_emitters s
    else m_particle_emitters s in
  Ok (mkScene triangles lines points emitters time (m_is_game_running s))))).

(** *** The twelve edges of a box

    A corner of the box spanned by [min] and [max] takes each coordinate
    from one of the two points: [true] selects [max]. *)
Definition corner (min max : DVec3) (c : bool * bool * bool) : DVec3 :=
  let '(cx, cy, cz) := c in
  mkDVec3 (if cx then x max else x min)
          (if cy then y max else y min)
          (if cz then z max else z min).

End WithCoordinates.

(** Two corners span an edge when they differ in exactly one coordinate. *)
Definition is_edge (e : (bool * bool * bool) * (bool * bool * bool)) : bool :=
  let '((ax, ay, az), (bx, by_, bz)) := e in
  Nat.eqb (Nat.b2n (xorb ax bx) + Nat.b2n (xorb ay by_) + Nat.b2n (xorb az bz)) 1.

(** The same segment, whichever end comes first. *)
Definition same_segment (e1 e2 : (bool * bool * bool) * (bool * bool * bool)) : bool :=
  bool_decide (e1 = e2) || bool_decide (e1 = (e2.2, e2.1)).

(** The corners [addDebugCube] joins, in the order of its twelve calls. *)
Definition cube_edges : list ((bool * bool * bool) * (bool * bool * bool)) :=
  [ ((false, false, false), (true, false, false));
    ((true, false, true), (true, false, false));
    ((true, false, true), (false, false, true));
    ((false, false, false), (false, false, true));
    ((false, true, false), (true, true, false));
    ((true, true, true), (true, true, false));
    ((true, true, true), (false, true, true));
    ((false, true, false), (false, true, true));
    ((false, false, false), (false, true, false));
    ((true, false, false), (true, true, false));
    ((true, false, true), (true, true, true));
    ((false, false, true), (false, true, true)) ].

(** ** Properties *)

Lemma testbit_0xff n : 0 <= n -> Z.testbit 0xff n = (n <? 8).
Proof. intros Hn. change 0xff with (Z.ones 8). by apply Z.testbit_ones_nonneg. Qed.

Lemma testbit_0xff00 n : 0 <= n -> Z.testbit 0xff00 n = (8 <=? n) && (n <? 16).
Proof.
  intros Hn. change 0xff00 with (Z.shiftl (Z.ones 8) 8).
  rewrite Z.shiftl_spec by done.
  destruct (Z.leb_spec 8 n).
  - rewrite Z.testbit_ones_nonneg by lia. simpl.
    destruct (Z.ltb_spec (n - 8) 8), (Z.ltb_spec n 16); done || lia.
  - by rewrite Z.testbit_neg_r by lia.
Qed.

Lemma testbit_0xff0000 n : 0 <= n -> Z.testbit 0xff0000 n = (16 <=? n) && (n <? 24).
Proof.
  intros Hn. change 0xff0000 with (Z.shiftl (Z.ones 8) 16).
  rewrite Z.shiftl_spec by done.
  destruct (Z.leb_spec 16 n).
  - rewrite Z.testbit_ones_nonneg by lia. simpl.
    destruct (Z.ltb_spec (n - 16) 8), (Z.ltb_spec n 24); done || lia.
  - by rewrite Z.testbit_neg_r by lia.
Qed.

Lemma testbit_0xff000000 n : 0 <= n -> Z.testbit 0xff000000 n = (24 <=? n) && (n <? 32).
Proof.
  intros Hn. change 0xff000000 with (Z.shiftl (Z.ones 8) 24).
  rewrite Z.shiftl_spec by done.
  destruct (Z.leb_spec 24 n).
  - rewrite Z.testbit_ones_nonneg by lia. simpl.
    destruct (Z.ltb_spec (n - 24) 8), (Z.ltb_spec n 32); done || lia.
  - by rewrite Z.testbit_neg_r by lia.
Qed.

(** Bit [n] of the converted colour. *)
Lemma ARGBToABGR_testbit c n :
  0 <= n ->
  Z.testbit (ARGBToABGR c) n =
  if n <? 8 then Z.testbit c (n + 16)
  else if n <? 16 then Z.testbit c n
  else if n <? 24 then Z.testbit c (n - 16)
  else if n <? 32 then Z.testbit c n
  else false.
Proof.
  intros Hn. unfold ARGBToABGR.
  rewrite !Z.lor_spec, !Z.land_spec, Z.shiftr_spec, Z.shiftl_spec, !Z.land_spec by done.
  rewrite testbit_0xff000000, testbit_0xff00 by done.
  rewrite testbit_0xff0000 by lia.
  assert (Z.testbit c (n - 16) && Z.testbit 0xff (n - 16)
          = Z.testbit c (n - 16) && ((16 <=? n) && (n <? 24))) as ->.
  { destruct (Z.leb_spec 16 n).
    - rewrite testbit_0xff by lia. simpl.
      destruct (Z.ltb_spec (n - 16) 8), (Z.ltb_spec n 24); done || lia.
    - by rewrite !Z.testbit_neg_r by lia. }
  destruct (Z.ltb_spec n 8); [|destruct (Z.ltb_spec n 16); [|destruct (Z.ltb_spec n 24);
    [|destruct (Z.ltb_spec n 32)]]];
    repeat match goal with
    | |- context [?a <=? ?b] =>
        first [ replace (a <=? b) with true by (symmetry; apply Z.leb_le; lia)
              | replace (a <=? b) with false by (symmetry; apply Z.leb_gt; lia) ]
    | |- context [?a <? ?b] =>
        first [ replace (a <? b) with true by (symmetry; apply Z.ltb_lt; lia)
              | replace (a <? b) with false by (symmetry; apply Z.ltb_ge; lia) ]
    end;
    cbn [andb orb]; rewrite ?andb_false_r, ?andb_true_r, ?orb_false_r; reflexivity.
Qed.

Lemma testbit_above_32 c n : 0 <= c < 2 ^ 32 -> 32 <= n -> Z.testbit c n = false.
Proof.
  intros Hc Hn. rewrite <- (Z.mod_small c (2 ^ 32)) by done.
  apply Z.mod_pow2_bits_high. lia.
Qed.

Lemma ARGBToABGR_range c : 0 <= ARGBToABGR c < 2 ^ 32.
Proof.
  assert (ARGBToABGR c = ARGBToABGR c mod 2 ^ 32) as ->; [|apply Z.mod_pos_bound; lia].
  apply Z.bits_inj'. intros n Hn.
  destruct (Z.ltb_spec n 32).
  - by rewrite Z.mod_pow2_bits_low by lia.
  - rewrite Z.mod_pow2_bits_high by lia. rewrite ARGBToABGR_testbit by done.
    repeat match goal with
    | |- context [?a <? ?b] =>
        replace (a <? b) with false by (symmetry; apply Z.ltb_ge; lia)
    end. done.
Qed.

Lemma channel_testbit k c n :
  0 <= k -> 0 <= n ->
  Z.testbit (channel k c) n = if n <? 8 then Z.testbit c (n + 8 * k) else false.
Proof.
  intros Hk Hn. unfold channel.
  rewrite Z.land_spec, Z.shiftr_spec, testbit_0xff by done.
  destruct (n <? 8); [by rewrite andb_true_r|by rewrite andb_false_r].
Qed.

Ltac decide_comparisons :=
  repeat match goal with
  | |- context [?a <? ?b] =>
      first [ replace (a <? b) with true by (symmetry; apply Z.ltb_lt; lia)
            | replace (a <? b) with false by (symmetry; apply Z.ltb_ge; lia) ]
  end.

(** X1. [ARGBToABGR] exchanges the red and the blue byte of a 32-bit colour
    and keeps the green and the alpha byte; the result is again a 32-bit
    value, and converting twice gives the colour back. *)
Theorem ARGBToABGR_swaps_red_and_blue (c : Z) :
  0 <= c < 2 ^ 32 ->
  0 <= ARGBToABGR c < 2 ^ 32 /\
  channel 0 (ARGBToABGR c) = channel 2 c /\
  channel 1 (ARGBToABGR c) = channel 1 c /\
  channel 2 (ARGBToABGR c) = channel 0 c /\
  channel 3 (ARGBToABGR c) = channel 3 c /\
  ARGBToABGR (ARGBToABGR c) = c.
Proof.
  intros Hc. split; [apply ARGBToABGR_range|].
  repeat split; apply Z.bits_inj'; intros n Hn;
    rewrite ?channel_testbit by lia.
  1-4: destruct (Z.ltb_spec n 8); [|done];
       rewrite ARGBToABGR_testbit by lia; decide_comparisons; f_equal; lia.
  rewrite ARGBToABGR_testbit by done.
  destruct (Z.ltb_spec n 8); [|destruct (Z.ltb_spec n 16); [|destruct (Z.ltb_spec n 24);
    [|destruct (Z.ltb_spec n 32)]]];
    rewrite ?ARGBToABGR_testbit by lia; decide_comparisons;
    rewrite ?(testbit_above_32 c n) by (done || lia); try done; f_equal; lia.
Qed.

Lemma ARGBToABGR_swaps_red_and_blue_witness :
  ARGBToABGR 0xff102030 = 0xff302010 /\ ARGBToABGR (ARGBToABGR 0xff102030) = 0xff102030.
Proof.
  split; [reflexivity|].
  apply (ARGBToABGR_swaps_red_and_blue 0xff102030). lia.
Defined.

Section CubeAndExpiry.

Context {D ParticleEmitter : Type}.
Variable emitter_update : ParticleEmitter -> float -> ParticleEmitter.

(** X2. [addDebugCube] appends twelve lines to the line buffer and changes
    nothing else; the lines join corners of the box spanned by [min] and
    [max], every one of them is an edge of the box (its ends differ in one
    coordinate), no edge is drawn twice, and every edge of the box is among
    them. *)
Theorem addDebugCube_draws_every_edge_once
  (min max : @DVec3 D) (color_arg : Z) (life_arg : float)
  (s : @Scene D ParticleEmitter) :
  let s' := addDebugCube min max color_arg life_arg s in
  m_debug_lines s' =
    m_debug_lines s ++
    ((fun e => mkDebugLine (corner min max e.1) (corner min max e.2)
                 (ARGBToABGR color_arg) life_arg) <$> cube_edges) /\
  m_debug_triangles s' = m_debug_triangles s /\
  m_debug_points s' = m_debug_points s /\
  length cube_edges = 12%nat /\
  (forall e, e ∈ cube_edges -> is_edge e = true) /\
  (forall i j e1 e2, cube_edges !! i = Some e1 -> cube_edges !! j = Some e2 ->
     same_segment e1 e2 = true -> i = j) /\
  (forall e, is_edge e = true -> existsb (same_segment e) cube_edges = true).
Proof.
  intros s'. split; [|split; [reflexivity|split; [reflexivity|split; [reflexivity|split; [|split]]]]].
  - unfold s'. clear s'. destruct min, max.
    cbv beta iota zeta delta
      [addDebugCube addDebugLine with_lines m_debug_lines x y z set_x set_y set_z].
    rewrite <- !app_assoc. reflexivity.
  - intros e He. unfold cube_edges in He.
    repeat (apply elem_of_cons in He as [-> | He]; [reflexivity|]).
    by apply elem_of_nil in He.
  - intros i j e1 e2 Hi Hj Hsame.
    destruct i as [|[|[|[|[|[|[|[|[|[|[|[|i]]]]]]]]]]]]; try discriminate Hi;
      injection Hi as <-;
      (destruct j as [|[|[|[|[|[|[|[|[|[|[|[|j]]]]]]]]]]]]; try discriminate Hj;
       injection Hj as <-; first [reflexivity | discriminate Hsame]).
  - intros [[[ax ay] az] [[bx by_] bz]] He.
    destruct ax, ay, az, bx, by_, bz; first [by vm_compute in He | by vm_compute].
Qed.

(** *** The expiry loop *)

Section ExpiryFacts.

Context {A : Type}.
Variable get_life : A -> float.
Variable set_life : A -> float -> A.

Lemma eraseFast_only (l1 : list A) (item : A) :
  eraseFast (l1 ++ [item]) (length l1) = l1.
Proof.
  unfold eraseFast. rewrite last_snoc, length_app. cbn [length].
  rewrite bool_decide_eq_true_2 by lia.
  replace (length l1 + 1 - 1)%nat with (length l1) by lia.
  rewrite insert_app_r_alt by lia. rewrite Nat.sub_diag. cbn [insert list_insert].
  by rewrite take_app_length.
Qed.

Lemma eraseFast_inner (l1 l2 : list A) (item moved : A) :
  eraseFast (l1 ++ item :: l2 ++ [moved]) (length l1) = l1 ++ moved :: l2.
Proof.
  unfold eraseFast.
  assert (last (l1 ++ item :: l2 ++ [moved]) = Some moved) as ->.
  { by rewrite app_comm_cons, app_assoc, last_snoc. }
  rewrite !length_app. cbn [length]. rewrite length_app. cbn [length].
  rewrite bool_decide_eq_true_2 by lia.
  rewrite insert_app_r_alt by lia. rewrite Nat.sub_diag. cbn [insert list_insert].
  replace (l1 ++ moved :: l2 ++ [moved]) with ((l1 ++ moved :: l2) ++ [moved])
    by (by rewrite <- app_assoc).
  apply take_app_length'. rewrite length_app. cbn [length]. lia.
Qed.

(** Erasing position [i] keeps what is in front of it and permutes what is
    behind it. *)
Lemma eraseFast_split (l : list A) (i : nat) (item : A) :
  l !! i = Some item ->
  exists behind,
    eraseFast l i = take i l ++ behind /\ behind ≡ₚ drop (S i) l.
Proof.
  intros Hi. pose proof (take_drop_middle l i item Hi) as Hl.
  assert (length (take i l) = i) as Hlen
    by (rewrite length_take; apply lookup_lt_Some in Hi; lia).
  destruct (drop (S i) l) as [|y rest] eqn:Hdrop using rev_ind.
  - exists []. split; [|done]. rewrite <- Hl at 1. rewrite <- Hlen at 2.
    rewrite eraseFast_only. by rewrite app_nil_r.
  - clear IHrest. exists (y :: rest). split.
    + rewrite <- Hl at 1. rewrite <- Hlen at 2. apply eraseFast_inner.
    + by rewrite Permutation_app_comm.
Qed.

Lemma expire_loop_spec (dt : float) (n : nat) :
  forall items, (n <= length items)%nat ->
  exists items',
    expire_loop get_life set_life dt n items = Ok items' /\
    items' ≡ₚ (aged get_life set_life dt <$> filter (stays get_life) (take n items))
              ++ drop n items.
Proof.
  induction n as [|i IH]; intros items Hn.
  - exists items. split; [done|]. by rewrite take_0, drop_0.
  - destruct (lookup_lt_is_Some_2 items i ltac:(lia)) as [item Hitem].
    cbn [expire_loop]. rewrite Hitem.
    rewrite (take_S_r _ _ _ Hitem), filter_app, fmap_app.
    destruct (flt (get_life item) zero) eqn:Hlife.
    + destruct (eraseFast_split items i item Hitem) as (behind & Herase & Hbehind).
      assert (length (take i items) = i) as Hlen by (rewrite length_take; lia).
      destruct (IH (eraseFast items i)) as (items' & Hloop & Hperm).
      { rewrite Herase, length_app. lia. }
      exists items'. split; [done|]. rewrite Hperm, Herase.
      rewrite take_app_length', drop_app_length' by done.
      rewrite (filter_cons_False (stays get_life)); [|unfold stays; congruence].
      rewrite filter_nil, fmap_nil, app_nil_r. by rewrite Hbehind.
    + destruct (IH (<[i := set_life item (fsub (get_life item) dt)]> items))
        as (items' & Hloop & Hperm).
      { rewrite length_insert. lia. }
      exists items'. split; [done|]. rewrite Hperm.
      rewrite take_insert_ge by lia.
      rewrite drop_insert_ge by lia. rewrite Nat.sub_diag.
      rewrite (drop_S _ _ _ Hitem). cbn [insert list_insert].
      rewrite (filter_cons_True (stays get_life)) by done.
      rewrite filter_nil. cbn [fmap list_fmap]. unfold aged at 2.
      by rewrite <- app_assoc.
Qed.

Lemma expire_spec (dt : float) (items : list A) :
  exists items',
    expire get_life set_life dt items = Ok items' /\
    items' ≡ₚ aged get_life set_life dt <$> filter (stays get_life) items.
Proof.
  destruct (expire_loop_spec dt (length items) items ltac:(lia)) as (items' & Hloop & Hperm).
  exists items'. split; [done|].
  by rewrite Hperm, firstn_all, drop_all, app_nil_r.
Qed.

End ExpiryFacts.

(** X3. One tick of [update]: the clock advances by [dt]; from each of the
    three debug buffers the entries whose remaining life is negative are
    removed and every other entry stays with its life reduced by [dt] once
    (the order of the entries may change); no read leaves a buffer; and the
    particle emitters are updated only while the game runs and is not
    paused. *)
Theorem update_expires_debug_items (dt : float) (paused : bool)
  (s : @Scene D ParticleEmitter) :
  exists s',
    update emitter_update dt paused s = Ok s' /\
    m_time s' = fadd (m_time s) dt /\
    m_debug_triangles s' ≡ₚ
      aged t_life set_t_life dt <$> filter (stays t_life) (m_debug_triangles s) /\
    m_debug_lines s' ≡ₚ
      aged life set_life dt <$> filter (stays life) (m_debug_lines s) /\
    m_debug_points s' ≡ₚ
      aged p_life set_p_life dt <$> filter (stays p_life) (m_debug_points s) /\
    m_particle_emitters s' =
      (if m_is_game_running s && negb paused
       then (fun e => (e.1, emitter_update e.2 dt)) <$> m_particle_emitters s
       else m_particle_emitters s) /\
    m_is_game_running s' = m_is_game_running s.
Proof.
  destruct (expire_spec t_life set_t_life dt (m_debug_triangles s)) as (ts & Ht & Hpt).
  destruct (expire_spec life set_life dt (m_debug_lines s)) as (ls & Hl & Hpl).
  destruct (expire_spec p_life set_p_life dt (m_debug_points s)) as (ps & Hp & Hpp).
  eexists. unfold update. rewrite Ht, Hl, Hp. cbn [bind].
  split; [reflexivity|]. cbn [m_time m_debug_triangles m_debug_lines m_debug_points
                              m_particle_emitters m_is_game_running].
  done.
Qed.

End CubeAndExpiry.

End DebugDraw.

(** ** Text meshes: the colour accessors

    [ABGRu32ToRGBAVec4], [RGBAVec4ToABGRu32], [getTextMeshColorRGBA] and
    [setTextMeshColorRGBA].  Of a [TextMesh] the text, the colour, the flags
    and the font size are kept; its font resource is the path it was loaded
    from. *)

Module TextMeshes.
Import Float32 Float32Arith Containers.

Record Vec4 := mkVec4 { x : float; y : float; z : float; w : float }.

Record TextMesh := mkTextMesh {
  text : list Z;
  color : Z;
  m_flags : Z;
  m_font_size : Z;
  m_font_resource : option (list Z)
}.

Record Scene := mkScene {
  m_text_meshes : list (Z * TextMesh)
}.

(** The literal 0.5f. *)
Definition half : float := S754_finite false 8388608 (-24).

Definition ABGRu32ToRGBAVec4 (value : Z) : Vec4 :=
  let inv := fdiv (of_int 1) (of_int 255) in
  {| x := fmul (of_int (Z.land (Z.shiftr value 0) 0xFF)) inv;
     y := fmul (of_int (Z.land (Z.shiftr value 8) 0xFF)) inv;
     z := fmul (of_int (Z.land (Z.shiftr value 16) 0xFF)) inv;
     w := fmul (of_int (Z.land (Z.shiftr value 24) 0xFF)) inv |}.

(** The conversion [u8(f)]: the fraction is dropped; a value that does not
    fit the type has no defined result. *)
Definition to_u8 (f : float) : option Z :=
  v ← truncate f;
  if (0 <=? v) && (v <=? 255) then Some v else None.

(** The sum is formed in 32 bits. *)
Definition RGBAVec4ToABGRu32 (value : Vec4) : option Z :=
  r ← to_u8 (fadd (fmul (x value) (of_int 255)) half);
  g ← to_u8 (fadd (fmul (y value) (of_int 255)) half);
  b ← to_u8 (fadd (fmul (z value) (of_int 255)) half);
  a ← to_u8 (fadd (fmul (w value) (of_int 255)) half);
  Some ((Z.shiftl a 24 + Z.shiftl b 16 + Z.shiftl g 8 + r) mod 2 ^ 32).

(** [m_text_meshes.get(entity)]. *)
Definition get (s : Scene) (e : Entity) : outcome TextMesh :=
  match aa_find e (m_text_meshes s) with
  | Some t => Ok t
  | None => Fault MissingComponent
  end.

Definition getTextMeshColorRGBA (e : Entity) (s : Scene) : outcome Vec4 :=
  bind (get s e) (fun t => Ok (ABGRu32ToRGBAVec4 (color t))).

(** A colour component outside the range of [u8] is the fault
    [OutOfBoundsWrite]. *)
Definition setTextMeshColorRGBA (e : Entity) (c : Vec4) (s : Scene) : outcome Scene :=
  bind (get s e) (fun t =>
  match RGBAVec4ToABGRu32 c with
  | Some v =>
      Ok (mkScene (aa_set e (mkTextMesh (text t) v (m_flags t) (m_font_size t)
                               (m_font_resource t)) (m_text_meshes s)))
  | None => Fault OutOfBoundsWrite
  end).

(** One colour byte as a float and back. *)
Definition byte_to_float (b : Z) : float :=
  fmul (of_int b) (fdiv (of_int 1) (of_int 255)).

Definition float_to_byte (f : float) : option Z :=
  to_u8 (fadd (fmul f (of_int 255)) half).

Lemma byte_round_trip b : 0 <= b < 256 -> float_to_byte (byte_to_float b) = Some b.
Proof.
  intros Hb.
  assert (Forall (fun b => float_to_byte (byte_to_float b) = Some b) (seqZ 0 256)) as Hall.
  { apply (bool_decide_unpack _). vm_compute. reflexivity. }
  rewrite Forall_forall in Hall. apply Hall. apply elem_of_seqZ. lia.
Qed.

Lemma byte_of_range v k : 0 <= Z.land (Z.shiftr v k) 0xFF < 256.
Proof.
  change 0xFF with (Z.ones 8). rewrite Z.land_ones by lia.
  apply Z.mod_pos_bound. lia.
Qed.

Lemma bytes_assemble v :
  0 <= v < 2 ^ 32 ->
  (Z.shiftl (Z.land (Z.shiftr v 24) 0xFF) 24 + Z.shiftl (Z.land (Z.shiftr v 16) 0xFF) 16
   + Z.shiftl (Z.land (Z.shiftr v 8) 0xFF) 8 + Z.land (Z.shiftr v 0) 0xFF) mod 2 ^ 32 = v.
Proof.
  intros Hv. change 0xFF with (Z.ones 8).
  rewrite !Z.land_ones, !Z.shiftl_mul_pow2, !Z.shiftr_div_pow2 by lia.
  change (2 ^ 0) with 1. change (2 ^ 8) with 256. change (2 ^ 16) with 65536.
  change (2 ^ 24) with 16777216. change (2 ^ 32) with 4294967296 in *.
  Z.div_mod_to_equations. lia.
Qed.

Lemma aa_set_same {V} (e : Z) (v : V) (l : list (Z * V)) :
  aa_find e l = Some v -> aa_set e v l = l.
Proof.
  induction l as [|[k v'] rest IH]; [done|]. cbn [aa_find aa_set].
  destruct (e =? k).
  - by intros [= ->].
  - intros H. by rewrite IH.
Qed.

(** X4. Every 32-bit colour survives the way through its four float
    components and back: [RGBAVec4ToABGRu32 (ABGRu32ToRGBAVec4 v)] is [v],
    in binary32 arithmetic.  So [setTextMeshColorRGBA] with the value that
    [getTextMeshColorRGBA] returned leaves a scene as it is, whenever the
    colour of every text mesh is a 32-bit value. *)
Theorem color_survives_float_components (v : Z) :
  0 <= v < 2 ^ 32 ->
  RGBAVec4ToABGRu32 (ABGRu32ToRGBAVec4 v) = Some v /\
  forall (s : Scene) (e : Entity) (t : TextMesh),
    aa_find e (m_text_meshes s) = Some t -> color t = v ->
    exists c, getTextMeshColorRGBA e s = Ok c /\ setTextMeshColorRGBA e c s = Ok s.
Proof.
  intros Hv.
  assert (RGBAVec4ToABGRu32 (ABGRu32ToRGBAVec4 v) = Some v) as Hround.
  { unfold RGBAVec4ToABGRu32, ABGRu32ToRGBAVec4. cbn [x y z w].
    pose proof (byte_round_trip _ (byte_of_range v 0)) as H0.
    pose proof (byte_round_trip _ (byte_of_range v 8)) as H1.
    pose proof (byte_round_trip _ (byte_of_range v 16)) as H2.
    pose proof (byte_round_trip _ (byte_of_range v 24)) as H3.
    unfold float_to_byte, byte_to_float in H0, H1, H2, H3.
    rewrite H0, H1, H2, H3. cbn [mbind option_bind]. f_equal.
    by apply bytes_assemble. }
  split; [done|]. intros s e t Hfind Hcolor.
  eexists. unfold getTextMeshColorRGBA, setTextMeshColorRGBA, get. rewrite Hfind. cbn [bind].
  split; [reflexivity|]. rewrite Hcolor, Hround.
  rewrite aa_set_same; [by destruct s|]. rewrite Hfind. f_equal. destruct t. cbn in *. by subst.
Qed.

Lemma color_survives_float_components_witness :
  RGBAVec4ToABGRu32 (ABGRu32ToRGBAVec4 0xff000000) = Some 0xff000000.
Proof. apply (color_survives_float_components 0xff000000). lia. Defined.

End TextMeshes.

(** ** Model instances: iteration, the enabled flag and unloading

    [getFirstModelInstance], [getNextModelInstance] and
    [isModelInstanceEnabled], over the scene state of [ModelInstances]. *)

Module ModelInstanceTable.
Import ModelInstances.

(** The loop [for (int i = entity.index + 1; i < size; ++i)] of
    [getNextModelInstance], from index [i] on.  It ends after at most [size]
    steps; [fuel] is that bound. *)
Fixpoint next_from (fuel : nat) (i : Z) (s : Scene) : outcome Entity :=
  if i <? Z.of_nat (length (m_model_instances s)) then
    match fuel with
    | O => Fault Diverges
    | S fuel' =>
        bind (instance_at s i) (fun r =>
        if negb (entity r =? INVALID_ENTITY) then Ok i
        else next_from fuel' (i + 1) s)
    end
  else Ok INVALID_ENTITY.

Definition getNextModelInstance (e : Entity) (s : Scene) : outcome Entity :=
  next_from (length (m_model_instances s)) (e + 1) s.

Definition getFirstModelInstance (s : Scene) : outcome Entity :=
  getNextModelInstance INVALID_ENTITY s.

Definition isModelInstanceEnabled (e : Entity) (s : Scene) : outcome bool :=
  bind (instance_at s e) (fun model_instance =>
  Ok (FlagSet.isSet (flags model_instance) FlagSet.ENABLED)).

(** Position [i] of the table holds a model instance (not a hole). *)
Definition live (s : Scene) (i : Z) : Prop :=
  exists r, instance_at s i = Ok r /\ entity r <> INVALID_ENTITY.

(** An instance the one-argument [modelUnloaded] acts on: a live one of
    that model. *)
Definition uses (m : Z) (r : ModelInstance) : Prop :=
  entity r <> INVALID_ENTITY /\ model r = Some m.

Lemma next_from_spec s fuel i :
  0 <= i -> (Z.of_nat (length (m_model_instances s)) - i <= Z.of_nat fuel) ->
  exists r,
    next_from fuel i s = Ok r /\
    (forall j, i <= j -> j < r \/ r = INVALID_ENTITY -> ~ live s j) /\
    (r = INVALID_ENTITY \/ i <= r /\ live s r).
Proof.
  revert i. induction fuel as [|fuel IH]; intros i Hi Hfuel.
  - simpl. assert ((i <? Z.of_nat (length (m_model_instances s))) = false) as ->
      by (apply Z.ltb_ge; lia).
    exists INVALID_ENTITY. split; [done|]. split; [|by left].
    intros j Hj _ (r & Hr & _). apply instance_at_Ok in Hr as [_ Hr].
    apply lookup_lt_Some in Hr. lia.
  - cbn [next_from]. destruct (Z.ltb_spec i (Z.of_nat (length (m_model_instances s)))) as [Hlt|Hge].
    + destruct (lookup_lt_is_Some_2 (m_model_instances s) (Z.to_nat i) ltac:(lia)) as [r Hr].
      assert (instance_at s i = Ok r) as Hat.
      { unfold instance_at. assert ((i <? 0) = false) as -> by (apply Z.ltb_ge; lia).
        by rewrite Hr. }
      rewrite Hat. cbn [bind].
      destruct (entity r =? INVALID_ENTITY) eqn:Hhole; cbn [negb].
      * apply Z.eqb_eq in Hhole.
        destruct (IH (i + 1) ltac:(lia) ltac:(lia)) as (r' & Hnext & Hbefore & Hfound).
        exists r'. split; [done|]. split.
        -- intros j Hj Hjr. destruct (decide (j = i)) as [->|Hne].
           ++ intros (r0 & Hr0 & Hlive). congruence.
           ++ apply Hbefore; [lia|done].
        -- destruct Hfound as [-> | [Hle Hlive]]; [by left|right; split; [lia|done]].
      * apply Z.eqb_neq in Hhole. exists i. split; [done|]. split.
        -- intros j Hj [Hlt' | Hinv]; [lia|]. unfold INVALID_ENTITY in Hinv. lia.
        -- right. split; [lia|]. by exists r.
    + exists INVALID_ENTITY. split; [done|]. split; [|by left].
      intros j Hj _ (r & Hr & _). apply instance_at_Ok in Hr as [_ Hr].
      apply lookup_lt_Some in Hr. lia.
Qed.

Lemma enableModelInstance_entities e enable s s' :
  enableModelInstance e enable s = Ok s' -> entities s' = entities s.
Proof.
  unfold enableModelInstance. destruct (instance_at s e) as [mi|] eqn:Hmi; [|done].
  cbn [bind].
  set (r := mkModelInstance _ _ _ _ _ _ _ _).
  assert (entities (set_instance s e r) = entities s) as Hset
    by (by apply (set_instance_entities s e r mi)).
  destruct enable.
  - destruct (model r); [|by intros [= <-]].
    destruct (negb (isReady _ _)); [by intros [= <-]|].
    destruct (negb (isAdded _ _)); by intros [= <-].
  - by intros [= <-].
Qed.

Lemma modelUnloaded_entity_entities e s s' :
  modelUnloaded_entity e s = Ok s' -> entities s' = entities s.
Proof.
  unfold modelUnloaded_entity. destruct (instance_at s e) as [r|] eqn:Hr; [|done].
  cbn [bind]. intros [= <-].
  change (entities (culling_remove ?x e)) with (entities x).
  apply (set_instance_entities s e _ r); [done|].
  by destruct (negb (hasCustomMeshes r)).
Qed.

Lemma modelUnloaded_scan_entities m indices :
  forall s s', modelUnloaded_scan m indices s = Ok s' -> entities s' = entities s.
Proof.
  induction indices as [|i rest IH]; intros s s'; [by intros [= <-]|].
  cbn [modelUnloaded_scan]. destruct (m_model_instances s !! i) as [r|]; [|done].
  destruct (_ && _).
  - destruct (modelUnloaded_entity (Z.of_nat i) s) as [s1|] eqn:H1; [|done]. cbn [bind].
    intros Hrest. apply IH in Hrest. apply modelUnloaded_entity_entities in H1. congruence.
  - apply IH.
Qed.

Lemma modelLoaded_walk_entities m fuel :
  forall e s s', modelLoaded_walk fuel m e s = Ok s' -> entities s' = entities s.
Proof.
  induction fuel as [|fuel IH]; intros e s s'; cbn [modelLoaded_walk];
    destruct (isValid e); try done; try (by intros [= <-]).
  destruct (modelLoaded_entity m e s) as [s1|] eqn:H1; [|done]. cbn [bind].
  destruct (instance_at s1 e) as [r|]; [|done]. cbn [bind].
  intros Hrest. apply IH in Hrest. apply modelLoaded_entity_entities in H1. congruence.
Qed.

Lemma modelStateChanged_entities fuel old_state new_state m s s' :
  modelStateChanged fuel old_state new_state m s = Ok s' -> entities s' = entities s.
Proof.
  unfold modelStateChanged, modelLoaded, modelUnloaded.
  destruct new_state, old_state; try (by intros [= <-]);
    try apply modelUnloaded_scan_entities;
    (destruct (m_model_entity_map s !! m); [apply modelLoaded_walk_entities|done]).
Qed.

(** What [modelUnloaded] leaves of an instance. *)
Definition unloaded (r : ModelInstance) : ModelInstance :=
  if negb (hasCustomMeshes r)
  then mkModelInstance (entity r) (model r) None NoMeshes 0 (flags r)
         (next_model r) (prev_model r)
  else mkModelInstance (entity r) (model r) None (meshes r) (mesh_count r) (flags r)
         (next_model r) (prev_model r).

Lemma modelUnloaded_entity_unfold i s r :
  m_model_instances s !! i = Some r ->
  modelUnloaded_entity (Z.of_nat i) s =
  Ok (culling_remove (set_instance s (Z.of_nat i) (unloaded r)) (Z.of_nat i)).
Proof.
  intros Hr. unfold modelUnloaded_entity, instance_at.
  assert ((Z.of_nat i <? 0) = false) as -> by (apply Z.ltb_ge; lia).
  rewrite Nat2Z.id, Hr. cbn [bind]. unfold unloaded.
  by destruct (negb (hasCustomMeshes r)).
Qed.

Lemma uses_dec m r :
  negb (entity r =? INVALID_ENTITY) && bool_decide (model r = Some m) = true <-> uses m r.
Proof.
  unfold uses. rewrite andb_true_iff, negb_true_iff, Z.eqb_neq, bool_decide_eq_true. done.
Qed.

(** The scan over [indices]: positions outside [indices], and positions whose
    instance does not use the model, keep their instance and their culling
    membership; a position of [indices] whose instance uses the model gets
    the unloaded instance and leaves the culling system. *)
Lemma modelUnloaded_scan_spec m indices :
  forall s,
    (forall i, i ∈ indices -> (i < length (m_model_instances s))%nat) ->
    exists s',
      modelUnloaded_scan m indices s = Ok s' /\
      length (m_model_instances s') = length (m_model_instances s) /\
      ready_models s' = ready_models s /\
      m_model_entity_map s' = m_model_entity_map s /\
      (forall i r, m_model_instances s !! i = Some r ->
         m_model_instances s' !! i =
           Some (if bool_decide (i ∈ indices /\ uses m r) then unloaded r else r)) /\
      (forall e, e ∈ m_culling_system s' <->
         e ∈ m_culling_system s /\
         ~ exists i r, i ∈ indices /\ e = Z.of_nat i /\
                       m_model_instances s !! i = Some r /\ uses m r).
Proof.
  induction indices as [|i rest IH]; intros s Hin.
  - exists s. split; [done|]. split; [done|]. split; [done|]. split; [done|]. split.
    + intros i r Hr. rewrite bool_decide_eq_false_2; [done|].
      intros [Hi _]. by apply elem_of_nil in Hi.
    + intros e. split; [|tauto]. intros He. split; [done|].
      intros (i & r & Hi & _). by apply elem_of_nil in Hi.
  - destruct (lookup_lt_is_Some_2 (m_model_instances s) i) as [r Hr];
      [apply Hin; by left|].
    cbn [modelUnloaded_scan]. rewrite Hr.
    destruct (negb (entity r =? INVALID_ENTITY) && bool_decide (model r = Some m)) eqn:Huse.
    + apply uses_dec in Huse. rewrite (modelUnloaded_entity_unfold i s r Hr). cbn [bind].
      set (s1 := culling_remove (set_instance s (Z.of_nat i) (unloaded r)) (Z.of_nat i)).
      assert (m_model_instances s1 = <[i := unloaded r]> (m_model_instances s)) as Hs1
        by (unfold s1; cbn; by rewrite Nat2Z.id).
      assert (uses m (unloaded r)) as Huse1
        by (unfold unloaded; destruct (negb (hasCustomMeshes r)); exact Huse).
      assert (unloaded (unloaded r) = unloaded r) as Hidem.
      { unfold unloaded. unfold hasCustomMeshes.
        destruct (negb (FlagSet.isSet (flags r) FlagSet.CUSTOM_MESHES)) eqn:Hc; cbn; by rewrite Hc. }
      destruct (IH s1) as (s' & Hscan & Hlen & Hready & Hmap & Hinst & Hcull).
      { intros j Hj. rewrite Hs1, length_insert. apply Hin. by right. }
      exists s'. split; [done|]. split; [by rewrite Hlen, Hs1, length_insert|].
      split; [done|]. split; [done|]. split.
      * intros j rj Hj. destruct (decide (j = i)) as [->|Hne].
        -- assert (rj = r) as -> by congruence.
           rewrite (Hinst i (unloaded r))
             by (rewrite Hs1; apply list_lookup_insert_eq; by eapply lookup_lt_Some).
           rewrite Hidem. rewrite (bool_decide_eq_true_2 (i ∈ i :: rest /\ _));
             [by destruct (bool_decide _)|]. split; [by left|done].
        -- rewrite (Hinst j rj) by (rewrite Hs1; by rewrite list_lookup_insert_ne).
           rewrite (bool_decide_ext (j ∈ rest /\ uses m rj) (j ∈ i :: rest /\ uses m rj));
             [done|]. rewrite elem_of_cons. split; [tauto|].
           intros [[-> | Hj'] Hu]; [done|tauto].
      * intros e. rewrite Hcull.
        assert (m_culling_system s1 = m_culling_system s ∖ {[Z.of_nat i]}) as -> by done.
        rewrite elem_of_difference, elem_of_singleton. split.
        -- intros [[He Hne] Hno]. split; [done|].
           intros (j & rj & Hj & -> & Hrj & Huj).
           apply elem_of_cons in Hj as [-> | Hj]; [done|].
           apply Hno. exists j. destruct (decide (j = i)) as [->|Hji]; [done|].
           exists rj. split; [done|]. split; [done|]. split; [|done].
           rewrite Hs1. by rewrite list_lookup_insert_ne.
        -- intros [He Hno]. split; [split; [done|]|].
           ++ intros ->. apply Hno. exists i, r. split; [by left|done].
           ++ intros (j & rj & Hj & -> & Hrj & Huj). apply Hno.
              destruct (decide (j = i)) as [->|Hji].
              ** exists i, r. split; [by left|done].
              ** exists j, rj. split; [by right|]. split; [done|]. split; [|done].
                 rewrite Hs1 in Hrj. by rewrite list_lookup_insert_ne in Hrj.
    + assert (~ uses m r) as Hnot by (rewrite <- uses_dec; congruence).
      destruct (IH s) as (s' & Hscan & Hlen & Hready & Hmap & Hinst & Hcull).
      { intros j Hj. apply Hin. by right. }
      exists s'. split; [done|]. split; [done|]. split; [done|]. split; [done|]. split.
      * intros j rj Hj. rewrite (Hinst j rj Hj).
        rewrite (bool_decide_ext (j ∈ rest /\ uses m rj) (j ∈ i :: rest /\ uses m rj));
          [done|].
        rewrite elem_of_cons. split; [tauto|].
        intros [[-> | Hj'] Hu]; [|done]. assert (rj = r) by congruence. by subst.
      * intros e. rewrite Hcull. split; intros [He Hno]; (split; [done|]);
          intros (j & rj & Hj & -> & Hrj & Huj); apply Hno.
        -- apply elem_of_cons in Hj as [-> | Hj]; [|by exists j, rj].
           assert (rj = r) by congruence. by subst.
        -- exists j, rj. split; [by right|done].
Qed.

(** X5. [getNextModelInstance] after an entity (or after the invalid entity,
    as [getFirstModelInstance] calls it) returns the smallest table position
    above it that holds a model instance, and the invalid entity when there
    is none; the loop always finishes. *)
Theorem getNextModelInstance_least_live (e : Entity) (s : Scene) :
  INVALID_ENTITY <= e ->
  exists r,
    getNextModelInstance e s = Ok r /\
    (r = INVALID_ENTITY \/ e < r /\ live s r) /\
    (forall j, e < j -> j < r \/ r = INVALID_ENTITY -> ~ live s j).
Proof.
  intros He. unfold INVALID_ENTITY in He.
  destruct (next_from_spec s (length (m_model_instances s)) (e + 1) ltac:(lia) ltac:(lia))
    as (r & Hnext & Hbefore & Hfound).
  exists r. split; [done|]. split.
  - destruct Hfound as [-> | [Hle Hlive]]; [by left|right; split; [lia|done]].
  - intros j Hj. apply Hbefore. lia.
Qed.

(** Entities 1 and 3 have a model instance; positions 0 and 2 are holes. *)
Definition two_instances : Scene :=
  createModelInstance 3 (createModelInstance 1 (empty_scene (fun _ => 0) (fun _ => 0))).

Lemma getNextModelInstance_least_live_witness :
  getFirstModelInstance two_instances = Ok 1 /\
  getNextModelInstance 1 two_instances = Ok 3 /\
  getNextModelInstance 3 two_instances = Ok INVALID_ENTITY /\
  exists r, getNextModelInstance 1 two_instances = Ok r /\
            (r = INVALID_ENTITY \/ 1 < r /\ live two_instances r).
Proof.
  split; [reflexivity|]. split; [reflexivity|]. split; [reflexivity|].
  destruct (getNextModelInstance_least_live 1 two_instances ltac:(unfold INVALID_ENTITY; lia))
    as (r & Hr & Hfound & _).
  by exists r.
Defined.

(** X6. The model-instance table keeps every instance at the position of
    its entity index, with holes holding the invalid entity:
    [createModelInstance] pads the table with holes, [destroyModelInstance]
    leaves a hole, and [setModel], [enableModelInstance] and
    [modelStateChanged] never change which entity a position holds. *)
Theorem model_instance_positions_kept (s : Scene) :
  positions_ok s ->
  (forall e, 0 <= e -> positions_ok (createModelInstance e s)) /\
  (forall e s', destroyModelInstance e s = Ok s' -> positions_ok s') /\
  (forall e new_model s', setModel e new_model s = Ok s' -> entities s' = entities s) /\
  (forall e enable s', enableModelInstance e enable s = Ok s' -> entities s' = entities s) /\
  (forall fuel old_state new_state m s',
     modelStateChanged fuel old_state new_state m s = Ok s' -> entities s' = entities s).
Proof.
  intros Hok. split; [|split; [|split; [|split]]].
  - intros e He. by apply createModelInstance_positions.
  - intros e s'. by apply destroyModelInstance_positions.
  - intros e new_model s'. apply setModel_entities.
  - intros e enable s'. apply enableModelInstance_entities.
  - intros fuel old_state new_state m s'. apply modelStateChanged_entities.
Qed.

Lemma model_instance_positions_kept_witness :
  positions_ok two_instances /\
  exists s', destroyModelInstance 1 two_instances = Ok s' /\ positions_ok s' /\
             entities s' = [INVALID_ENTITY; INVALID_ENTITY; INVALID_ENTITY; 3].
Proof.
  assert (positions_ok (empty_scene (fun _ => 0) (fun _ => 0))) as Hempty
    by (intros i e Hi; by destruct i).
  assert (positions_ok (createModelInstance 1 (empty_scene (fun _ => 0) (fun _ => 0)))) as H1
    by (apply (model_instance_positions_kept _ Hempty); lia).
  assert (positions_ok two_instances) as H2
    by (apply (model_instance_positions_kept _ H1); lia).
  split; [exact H2|].
  eexists. split; [reflexivity|]. split; [|reflexivity].
  by apply (proj1 (proj2 (model_instance_positions_kept _ H2)) 1).
Defined.

(** X7. [enableModelInstance] keeps culling membership in step with the
    enabled flag: when, before the call, every live instance with a ready
    model is registered for culling exactly if it is enabled, the same holds
    after it; [isModelInstanceEnabled] then returns the value that was set;
    and no other entity's instance or culling membership changes. *)
Theorem enableModelInstance_keeps_culling_in_step
  (e : Entity) (enable : bool) (s s' : Scene) :
  culling_matches_enabled s ->
  enableModelInstance e enable s = Ok s' ->
  culling_matches_enabled s' /\
  isModelInstanceEnabled e s' = Ok enable /\
  (forall e', e' <> e ->
     instance_at s' e' = instance_at s e' /\
     (e' ∈ m_culling_system s' <-> e' ∈ m_culling_system s)).
Proof.
  intros Hinv Hen. split; [by eapply enableModelInstance_preserves|].
  unfold enableModelInstance in Hen.
  destruct (instance_at s e) as [mi|] eqn:Hmi; [|done]. cbn [bind] in Hen.
  apply instance_at_Ok in Hmi as [He Hlook]. apply lookup_lt_Some in Hlook as Hlen.
  set (r := mkModelInstance _ _ _ _ _ _ _ _) in Hen.
  assert (forall c, instance_at (with_culling (set_instance s e r) c) e = Ok r) as Hat.
  { intros c. change (instance_at (with_culling (set_instance s e r) c) e)
      with (instance_at (set_instance s e r) e).
    rewrite instance_at_set_instance. by rewrite bool_decide_eq_true_2. }
  assert (forall c e', e' <> e ->
            instance_at (with_culling (set_instance s e r) c) e' = instance_at s e') as Hother.
  { intros c e' Hne. change (instance_at (with_culling (set_instance s e r) c) e')
      with (instance_at (set_instance s e r) e').
    rewrite instance_at_set_instance. rewrite bool_decide_eq_false_2; [done|]. lia. }
  assert (FlagSet.isSet (flags r) FlagSet.ENABLED = enable) as Hflag.
  { unfold r. cbn [flags]. destruct enable; [apply isSet_set_to_true|apply isSet_set_to_false]. }
  assert (exists c,
            s' = with_culling (set_instance s e r) c /\
            forall e', e' <> e -> e' ∈ c <-> e' ∈ m_culling_system s) as (c & -> & Hc).
  { destruct enable.
    - destruct (model r) as [m0|].
      + destruct (negb (isReady _ m0)); [injection Hen as <-; by exists (m_culling_system s)|].
        destruct (negb (isAdded _ e)); injection Hen as <-.
        * exists ({[e]} ∪ m_culling_system s). split; [done|]. intros e' Hne.
          rewrite elem_of_union, elem_of_singleton. tauto.
        * by exists (m_culling_system s).
      + injection Hen as <-. by exists (m_culling_system s).
    - injection Hen as <-. exists (m_culling_system s ∖ {[e]}). split; [done|].
      intros e' Hne. rewrite elem_of_difference, elem_of_singleton. tauto. }
  split.
  - unfold isModelInstanceEnabled. rewrite Hat. cbn [bind]. by rewrite Hflag.
  - intros e' Hne. split; [by apply Hother|by apply Hc].
Qed.

(** Model 10 is ready.  Entities 1 and 3 get a model instance, and entity 1
    is given model 10: [setModel] runs [modelLoaded], which registers the
    enabled instance for culling. *)
Definition loaded_instances : outcome Scene :=
  setModel 1 (Some 10)
    (createModelInstance 3 (createModelInstance 1
       (mkScene {[10]} (fun _ => 0) (fun _ => 1) [] ∅ ∅))).

Lemma loaded_instances_culling s :
  loaded_instances = Ok s ->
  culling_matches_enabled s /\ 1 ∈ m_culling_system s /\
  exists r, instance_at s 1 = Ok r /\ model r = Some 10 /\ isReady s 10 = true.
Proof.
  intros Hs. vm_compute in Hs. injection Hs as <-.
  assert (1 ∈ ({[1]} ∪ ∅ : gset Z)) as Hin by set_solver.
  split; [|split; [by vm_compute in Hin |- *|by eexists]].
  intros e r m Hat Hv Hm Hready. unfold instance_at in Hat.
  destruct (e <? 0) eqn:Hneg; [done|]. apply Z.ltb_ge in Hneg.
  cbn [m_model_instances] in Hat.
  destruct (Z.to_nat e) as [|[|[|[|n]]]] eqn:He; cbn in Hat; try done;
    injection Hat as <-; try done.
  assert (e = 1) as -> by lia.
  split; [done|]. intros _. by vm_compute in Hin |- *.
Qed.

Lemma enableModelInstance_keeps_culling_in_step_witness :
  exists s s1 s2,
    loaded_instances = Ok s /\
    1 ∈ m_culling_system s /\
    enableModelInstance 1 false s = Ok s1 /\
    culling_matches_enabled s1 /\
    isModelInstanceEnabled 1 s1 = Ok false /\
    (1 ∉ m_culling_system s1) /\
    enableModelInstance 1 true s1 = Ok s2 /\
    culling_matches_enabled s2 /\
    isModelInstanceEnabled 1 s2 = Ok true /\
    1 ∈ m_culling_system s2 /\
    isModelInstanceEnabled 3 s2 = Ok true.
Proof.
  eexists _, _, _. split; [vm_compute; reflexivity|].
  destruct (loaded_instances_culling _ ltac:(vm_compute; reflexivity))
    as (Hinv & Hin & _).
  split; [exact Hin|].
  split; [vm_compute; reflexivity|].
  destruct (enableModelInstance_keeps_culling_in_step 1 false _ _ Hinv
              ltac:(vm_compute; reflexivity)) as (Hinv1 & Hflag1 & _).
  split; [exact Hinv1|]. split; [exact Hflag1|].
  split; [intros Hno; by vm_compute in Hno|].
  split; [vm_compute; reflexivity|].
  destruct (enableModelInstance_keeps_culling_in_step 1 true _ _ Hinv1
              ltac:(vm_compute; reflexivity)) as (Hinv2 & Hflag2 & _).
  split; [exact Hinv2|]. split; [exact Hflag2|].
  split; [by vm_compute|reflexivity].
Defined.

(** X8. The one-argument [modelUnloaded] scans the whole table and never
    faults: every live instance of the model loses its pose and leaves the
    culling system, and its meshes are dropped unless they are the
    instance's own; every other position keeps its instance, and an entity
    that is not a live instance of the model keeps its culling membership. *)
Theorem modelUnloaded_unregisters_every_instance (m : Z) (s : Scene) :
  exists s',
    modelUnloaded m s = Ok s' /\
    (forall i r, m_model_instances s !! i = Some r ->
       m_model_instances s' !! i = Some (if bool_decide (uses m r) then unloaded r else r)) /\
    (forall e r, instance_at s' e = Ok r -> uses m r ->
       pose r = None /\ e ∉ m_culling_system s') /\
    (forall e, ~ (exists r, instance_at s e = Ok r /\ uses m r) ->
       (e ∈ m_culling_system s' <-> e ∈ m_culling_system s)).
Proof.
  destruct (modelUnloaded_scan_spec m (seq 0 (length (m_model_instances s))) s)
    as (s' & Hscan & Hlen & _ & _ & Hinst & Hcull).
  { intros i Hi. apply elem_of_seq in Hi. lia. }
  assert (forall i r, m_model_instances s !! i = Some r ->
            i ∈ seq 0 (length (m_model_instances s))) as Hseq.
  { intros i r Hr. apply elem_of_seq. apply lookup_lt_Some in Hr. lia. }
  exists s'. split; [done|]. split; [|split].
  - intros i r Hr. rewrite (Hinst i r Hr).
    rewrite (bool_decide_ext (i ∈ seq 0 (length (m_model_instances s)) /\ uses m r)
               (uses m r)); [done|].
    split; [tauto|]. intros Hu. split; [by eapply Hseq|done].
  - intros e r' Hat Hu. apply instance_at_Ok in Hat as [He Hr'].
    assert (Z.to_nat e < length (m_model_instances s))%nat as Hlt
      by (rewrite <- Hlen; by eapply lookup_lt_Some).
    destruct (lookup_lt_is_Some_2 _ _ Hlt) as [r Hr].
    rewrite (Hinst _ r Hr) in Hr'. injection Hr' as <-.
    assert (uses m r) as Hur.
    { case_bool_decide as Hc; [tauto|].
      exact Hu. }
    rewrite bool_decide_eq_true_2 by (split; [by eapply Hseq|done]).
    split.
    + unfold unloaded. by destruct (negb (hasCustomMeshes r)).
    + rewrite Hcull. intros [_ Hno]. apply Hno. exists (Z.to_nat e), r.
      split; [by eapply Hseq|]. split; [lia|done].
  - intros e Hno. rewrite Hcull. split; [tauto|]. intros He. split; [done|].
    intros (i & r & _ & -> & Hr & Hu). apply Hno. exists r. split; [|done].
    unfold instance_at. assert ((Z.of_nat i <? 0) = false) as -> by (apply Z.ltb_ge; lia).
    by rewrite Nat2Z.id, Hr.
Qed.

End ModelInstanceTable.

(** ** Bone attachments: creation, accessors and the entity callbacks

    [createBoneAttachment], [getBoneAttachmentParent],
    [getBoneAttachmentBone], [getBoneAttachmentPosition],
    [setBoneAttachmentPosition], [setBoneAttachmentRotationQuat],
    [onEntityDestroyed] and [onEntityMoved], over the scene state of
    [BoneAttachments]. *)

Module BoneAttachmentEvents.
Import Containers BoneAttachments.

Section WithTransforms.

Context {Vec3 DVec3 Quat : Type}.

Variable mul_rigid : @Transform DVec3 Quat -> @LocalRigidTransform Vec3 Quat -> @Transform DVec3 Quat.
Variable mul : @Transform DVec3 Quat -> @Transform DVec3 Quat -> @Transform DVec3 Quat.
Variable inverted : @Transform DVec3 Quat -> @Transform DVec3 Quat.
Variable toFloat : DVec3 -> Vec3.

(** The member [m_is_game_running]. *)
Variable m_is_game_running : bool.

(** What the relative transform of a newly emplaced [BoneAttachment] holds:
    [createBoneAttachment] does not assign it. *)
Variable unassigned : @LocalRigidTransform Vec3 Quat.

Definition createBoneAttachment (e : Entity) (s : @Scene Vec3 DVec3 Quat) : Scene :=
  with_bone_attachments s
    (aa_insert e (mkBoneAttachment e INVALID_ENTITY (-1) unassigned) (m_bone_attachments s)).

Definition getBoneAttachmentParent (e : Entity) (s : @Scene Vec3 DVec3 Quat) : outcome Entity :=
  bind (find_attachment s e) (fun ba => Ok (parent_entity ba)).

Definition getBoneAttachmentBone (e : Entity) (s : @Scene Vec3 DVec3 Quat) : outcome Z :=
  bind (find_attachment s e) (fun ba => Ok (bone_index ba)).

Definition getBoneAttachmentPosition (e : Entity) (s : @Scene Vec3 DVec3 Quat) : outcome Vec3 :=
  bind (find_attachment s e) (fun ba => Ok (l_pos (relative_transform ba))).

(** The common tail of the setters of the cached relative transform: the
    attachment is stored, then the forward update runs with
    [m_is_updating_attachments] set, and the flag is cleared. *)
Definition store_and_update (e : Entity) (attachment : @BoneAttachment Vec3 Quat)
  (s : @Scene Vec3 DVec3 Quat) : outcome Scene :=
  let s1 := with_bone_attachments s (aa_set e attachment (m_bone_attachments s)) in
  bind (updateBoneAttachment mul_rigid mul inverted toFloat m_is_game_running attachment
          (with_updating s1 true)) (fun s2 =>
  Ok (with_updating s2 false)).

Definition setBoneAttachmentPosition (e : Entity) (pos_arg : Vec3)
  (s : @Scene Vec3 DVec3 Quat) : outcome Scene :=
  bind (find_attachment s e) (fun attachment =>
  store_and_update e
    (mkBoneAttachment (entity attachment) (parent_entity attachment) (bone_index attachment)
       (mkRigid pos_arg (l_rot (relative_transform attachment)))) s).

Definition setBoneAttachmentRotationQuat (e : Entity) (rot_arg : Quat)
  (s : @Scene Vec3 DVec3 Quat) : outcome Scene :=
  bind (find_attachment s e) (fun attachment =>
  store_and_update e
    (mkBoneAttachment (entity attachment) (parent_entity attachment) (bone_index attachment)
       (mkRigid (l_pos (relative_transform attachment)) rot_arg)) s).

(** The loop of [onEntityDestroyed], which stops at the first attachment
    whose parent is the destroyed entity. *)
Fixpoint detach_first (e : Entity) (l : list (Z * @BoneAttachment Vec3 Quat))
  : list (Z * BoneAttachment) :=
  match l with
  | [] => []
  | (k, i) :: rest =>
      if parent_entity i =? e then (k, with_parent i INVALID_ENTITY) :: rest
      else (k, i) :: detach_first e rest
  end.

Definition onEntityDestroyed (e : Entity) (s : @Scene Vec3 DVec3 Quat) : Scene :=
  with_bone_attachments s (detach_first e (m_bone_attachments s)).

(** [onEntityMoved] with the value of [m_is_game_running] as an argument:
    the handler embedded in [BoneAttachments], from [bool was_updating] to
    its end. *)
Definition onEntityMoved_attachments (game_running : bool) (e : Entity)
  (s : @Scene Vec3 DVec3 Quat) : outcome Scene :=
  onEntityMoved mul_rigid mul inverted toFloat game_running e s.

Lemma detach_first_childless e l : childless e l -> detach_first e l = l.
Proof.
  induction l as [|[k ba] rest IH]; intros Hno; [done|]. cbn [detach_first].
  destruct (Z.eqb_spec (parent_entity ba) e) as [Heq|Hne].
  - exfalso. apply (Hno k ba); [by left|done].
  - rewrite IH; [done|]. intros k' ba' Hin. apply (Hno k' ba'). by right.
Qed.

Lemma detach_first_at e l1 k ba l2 :
  childless e l1 -> parent_entity ba = e ->
  detach_first e (l1 ++ (k, ba) :: l2) = l1 ++ (k, with_parent ba INVALID_ENTITY) :: l2.
Proof.
  intros Hno Hpar. induction l1 as [|[k1 b1] rest IH]; cbn [detach_first app].
  - rewrite Hpar, Z.eqb_refl. done.
  - destruct (Z.eqb_spec (parent_entity b1) e) as [Heq|Hne].
    + exfalso. apply (Hno k1 b1); [by left|done].
    + rewrite IH; [done|]. intros k' ba' Hin. apply (Hno k' ba'). by right.
Qed.

(** X9. [onEntityDestroyed] changes the bone-attachment table only: when no
    attachment has the destroyed entity as its parent nothing changes; else
    the first such attachment, in table order, gets the invalid entity as
    its parent, and every other attachment stays as it is, later attachments
    to the same parent included. *)
Theorem onEntityDestroyed_detaches_first_child (e : Entity) (s : @Scene Vec3 DVec3 Quat) :
  m_universe (onEntityDestroyed e s) = m_universe s /\
  m_model_instances (onEntityDestroyed e s) = m_model_instances s /\
  (childless e (m_bone_attachments s) -> onEntityDestroyed e s = s) /\
  (forall l1 k ba l2,
     m_bone_attachments s = l1 ++ (k, ba) :: l2 ->
     childless e l1 -> parent_entity ba = e ->
     m_bone_attachments (onEntityDestroyed e s) =
       l1 ++ (k, with_parent ba INVALID_ENTITY) :: l2).
Proof.
  split; [done|]. split; [done|]. split.
  - intros Hno. unfold onEntityDestroyed. rewrite detach_first_childless by done.
    by destruct s.
  - intros l1 k ba l2 Hl Hno Hpar. unfold onEntityDestroyed. cbn [m_bone_attachments with_bone_attachments].
    rewrite Hl. by apply detach_first_at.
Qed.

(** X10. The bone-attachment part of [onEntityMoved] restores
    [m_is_updating_attachments] to the value it had, and never changes the
    model-instance table; while a forward update is in progress or the game
    is running it leaves every cached relative transform as it is; and when,
    in addition, no attachment has the moved entity as its parent, it changes
    nothing at all. *)
Theorem onEntityMoved_keeps_cached_transforms
  (game_running : bool) (e : Entity) (s : @Scene Vec3 DVec3 Quat) :
  (forall s', onEntityMoved_attachments game_running e s = Ok s' ->
     m_is_updating_attachments s' = m_is_updating_attachments s /\
     m_model_instances s' = m_model_instances s /\
     (m_is_updating_attachments s || game_running = true ->
      m_bone_attachments s' = m_bone_attachments s)) /\
  (childless e (m_bone_attachments s) ->
   m_is_updating_attachments s || game_running = true ->
   onEntityMoved_attachments game_running e s = Ok s).
Proof.
  split.
  - intros s' Hrun. unfold onEntityMoved_attachments, onEntityMoved in Hrun.
    apply onEntityMoved_at_frame in Hrun as (Hf & Hi & _ & Ha & _). done.
  - intros Hno Hflag. unfold onEntityMoved_attachments, onEntityMoved, attachment_fuel.
    by apply onEntityMoved_at_childless.
Qed.

Lemma aa_find_insert_new {V} (e : Z) (v : V) (l : list (Z * V)) :
  aa_find e l = None -> aa_find e (aa_insert e v l) = Some v.
Proof.
  induction l as [|[k w] rest IH]; cbn [aa_find aa_insert].
  - by rewrite Z.eqb_refl.
  - destruct (Z.eqb_spec e k) as [->|Hne]; [done|]. intros Hrest.
    destruct (e <? k); cbn [aa_find].
    + by rewrite Z.eqb_refl.
    + destruct (Z.eqb_spec e k); [done|]. by apply IH.
Qed.

Lemma aa_find_insert_other {V} (e e' : Z) (v : V) (l : list (Z * V)) :
  e' <> e -> aa_find e' (aa_insert e v l) = aa_find e' l.
Proof.
  intros Hne. induction l as [|[k w] rest IH]; cbn [aa_find aa_insert].
  - destruct (Z.eqb_spec e' e); done.
  - destruct (e <? k); cbn [aa_find].
    + destruct (Z.eqb_spec e' e); done.
    + destruct (e =? k); cbn [aa_find]; [done|]. by rewrite IH.
Qed.

Lemma aa_erase_insert_new {V} (e : Z) (v : V) (l : list (Z * V)) :
  aa_find e l = None -> aa_erase e (aa_insert e v l) = l.
Proof.
  induction l as [|[k w] rest IH]; cbn [aa_find aa_insert aa_erase].
  - by rewrite Z.eqb_refl.
  - destruct (Z.eqb_spec e k) as [->|Hne]; [done|]. intros Hrest.
    destruct (e <? k); cbn [aa_erase].
    + by rewrite Z.eqb_refl.
    + destruct (Z.eqb_spec e k); [done|]. by rewrite IH.
Qed.

Lemma aa_find_set_same {V} (e : Z) (v v0 : V) (l : list (Z * V)) :
  aa_find e l = Some v0 -> aa_find e (aa_set e v l) = Some v.
Proof.
  induction l as [|[k w] rest IH]; cbn [aa_find aa_set]; [done|].
  destruct (e =? k) eqn:Hk; cbn [aa_find]; rewrite Hk; [done|exact IH].
Qed.

Lemma aa_find_set_other {V} (e e' : Z) (v : V) (l : list (Z * V)) :
  e' <> e -> aa_find e' (aa_set e v l) = aa_find e' l.
Proof.
  intros Hne. induction l as [|[k w] rest IH]; cbn [aa_find aa_set]; [done|].
  destruct (Z.eqb_spec e k) as [->|Hk]; cbn [aa_find].
  - by destruct (Z.eqb_spec e' k).
  - by rewrite IH.
Qed.

Lemma setBoneAttachmentPosition_unfold e pos_arg s stored :
  aa_find e (m_bone_attachments s) = Some stored ->
  let a := mkBoneAttachment (entity stored) (parent_entity stored) (bone_index stored)
             (mkRigid pos_arg (l_rot (relative_transform stored))) in
  let s1 := with_updating
              (with_bone_attachments s (aa_set e a (m_bone_attachments s))) true in
  setBoneAttachmentPosition e pos_arg s =
    bind (updateBoneAttachment mul_rigid mul inverted toFloat m_is_game_running a s1)
      (fun s2 => Ok (with_updating s2 false)) /\
  forall s2, m_bone_attachments s2 = m_bone_attachments s1 ->
             getBoneAttachmentPosition e (with_updating s2 false) = Ok pos_arg.
Proof.
  intros Hfind a s1. split.
  - unfold setBoneAttachmentPosition, find_attachment. by rewrite Hfind.
  - intros s2 Hatt. unfold getBoneAttachmentPosition, find_attachment.
    cbn [m_bone_attachments with_updating]. rewrite Hatt. unfold s1.
    cbn [m_bone_attachments with_updating with_bone_attachments].
    by rewrite (aa_find_set_same e a stored).
Qed.

Lemma setBoneAttachmentPosition_detached e pos_arg s stored :
  aa_find e (m_bone_attachments s) = Some stored ->
  isValid (parent_entity stored) = false ->
  exists s',
    setBoneAttachmentPosition e pos_arg s = Ok s' /\
    getBoneAttachmentPosition e s' = Ok pos_arg /\
    m_is_updating_attachments s' = false /\
    m_universe s' = m_universe s.
Proof.
  intros Hfind Hinvalid.
  destruct (setBoneAttachmentPosition_unfold e pos_arg s stored Hfind) as [Hset Hget].
  rewrite Hset, updateBoneAttachment_noop by (by left). cbn [bind].
  eexists. split; [reflexivity|]. split; [by apply Hget|]. done.
Qed.

Lemma aa_find_elem {V} (e : Z) (v : V) (l : list (Z * V)) :
  aa_find e l = Some v -> (e, v) ∈ l.
Proof.
  induction l as [|[k w] rest IH]; cbn [aa_find]; [done|].
  destruct (Z.eqb_spec e k) as [->|Hne].
  - intros [= ->]. by left.
  - intros Hrest. right. by apply IH.
Qed.

Lemma aa_set_elem {V} (e : Z) (v : V) (l : list (Z * V)) k w :
  (k, w) ∈ aa_set e v l -> (k, w) ∈ l \/ w = v.
Proof.
  induction l as [|[k' w'] rest IH]; cbn [aa_set]; [by left|].
  destruct (e =? k').
  - intros [[= -> ->]|Hin]%elem_of_cons; [by right|]. left. by right.
  - intros [[= -> ->]|Hin]%elem_of_cons; [left; by left|].
    destruct (IH Hin) as [Hl | Hv]; [left; by right|by right].
Qed.

(** Storing an attachment with the parent it had keeps an entity without
    attachments of its own without them. *)
Lemma childless_aa_set c e (a stored : @BoneAttachment Vec3 Quat) l :
  childless c l -> aa_find e l = Some stored -> parent_entity a = parent_entity stored ->
  childless c (aa_set e a l).
Proof.
  intros Hno Hfind Hpar k w Hin.
  destruct (aa_set_elem e a l k w Hin) as [Hl | ->]; [by apply (Hno k w)|].
  rewrite Hpar. apply (Hno e stored). by apply aa_find_elem.
Qed.

(** X11. [setBoneAttachmentPosition] stores the position in the cached
    relative transform and leaves [m_is_updating_attachments] cleared.  With
    a parent whose pose has the attachment's bone, and a child that has no
    attachments of its own, the child's world transform becomes parent
    transform * bone transform * (the new position, the cached rotation),
    with the child's previous scale, and no other entity moves; without a
    valid parent no transform is written. *)
Theorem setBoneAttachmentPosition_moves_child
  (e : Entity) (pos_arg : Vec3) (s : @Scene Vec3 DVec3 Quat)
  (stored : @BoneAttachment Vec3 Quat) :
  aa_find e (m_bone_attachments s) = Some stored ->
  (forall p r, resolvable s (parent_entity stored) (bone_index stored) p r ->
     childless (entity stored) (m_bone_attachments s) ->
     exists s',
       setBoneAttachmentPosition e pos_arg s = Ok s' /\
       getBoneAttachmentPosition e s' = Ok pos_arg /\
       m_is_updating_attachments s' = false /\
       getTransform (m_universe s') (entity stored) =
         with_scale
           (mul_rigid
              (mul_rigid (getTransform (m_universe s) (parent_entity stored)) (mkRigid p r))
              (mkRigid pos_arg (l_rot (relative_transform stored))))
           (getScale (m_universe s) (entity stored)) /\
       (forall e', e' <> entity stored ->
          getTransform (m_universe s') e' = getTransform (m_universe s) e')) /\
  (isValid (parent_entity stored) = false ->
     exists s',
       setBoneAttachmentPosition e pos_arg s = Ok s' /\
       getBoneAttachmentPosition e s' = Ok pos_arg /\
       m_is_updating_attachments s' = false /\
       m_universe s' = m_universe s).
Proof.
  intros Hfind. split; [|by apply setBoneAttachmentPosition_detached].
  intros p r Hres Hno.
  destruct (setBoneAttachmentPosition_unfold e pos_arg s stored Hfind) as [Hset Hget].
  cbv zeta in Hset, Hget.
  set (a := mkBoneAttachment (entity stored) (parent_entity stored) (bone_index stored)
              (mkRigid pos_arg (l_rot (relative_transform stored)))) in *.
  set (s1 := with_updating
               (with_bone_attachments s (aa_set e a (m_bone_attachments s))) true) in *.
  assert (resolvable s1 (parent_entity a) (bone_index a) p r) as Hres1 by exact Hres.
  assert (childless (entity a) (m_bone_attachments s1)) as Hno1
    by (by apply (childless_aa_set _ e a stored)).
  rewrite Hset,
    (updateBoneAttachment_childless mul_rigid mul inverted toFloat m_is_game_running
       a s1 p r Hres1 Hno1 eq_refl).
  cbn [bind].
  eexists. split; [reflexivity|]. split; [by apply Hget|]. split; [done|].
  cbn [m_universe with_updating with_universe]. unfold getTransform at 1 3.
  cbn [transforms write_transform]. split.
  - by rewrite decide_True.
  - intros e' He'. by rewrite decide_False.
Qed.

(** X12. [createBoneAttachment] for an entity without one adds an attachment
    with no parent and bone index -1 and changes nothing else; while it has
    no parent, setting its position or its bone writes no entity transform;
    and destroying it right away gives the scene back. *)
Theorem createBoneAttachment_is_detached (e : Entity) (s : @Scene Vec3 DVec3 Quat) :
  aa_find e (m_bone_attachments s) = None ->
  let s' := createBoneAttachment e s in
  getBoneAttachmentParent e s' = Ok INVALID_ENTITY /\
  getBoneAttachmentBone e s' = Ok (-1) /\
  (forall e', e' <> e ->
     aa_find e' (m_bone_attachments s') = aa_find e' (m_bone_attachments s)) /\
  m_universe s' = m_universe s /\
  m_model_instances s' = m_model_instances s /\
  (forall pos_arg, exists s'',
     setBoneAttachmentPosition e pos_arg s' = Ok s'' /\ m_universe s'' = m_universe s) /\
  (forall value, exists s'',
     setBoneAttachmentBone mul_rigid mul inverted toFloat e value s' = Ok s'' /\
     m_universe s'' = m_universe s /\
     getBoneAttachmentBone e s'' = Ok value /\
     getBoneAttachmentParent e s'' = Ok INVALID_ENTITY) /\
  destroyBoneAttachment e s' = Ok s.
Proof.
  intros Hnew s'.
  set (fresh := mkBoneAttachment e INVALID_ENTITY (-1) unassigned).
  assert (aa_find e (m_bone_attachments s') = Some fresh) as Hfind
    by (by apply aa_find_insert_new).
  split; [|split; [|split; [|split; [done|split; [done|split; [|split]]]]]].
  - unfold getBoneAttachmentParent, find_attachment. by rewrite Hfind.
  - unfold getBoneAttachmentBone, find_attachment. by rewrite Hfind.
  - intros e' He'. by apply aa_find_insert_other.
  - intros pos_arg.
    destruct (setBoneAttachmentPosition_detached e pos_arg s' fresh Hfind eq_refl)
      as (s'' & Hset & _ & _ & Hu). by exists s''.
  - intros value. unfold setBoneAttachmentBone, find_attachment. rewrite Hfind. cbn [bind].
    rewrite updateRelativeMatrix_noop by (by left). cbn [bind].
    eexists. split; [reflexivity|]. split; [done|].
    unfold getBoneAttachmentBone, getBoneAttachmentParent, find_attachment.
    cbn [m_bone_attachments with_bone_attachments].
    by rewrite (aa_find_set_same e _ fresh _ Hfind).
  - unfold destroyBoneAttachment, find_attachment. rewrite Hfind. cbn [bind].
    unfold s', createBoneAttachment. cbn [m_bone_attachments with_bone_attachments
      parent_entity fresh isValid INVALID_ENTITY].
    rewrite aa_erase_insert_new by done. by destruct s.
Qed.

End WithTransforms.

Lemma setBoneAttachmentPosition_moves_child_witness :
  exists s',
    setBoneAttachmentPosition t_mul_rigid t_mul t_inverted t_toFloat false 1 20 t_scene
      = Ok s' /\
    getTransform (m_universe s') 1 = mkTransform 125 tt (Float32.of_int 2) /\
    getTransform (m_universe s') 2 = getTransform (m_universe t_scene) 2.
Proof.
  destruct (setBoneAttachmentPosition_moves_child t_mul_rigid t_mul t_inverted t_toFloat
              false 1 20 t_scene t_child1 eq_refl)
    as [Hmove _].
  destruct (Hmove 5 tt t_resolvable (t_childless 1 ltac:(lia)))
    as (s' & Hset & _ & _ & Htr & Hother).
  exists s'. split; [exact Hset|]. split; [etrans; [exact Htr|reflexivity]|].
  apply Hother. discriminate.
Defined.

Lemma createBoneAttachment_is_detached_witness :
  destroyBoneAttachment 3 (createBoneAttachment (mkRigid 0 tt) 3 t_scene) = Ok t_scene.
Proof.
  apply (createBoneAttachment_is_detached t_mul_rigid t_mul t_inverted t_toFloat false
           (mkRigid 0 tt) 3 t_scene eq_refl).
Defined.

End BoneAttachmentEvents.

(** ** Point lights: creation and the property accessors

    The getters and setters that reach a light through
    [m_point_lights_map], over the scene state of [PointLights]. *)

Module PointLightAccess.
Import Float32 Containers PointLights.

(** [m_point_lights[m_point_lights_map[entity]].field = value], for the
    assignment [assign] of one field. *)
Definition set_field (assign : PointLight -> PointLight) (e : Entity) (s : Scene)
  : option Scene :=
  index ← m_point_lights_map s !! e;
  light ← m_point_lights s !! index;
  Some {| m_point_lights := <[index := assign light]> (m_point_lights s);
          m_point_lights_map := m_point_lights_map s |}.

Definition with_range (value : float) (l : PointLight) : PointLight :=
  mkPointLight (m_diffuse_color l) (m_specular_color l) (m_diffuse_intensity l)
    (m_specular_intensity l) (m_entity l) (m_fov l) (m_attenuation_param l) value
    (m_cast_shadows l).

Definition with_attenuation (value : float) (l : PointLight) : PointLight :=
  mkPointLight (m_diffuse_color l) (m_specular_color l) (m_diffuse_intensity l)
    (m_specular_intensity l) (m_entity l) (m_fov l) value (m_range l) (m_cast_shadows l).

Definition with_fov (value : float) (l : PointLight) : PointLight :=
  mkPointLight (m_diffuse_color l) (m_specular_color l) (m_diffuse_intensity l)
    (m_specular_intensity l) (m_entity l) value (m_attenuation_param l) (m_range l)
    (m_cast_shadows l).

Definition with_cast_shadows (value : bool) (l : PointLight) : PointLight :=
  mkPointLight (m_diffuse_color l) (m_specular_color l) (m_diffuse_intensity l)
    (m_specular_intensity l) (m_entity l) (m_fov l) (m_attenuation_param l) (m_range l)
    value.

Definition with_diffuse_intensity (value : float) (l : PointLight) : PointLight :=
  mkPointLight (m_diffuse_color l) (m_specular_color l) value
    (m_specular_intensity l) (m_entity l) (m_fov l) (m_attenuation_param l) (m_range l)
    (m_cast_shadows l).

Definition with_specular_intensity (value : float) (l : PointLight) : PointLight :=
  mkPointLight (m_diffuse_color l) (m_specular_color l) (m_diffuse_intensity l)
    value (m_entity l) (m_fov l) (m_attenuation_param l) (m_range l) (m_cast_shadows l).

Definition with_diffuse_color (value : Vec3) (l : PointLight) : PointLight :=
  mkPointLight value (m_specular_color l) (m_diffuse_intensity l)
    (m_specular_intensity l) (m_entity l) (m_fov l) (m_attenuation_param l) (m_range l)
    (m_cast_shadows l).

Definition with_specular_color (value : Vec3) (l : PointLight) : PointLight :=
  mkPointLight (m_diffuse_color l) value (m_diffuse_intensity l)
    (m_specular_intensity l) (m_entity l) (m_fov l) (m_attenuation_param l) (m_range l)
    (m_cast_shadows l).

Definition setLightRange (e : Entity) (value : float) := set_field (with_range value) e.
Definition setLightAttenuation (e : Entity) (attenuation : float) :=
  set_field (with_attenuation attenuation) e.
Definition setLightFOV (e : Entity) (fov : float) := set_field (with_fov fov) e.
Definition setLightCastShadows (e : Entity) (cast_shadows : bool) :=
  set_field (with_cast_shadows cast_shadows) e.
Definition setPointLightIntensity (e : Entity) (intensity : float) :=
  set_field (with_diffuse_intensity intensity) e.
Definition setPointLightSpecularIntensity (e : Entity) (intensity : float) :=
  set_field (with_specular_intensity intensity) e.
Definition setPointLightColor (e : Entity) (color : Vec3) :=
  set_field (with_diffuse_color color) e.
Definition setPointLightSpecularColor (e : Entity) (color : Vec3) :=
  set_field (with_specular_color color) e.

Definition getLightRange (e : Entity) (s : Scene) : option float :=
  m_range <$> getPointLight s e.
Definition getLightAttenuation (e : Entity) (s : Scene) : option float :=
  m_attenuation_param <$> getPointLight s e.
Definition getLightFOV (e : Entity) (s : Scene) : option float :=
  m_fov <$> getPointLight s e.
Definition getLightCastShadows (e : Entity) (s : Scene) : option bool :=
  m_cast_shadows <$> getPointLight s e.
Definition getPointLightIntensity (e : Entity) (s : Scene) : option float :=
  m_diffuse_intensity <$> getPointLight s e.
Definition getPointLightSpecularIntensity (e : Entity) (s : Scene) : option float :=
  m_specular_intensity <$> getPointLight s e.
Definition getPointLightColor (e : Entity) (s : Scene) : option Vec3 :=
  m_diffuse_color <$> getPointLight s e.
Definition getPointLightSpecularColor (e : Entity) (s : Scene) : option Vec3 :=
  m_specular_color <$> getPointLight s e.
Definition getPointLightEntity (e : Entity) (s : Scene) : option Entity :=
  m_entity <$> getPointLight s e.

(** The light [createPointLight] makes. *)
Definition default_light (e : Entity) : PointLight :=
  mkPointLight white white one one e (CameraLOD.degreesToRadians (of_int 360))
    (of_int 2) (of_int 10) false.

Lemma set_field_spec assign e s light :
  index_map_ok s ->
  (forall l, m_entity (assign l) = m_entity l) ->
  getPointLight s e = Some light ->
  exists s',
    set_field assign e s = Some s' /\
    index_map_ok s' /\
    getPointLight s' e = Some (assign light) /\
    (forall e', e' <> e -> getPointLight s' e' = getPointLight s e').
Proof.
  intros Hok Hent Hget. unfold getPointLight in Hget.
  destruct (m_point_lights_map s !! e) as [i|] eqn:Hi; [|done]. cbn in Hget.
  unfold set_field. rewrite Hi. cbn. rewrite Hget. cbn.
  apply lookup_lt_Some in Hget as Hlen.
  eexists. split; [reflexivity|]. split; [|split].
  - intros e' j. cbn. rewrite (Hok e' j). split; intros (l & Hl & He).
    + destruct (decide (j = i)) as [->|Hne].
      * exists (assign light). rewrite list_lookup_insert_eq by done.
        split; [done|]. rewrite Hent. congruence.
      * exists l. by rewrite list_lookup_insert_ne.
    + destruct (decide (j = i)) as [->|Hne].
      * rewrite list_lookup_insert_eq in Hl by done. injection Hl as <-.
        exists light. split; [done|]. by rewrite <- Hent.
      * rewrite list_lookup_insert_ne in Hl by done. by exists l.
  - unfold getPointLight. cbn. rewrite Hi. cbn. by apply list_lookup_insert_eq.
  - intros e' Hne. unfold getPointLight. cbn.
    destruct (m_point_lights_map s !! e') as [j|] eqn:Hj; [|done]. cbn.
    destruct (decide (j = i)) as [->|Hji]; [|by rewrite list_lookup_insert_ne].
    exfalso. apply Hne.
    destruct (proj1 (Hok e' i) Hj) as (l1 & Hl1 & He1).
    destruct (proj1 (Hok e i) Hi) as (l2 & Hl2 & He2). congruence.
Qed.

Lemma eraseFast_appended {A} (l : list A) (x : A) : eraseFast (l ++ [x]) (length l) = l.
Proof.
  unfold eraseFast. rewrite last_snoc, length_app. cbn [length].
  rewrite bool_decide_eq_true_2 by lia.
  replace (length l + 1 - 1)%nat with (length l) by lia.
  rewrite insert_app_r_alt by lia. rewrite Nat.sub_diag. cbn [insert list_insert].
  by rewrite take_app_length.
Qed.

(** X13. In a scene whose side map agrees with the dense array,
    [createPointLight] for an entity without a light appends the default
    light, which is then found through the map; every light found before is
    still found; the map still agrees with the array; and destroying the new
    light right away gives the scene back. *)
Theorem createPointLight_registers (e : Entity) (s : Scene) :
  index_map_ok s ->
  m_point_lights_map s !! e = None ->
  index_map_ok (createPointLight e s) /\
  getPointLight (createPointLight e s) e = Some (default_light e) /\
  (forall e' l, getPointLight s e' = Some l ->
     getPointLight (createPointLight e s) e' = Some l) /\
  destroyPointLight e (createPointLight e s) = Some s.
Proof.
  intros Hok Hnew. split; [by apply createPointLight_ok|].
  assert (createPointLight e s =
          mkScene (m_point_lights s ++ [default_light e])
                  (<[e := length (m_point_lights s)]> (m_point_lights_map s))) as ->.
  { unfold createPointLight, default_light. f_equal. f_equal.
    rewrite length_app. cbn [length]. lia. }
  split; [|split].
  - unfold getPointLight. cbn [m_point_lights_map m_point_lights].
    rewrite lookup_insert_eq. cbn [mbind option_bind].
    rewrite lookup_app_r by lia. by rewrite Nat.sub_diag.
  - intros e' l Hget. unfold getPointLight in *.
    destruct (m_point_lights_map s !! e') as [i|] eqn:Hi; [|done].
    cbn [mbind option_bind] in Hget. cbn [m_point_lights_map m_point_lights].
    rewrite lookup_insert_ne by congruence. rewrite Hi. cbn [mbind option_bind].
    rewrite lookup_app_l; [done|]. by eapply lookup_lt_Some.
  - unfold destroyPointLight. cbn [m_point_lights_map m_point_lights].
    rewrite lookup_insert_eq. cbn [mbind option_bind].
    rewrite eraseFast_appended. rewrite bool_decide_eq_false_2 by lia.
    rewrite delete_insert_eq, delete_id by done. by destruct s.
Qed.

Lemma createPointLight_registers_witness :
  destroyPointLight 5 (createPointLight 5 three_lights) = Some three_lights.
Proof. apply (createPointLight_registers 5 three_lights three_lights_ok). reflexivity. Defined.

(** X14. A setter of a point-light property, called for an entity that has
    a light, replaces that one field of that one light: the matching getter
    returns the new value, the other fields of the light and every other
    light stay as they are, and the side map still agrees with the array. *)
Theorem point_light_setters_change_one_field (e : Entity) (s : Scene) (light : PointLight) :
  index_map_ok s ->
  getPointLight s e = Some light ->
  (forall value, exists s',
     setLightRange e value s = Some s' /\ index_map_ok s' /\
     getPointLight s' e = Some (with_range value light) /\ getLightRange e s' = Some value /\
     forall e', e' <> e -> getPointLight s' e' = getPointLight s e') /\
  (forall value, exists s',
     setLightAttenuation e value s = Some s' /\ index_map_ok s' /\
     getPointLight s' e = Some (with_attenuation value light) /\
     getLightAttenuation e s' = Some value /\
     forall e', e' <> e -> getPointLight s' e' = getPointLight s e') /\
  (forall value, exists s',
     setLightFOV e value s = Some s' /\ index_map_ok s' /\
     getPointLight s' e = Some (with_fov value light) /\ getLightFOV e s' = Some value /\
     forall e', e' <> e -> getPointLight s' e' = getPointLight s e') /\
  (forall value, exists s',
     setLightCastShadows e value s = Some s' /\ index_map_ok s' /\
     getPointLight s' e = Some (with_cast_shadows value light) /\
     getLightCastShadows e s' = Some value /\
     forall e', e' <> e -> getPointLight s' e' = getPointLight s e') /\
  (forall value, exists s',
     setPointLightIntensity e value s = Some s' /\ index_map_ok s' /\
     getPointLight s' e = Some (with_diffuse_intensity value light) /\
     getPointLightIntensity e s' = Some value /\
     forall e', e' <> e -> getPointLight s' e' = getPointLight s e') /\
  (forall value, exists s',
     setPointLightSpecularIntensity e value s = Some s' /\ index_map_ok s' /\
     getPointLight s' e = Some (with_specular_intensity value light) /\
     getPointLightSpecularIntensity e s' = Some value /\
     forall e', e' <> e -> getPointLight s' e' = getPointLight s e') /\
  (forall value, exists s',
     setPointLightColor e value s = Some s' /\ index_map_ok s' /\
     getPointLight s' e = Some (with_diffuse_color value light) /\
     getPointLightColor e s' = Some value /\
     forall e', e' <> e -> getPointLight s' e' = getPointLight s e') /\
  (forall value, exists s',
     setPointLightSpecularColor e value s = Some s' /\ index_map_ok s' /\
     getPointLight s' e = Some (with_specular_color value light) /\
     getPointLightSpecularColor e s' = Some value /\
     forall e', e' <> e -> getPointLight s' e' = getPointLight s e').
Proof.
  intros Hok Hget.
  assert (forall assign, (forall l, m_entity (assign l) = m_entity l) ->
            forall {B} (field : PointLight -> B) (value : B),
              field (assign light) = value ->
              exists s', set_field assign e s = Some s' /\ index_map_ok s' /\
                getPointLight s' e = Some (assign light) /\
                field <$> getPointLight s' e = Some value /\
                forall e', e' <> e -> getPointLight s' e' = getPointLight s e') as Hall.
  { intros assign Hent B field value Hfield.
    destruct (set_field_spec assign e s light Hok Hent Hget) as (s' & Hset & Hok' & Hnew & Hother).
    exists s'. split; [done|]. split; [done|]. split; [done|]. split; [|done].
    rewrite Hnew. cbn. by rewrite Hfield. }
  repeat split; intros value; by apply Hall.
Qed.

Lemma point_light_setters_change_one_field_witness :
  exists s',
    setLightRange 4 (of_int 25) three_lights = Some s' /\
    getLightRange 4 s' = Some (of_int 25) /\
    getLightRange 7 s' = Some (of_int 10).
Proof.
  destruct (point_light_setters_change_one_field 4 three_lights (default_light 4)
              three_lights_ok eq_refl) as [Hrange _].
  destruct (Hrange (of_int 25)) as (s' & Hset & _ & _ & Hget & Hother).
  exists s'. split; [exact Hset|]. split; [exact Hget|].
  unfold getLightRange. rewrite Hother by discriminate. reflexivity.
Defined.

End PointLightAccess.

(** ** Cameras: the active camera

    [destroyCamera] and [getActiveCamera], over the scene state of
    [CameraLOD]. *)

Module ActiveCamera.
Import Float32 CameraLOD.

Definition destroyCamera (e : Entity) (s : Scene) : Scene :=
  {| m_cameras := delete e (m_cameras s);
     m_active_camera :=
       if m_active_camera s =? e then INVALID_ENTITY else m_active_camera s |}.

Definition getActiveCamera (s : Scene) : Entity := m_active_camera s.

(** The active camera, when there is one, is an entity with a camera. *)
Definition active_camera_ok (s : Scene) : Prop :=
  isValid (m_active_camera s) = true -> is_Some (m_cameras s !! m_active_camera s).

(** X15. The scene never names a destroyed camera as the active one: an
    active camera is an entity that has a camera, after [createCamera] and
    after [destroyCamera] alike.  [createCamera] makes the new camera active
    only when no camera is active; [destroyCamera] of the active camera
    leaves no camera active, and of another camera leaves the active one. *)
Theorem active_camera_is_a_camera (e : Entity) (s : Scene) :
  active_camera_ok s ->
  active_camera_ok (createCamera e s) /\
  active_camera_ok (destroyCamera e s) /\
  getActiveCamera (createCamera e s) =
    (if isValid (getActiveCamera s) then getActiveCamera s else e) /\
  getActiveCamera (destroyCamera e s) =
    (if getActiveCamera s =? e then INVALID_ENTITY else getActiveCamera s) /\
  m_cameras (destroyCamera e s) !! e = None.
Proof.
  intros Hok. unfold active_camera_ok, getActiveCamera in *.
  split; [|split; [|split; [done|split; [done|]]]].
  - unfold createCamera. cbn [m_cameras m_active_camera].
    destruct (isValid (m_active_camera s)) eqn:Hv.
    + intros _. destruct (decide (e = m_active_camera s)) as [->|Hne].
      * rewrite lookup_insert_eq. by eexists.
      * rewrite lookup_insert_ne by done. by apply Hok.
    + intros _. rewrite lookup_insert_eq. by eexists.
  - unfold destroyCamera. cbn [m_cameras m_active_camera].
    destruct (Z.eqb_spec (m_active_camera s) e) as [Heq|Hne]; [done|].
    intros Hv. rewrite lookup_delete_ne by done. by apply Hok.
  - unfold destroyCamera. cbn [m_cameras]. apply lookup_delete_eq.
Qed.

Definition no_camera : Scene := mkScene ∅ INVALID_ENTITY.

Lemma active_camera_is_a_camera_witness :
  getActiveCamera (createCamera 2 (createCamera 1 no_camera)) = 1 /\
  getActiveCamera (destroyCamera 1 (createCamera 2 (createCamera 1 no_camera)))
    = INVALID_ENTITY /\
  active_camera_ok (destroyCamera 1 (createCamera 2 (createCamera 1 no_camera))).
Proof.
  split; [reflexivity|]. split; [reflexivity|].
  assert (active_camera_ok no_camera) as H0 by (intros Hv; discriminate Hv).
  pose proof (proj1 (active_camera_is_a_camera 1 no_camera H0)) as H1.
  pose proof (proj1 (active_camera_is_a_camera 2 _ H1)) as H2.
  exact (proj1 (proj2 (active_camera_is_a_camera 1 _ H2))).
Defined.

End ActiveCamera.

(** ** Global lights

    [createGlobalLight], [destroyGlobalLight], [setActiveGlobalLight] and
    [getActiveGlobalLight]. *)

Module GlobalLights.
Import Float32 Float32Arith.

Record Vec3 := mkVec3 { x : float; y : float; z : float }.
Record Vec4 := mkVec4 { vx : float; vy : float; vz : float; vw : float }.

Record GlobalLight := mkGlobalLight {
  m_diffuse_color : Vec3;
  m_diffuse_intensity : float;
  m_indirect_intensity : float;
  m_fog_color : Vec3;
  m_fog_density : float;
  m_fog_bottom : float;
  m_fog_height : float;
  m_entity : Entity;
  m_cascades : Vec4
}.

Record Scene := mkScene {
  m_global_lights : gmap Z GlobalLight;
  m_active_global_light_entity : Entity
}.

Definition createGlobalLight (e : Entity) (s : Scene) : Scene :=
  let light :=
    {| m_entity := e;
       m_diffuse_color := mkVec3 one one one;
       m_diffuse_intensity := zero;
       m_indirect_intensity := one;
       m_fog_color := mkVec3 one one one;
       m_fog_density := zero;
       m_cascades := mkVec4 (of_int 3) (of_int 8) (of_int 100) (of_int 300);
       m_fog_bottom := zero;
       m_fog_height := of_int 10 |} in
  {| m_active_global_light_entity :=
       if bool_decide (m_global_lights s = ∅) then e else m_active_global_light_entity s;
     m_global_lights := <[e := light]> (m_global_lights s) |}.

Definition destroyGlobalLight (e : Entity) (s : Scene) : Scene :=
  {| m_active_global_light_entity :=
       if e =? m_active_global_light_entity s then INVALID_ENTITY
       else m_active_global_light_entity s;
     m_global_lights := delete e (m_global_lights s) |}.

Definition setActiveGlobalLight (e : Entity) (s : Scene) : Scene :=
  {| m_active_global_light_entity := e; m_global_lights := m_global_lights s |}.

Definition getActiveGlobalLight (s : Scene) : Entity := m_active_global_light_entity s.

(** The active global light is the invalid entity or an entity with a global
    light. *)
Definition active_light_ok (s : Scene) : Prop :=
  m_active_global_light_entity s = INVALID_ENTITY \/
  is_Some (m_global_lights s !! m_active_global_light_entity s).

(** X16. The active global light is never a destroyed one: when it is the
    invalid entity or an entity with a global light, the same holds after
    [createGlobalLight], after [destroyGlobalLight], and after
    [setActiveGlobalLight] for an entity with a light.  A new light becomes
    the active one only when the scene has no global light at all;
    destroying the active light leaves none active, also when other lights
    remain. *)
Theorem active_global_light_is_a_light (e : Entity) (s : Scene) :
  active_light_ok s ->
  active_light_ok (createGlobalLight e s) /\
  active_light_ok (destroyGlobalLight e s) /\
  (is_Some (m_global_lights s !! e) -> active_light_ok (setActiveGlobalLight e s)) /\
  getActiveGlobalLight (createGlobalLight e s) =
    (if bool_decide (m_global_lights s = ∅) then e else getActiveGlobalLight s) /\
  getActiveGlobalLight (destroyGlobalLight e s) =
    (if e =? getActiveGlobalLight s then INVALID_ENTITY else getActiveGlobalLight s) /\
  m_global_lights (destroyGlobalLight e s) !! e = None.
Proof.
  intros Hok. unfold active_light_ok, getActiveGlobalLight in *.
  split; [|split; [|split; [|split; [done|split; [done|]]]]].
  - unfold createGlobalLight. cbn [m_global_lights m_active_global_light_entity].
    case_bool_decide as Hempty.
    + right. rewrite lookup_insert_eq. by eexists.
    + destruct Hok as [Hinv | Hsome]; [by left|right].
      destruct (decide (e = m_active_global_light_entity s)) as [->|Hne].
      * rewrite lookup_insert_eq. by eexists.
      * by rewrite lookup_insert_ne.
  - unfold destroyGlobalLight. cbn [m_global_lights m_active_global_light_entity].
    destruct (Z.eqb_spec e (m_active_global_light_entity s)) as [Heq|Hne]; [by left|].
    destruct Hok as [Hinv | Hsome]; [by left|right]. by rewrite lookup_delete_ne.
  - intros Hsome. by right.
  - unfold destroyGlobalLight. cbn [m_global_lights]. apply lookup_delete_eq.
Qed.

Definition no_light : Scene := mkScene ∅ INVALID_ENTITY.

Lemma active_global_light_is_a_light_witness :
  getActiveGlobalLight (createGlobalLight 2 (createGlobalLight 1 no_light)) = 1 /\
  getActiveGlobalLight
    (createGlobalLight 3
       (destroyGlobalLight 1 (createGlobalLight 2 (createGlobalLight 1 no_light))))
    = INVALID_ENTITY /\
  active_light_ok
    (destroyGlobalLight 1 (createGlobalLight 2 (createGlobalLight 1 no_light))).
Proof.
  split; [reflexivity|]. split; [by vm_compute|].
  assert (active_light_ok no_light) as H0 by (by left).
  pose proof (proj1 (active_global_light_is_a_light 1 no_light H0)) as H1.
  pose proof (proj1 (active_global_light_is_a_light 2 _ H1)) as H2.
  exact (proj1 (proj2 (active_global_light_is_a_light 1 _ H2))).
Defined.

End GlobalLights.

(** ** Reading back what was written

    Every reader of [Serialization] applied to the bytes of the matching
    writer, and the sections of the stream one after the other. *)

Module RoundTrip.
Import Blob Containers Serialization.

(** The ranges of the scalar types of the stream. *)
Definition u8 (v : Z) : Prop := 0 <= v < 2 ^ 8.
Definition u16 (v : Z) : Prop := 0 <= v < 2 ^ 16.
Definition u32 (v : Z) : Prop := 0 <= v < 2 ^ 32.
Definition i32 (v : Z) : Prop := - 2 ^ 31 <= v < 2 ^ 31.

Definition Vec3_ok (v : Vec3) : Prop := u32 (x v) /\ u32 (y v) /\ u32 (z v).

Definition Vec4_ok (v : Vec4) : Prop := u32 (vx v) /\ u32 (vy v) /\ u32 (vz v) /\ u32 (vw v).

(** A camera whose persisted fields fit their types. *)
Definition Camera_ok (c : Camera) : Prop :=
  i32 (c_entity c) /\ u32 (far c) /\ u32 (fov c) /\ u32 (ortho_size c) /\ u32 (near c).

(** What the stream keeps of a camera: [aspect], [screen_width] and
    [screen_height] are not written, and the camera read is never given
    them. *)
Definition persisted_camera (c : Camera) : Camera :=
  mkCamera (c_entity c) (fov c) None (near c) (far c) (ortho_size c) None None
    (is_ortho c).

Definition PointLight_ok (l : PointLight) : Prop :=
  Vec3_ok (m_diffuse_color l) /\ Vec3_ok (m_specular_color l) /\
  u32 (m_diffuse_intensity l) /\ u32 (m_specular_intensity l) /\ i32 (m_entity l) /\
  u32 (m_fov l) /\ u32 (m_attenuation_param l) /\ u32 (m_range l).

Definition GlobalLight_ok (l : GlobalLight) : Prop :=
  Vec3_ok (g_diffuse_color l) /\ u32 (g_diffuse_intensity l) /\
  u32 (g_indirect_intensity l) /\ Vec3_ok (g_fog_color l) /\ u32 (g_fog_density l) /\
  u32 (g_fog_bottom l) /\ u32 (g_fog_height l) /\ i32 (g_entity l) /\
  Vec4_ok (g_cascades l).

Definition BoneAttachment_ok (a : Z * BoneAttachment) : Prop :=
  a.1 = b_entity a.2 /\
  i32 (bone_index a.2) /\ i32 (b_entity a.2) /\ i32 (parent_entity a.2) /\
  Vec3_ok (pos (relative_transform a.2)) /\ Vec4_ok (rot (relative_transform a.2)).

(** A string that can be written: its length with the terminating zero fits
    an [i32]. *)
Definition string_ok (s : list Z) : Prop := Z.of_nat (length s) + 1 < 2 ^ 31.

(** A resource path: [nullptr] is written as the empty string, so a resource
    with an empty path cannot be told from none. *)
Definition path_ok (p : option (list Z)) : Prop :=
  match p with
  | Some s => s <> [] /\ string_ok s
  | None => True
  end.

Definition Decal_ok (d : Z * Decal) : Prop :=
  d.1 = d_entity d.2 /\ i32 (d_entity d.2) /\ Vec3_ok (scale d.2) /\ path_ok (material d.2).

Definition TextMesh_ok (t : Z * TextMesh) : Prop :=
  i32 t.1 /\ path_ok (font t.2) /\ u32 (color t.2) /\ i32 (font_size t.2) /\
  string_ok (text t.2).

(** What the stream keeps of a text mesh: the flags are not written. *)
Definition persisted_text_mesh (t : Z * TextMesh) : Z * TextMesh :=
  (t.1, mkTextMesh (font t.2) (color t.2) (font_size t.2) (text t.2) 0).

(** The keys of an [AssociativeArray] increase strictly. *)
Definition sorted {V} (table : list (Z * V)) : Prop :=
  forall (i j : nat) p q, table !! i = Some p -> table !! j = Some q -> (i < j)%nat -> p.1 < q.1.

(** The side map of the point lights agrees with the array. *)
Definition lights_indexed (lights : list PointLight) (map : gmap Z nat) : Prop :=
  forall (e : Z) (i : nat),
    map !! e = Some i <-> exists l, lights !! i = Some l /\ m_entity l = e.

(** The materials [serializeModelInstances] writes for an instance. *)
Definition written_materials (r : ModelInstance) : list (list Z) :=
  if has_changed_materials r then default [] (custom_materials r) else [].

(** An instance that can be written: a hole or a valid entity, a model whose
    path hash is not the 0 that stands for no model, material paths that can
    be written, and at most 127 of them, a count that every integer type
    holds. *)
Definition ModelInstance_ok (r : ModelInstance) : Prop :=
  (mi_entity r = INVALID_ENTITY \/ 0 <= mi_entity r < 2 ^ 31) /\
  match model r with
  | Some m => 0 < path_hash m < 2 ^ 32
  | None => True
  end /\
  Forall string_ok (written_materials r) /\
  Z.of_nat (length (written_materials r)) <= 127.

(** *** Scalars *)

Lemma rbind_Ok {A B} (r : reader A) (k : A -> reader B) b a b' :
  r b = Ok (a, b') -> rbind r k b = k a b'.
Proof. unfold rbind. by intros ->. Qed.

Lemma read_bytes_app bytes rest :
  read_bytes (length bytes) (bytes ++ rest) = Ok (bytes, rest).
Proof.
  unfold read_bytes. rewrite bool_decide_eq_true_2 by (rewrite length_app; lia).
  by rewrite take_app_length, drop_app_length.
Qed.

Lemma of_le_mod n v : of_le (le n v) = v mod 256 ^ Z.of_nat n.
Proof.
  revert v. induction n as [|n IH]; intros v.
  - cbn [le of_le]. by rewrite Z.mod_1_r.
  - cbn [le of_le]. rewrite IH, Nat2Z.inj_succ, Z.pow_succ_r by lia.
    rewrite Z.rem_mul_r by lia. done.
Qed.

Lemma read_unsigned_le n v rest :
  0 <= v < 256 ^ Z.of_nat n -> read_unsigned n (le n v ++ rest) = Ok (v, rest).
Proof.
  intros Hv. unfold read_unsigned.
  rewrite (rbind_Ok _ _ _ (le n v) rest)
    by (rewrite <- (le_length n v) at 1; apply read_bytes_app).
  unfold ret. by rewrite of_le_le.
Qed.

Lemma read_u8_le v rest : u8 v -> read_u8 (le 1 v ++ rest) = Ok (v, rest).
Proof. intros Hv. by apply read_unsigned_le. Qed.

Lemma read_u16_le v rest : u16 v -> read_u16 (le 2 v ++ rest) = Ok (v, rest).
Proof. intros Hv. by apply read_unsigned_le. Qed.

Lemma read_u32_le v rest : u32 v -> read_u32 (le 4 v ++ rest) = Ok (v, rest).
Proof. intros Hv. by apply read_unsigned_le. Qed.

Lemma read_float_le v rest : u32 v -> read_float (le 4 v ++ rest) = Ok (v, rest).
Proof. intros Hv. by apply read_unsigned_le. Qed.

Lemma read_i32_le v rest : i32 v -> read_i32 (le 4 v ++ rest) = Ok (v, rest).
Proof.
  intros Hv. unfold i32 in Hv. unfold read_i32, read_unsigned.
  rewrite (rbind_Ok _ _ _ (of_le (le 4 v)) rest).
  - unfold ret. f_equal. f_equal. rewrite of_le_mod. unfold to_signed32.
    change (256 ^ Z.of_nat 4) with (2 ^ 32).
    change (2 ^ 31) with 2147483648 in *. change (2 ^ 32) with 4294967296.
    destruct (Z.ltb_spec (v mod 4294967296) 2147483648); Z.div_mod_to_equations; lia.
  - rewrite (rbind_Ok _ _ _ (le 4 v) rest); [done|].
    rewrite <- (le_length 4 v) at 1. apply read_bytes_app.
Qed.

Lemma read_entity_le v rest : i32 v -> read_entity (le 4 v ++ rest) = Ok (v, rest).
Proof. apply read_i32_le. Qed.

Lemma read_bool_byte (v : bool) rest :
  read_bool ((if v then 1 else 0) :: rest) = Ok (v, rest).
Proof. by destruct v. Qed.

Lemma readString_bytes s rest :
  string_ok s -> readString (string_bytes s ++ rest) = Ok (s, rest).
Proof.
  intros Hs. unfold string_ok in Hs. unfold readString, string_bytes.
  rewrite <- app_assoc.
  rewrite (rbind_Ok _ _ _ (Z.of_nat (length s) + 1) ((s ++ [0]) ++ rest)).
  - replace (Z.to_nat (Z.of_nat (length s) + 1)) with (length (s ++ [0]))
      by (rewrite length_app; cbn [length]; lia).
    rewrite (rbind_Ok _ _ _ (s ++ [0]) rest) by apply read_bytes_app.
    unfold ret. rewrite length_app. cbn [length].
    replace (length s + 1 - 1)%nat with (length s) by lia.
    by rewrite take_app_length.
  - apply read_i32_le. unfold i32. lia.
Qed.

Lemma path_round_trip p : path_ok p -> path_of (path_or_empty p) = p.
Proof. destruct p as [[|c s]|]; cbn; [by intros [? _]|done|done]. Qed.

Lemma path_string_ok p : path_ok p -> string_ok (path_or_empty p).
Proof. destruct p as [s|]; cbn; [tauto|]. intros _. unfold string_ok. cbn. lia. Qed.

Lemma flags_byte f : u8 (Z.land f FlagSet.PERSISTENT_FLAGS).
Proof.
  unfold u8. change FlagSet.PERSISTENT_FLAGS with 254.
  assert (Z.land f 254 = Z.land f 254 mod 2 ^ 8) as ->.
  { rewrite <- Z.land_ones by lia. by rewrite <- Z.land_assoc. }
  apply Z.mod_pos_bound. lia.
Qed.

Lemma flags_masked_twice f :
  Z.land (Z.land f FlagSet.PERSISTENT_FLAGS) FlagSet.PERSISTENT_FLAGS =
  Z.land f FlagSet.PERSISTENT_FLAGS.
Proof. by rewrite <- Z.land_assoc, Z.land_diag. Qed.

(** *** Sections *)

Lemma read_loop_items {A B} (item : reader B) (encode : A -> list Z) (kept : A -> B)
  (items : list A) :
  Forall (fun a => forall rest, item (encode a ++ rest) = Ok (kept a, rest)) items ->
  Forall (fun a => encode a <> []) items ->
  forall fuel rest,
    (length (concat (encode <$> items) ++ rest) <= fuel)%nat ->
    read_loop item fuel (Z.of_nat (length items)) (concat (encode <$> items) ++ rest)
    = Ok (kept <$> items, rest).
Proof.
  induction items as [|a items IH]; intros Hread Hsize fuel rest Hfuel.
  - by destruct fuel.
  - apply Forall_cons in Hread as [Ha Hread]. apply Forall_cons in Hsize as [Hna Hsize].
    cbn [fmap list_fmap concat length] in *. rewrite <- app_assoc in *.
    assert (0 < length (encode a))%nat by (destruct (encode a); [done|cbn; lia]).
    rewrite length_app in Hfuel.
    destruct fuel as [|fuel]; [lia|]. cbn [read_loop].
    assert ((Z.of_nat (S (length items)) <=? 0) = false) as -> by (apply Z.leb_gt; lia).
    rewrite (rbind_Ok _ _ _ _ _ (Ha _)).
    replace (Z.of_nat (S (length items)) - 1) with (Z.of_nat (length items)) by lia.
    rewrite (rbind_Ok _ _ _ _ _ (IH Hread Hsize fuel rest ltac:(lia))). done.
Qed.

Lemma read_section {A B} (item : reader B) (encode : A -> list Z) (kept : A -> B)
  (items : list A) (rest : list Z) :
  Forall (fun a => forall rest, item (encode a ++ rest) = Ok (kept a, rest)) items ->
  Forall (fun a => encode a <> []) items ->
  Z.of_nat (length items) < 2 ^ 31 ->
  read_count_then item (section encode items ++ rest) = Ok (kept <$> items, rest).
Proof.
  intros Hread Hsize Hcount. unfold read_count_then, section. rewrite <- app_assoc.
  rewrite (rbind_Ok _ _ _ (Z.of_nat (length items)) (concat (encode <$> items) ++ rest))
    by (apply read_i32_le; unfold i32; lia).
  by apply read_loop_items.
Qed.

Lemma le_nonempty n v (tail : list Z) : le (S n) v ++ tail <> [].
Proof. done. Qed.

(** *** Elements *)

Ltac read_one :=
  first
    [ erewrite rbind_Ok by (apply read_float_le; assumption)
    | erewrite rbind_Ok by (apply read_entity_le; assumption)
    | erewrite rbind_Ok by (apply read_u16_le; assumption)
    | erewrite rbind_Ok by (apply read_u8_le; assumption)
    | erewrite rbind_Ok by apply read_bool_byte
    | erewrite rbind_Ok by (apply readString_bytes; assumption) ].

Lemma read_Vec3_bytes v rest : Vec3_ok v -> read_Vec3 (Vec3_bytes v ++ rest) = Ok (v, rest).
Proof.
  destruct v as [a b c]. intros (Ha & Hb & Hc). cbn in Ha, Hb, Hc.
  unfold read_Vec3, Vec3_bytes. cbn [x y z]. rewrite <- !app_assoc.
  by repeat read_one.
Qed.

Lemma read_Vec4_bytes v rest : Vec4_ok v -> read_Vec4 (Vec4_bytes v ++ rest) = Ok (v, rest).
Proof.
  destruct v as [a b c d]. intros (Ha & Hb & Hc & Hd). cbn in Ha, Hb, Hc, Hd.
  unfold read_Vec4, Vec4_bytes. cbn [vx vy vz vw]. rewrite <- !app_assoc.
  by repeat read_one.
Qed.

Ltac read_next :=
  first
    [ read_one
    | erewrite rbind_Ok by (apply read_Vec3_bytes; assumption)
    | erewrite rbind_Ok by (apply read_Vec4_bytes; assumption) ].

Lemma read_Camera_bytes c rest :
  Camera_ok c -> read_Camera (Camera_bytes c ++ rest) = Ok (persisted_camera c, rest).
Proof.
  intros (He & Hfar & Hfov & Hos & Hnear).
  unfold read_Camera, Camera_bytes. rewrite <- !app_assoc. cbn [app].
  by repeat read_next.
Qed.

Lemma read_PointLight_bytes l rest :
  PointLight_ok l -> read_PointLight (PointLight_bytes l ++ rest) = Ok (l, rest).
Proof.
  intros (Hdc & Hsc & Hdi & Hsi & He & Hf & Ha & Hr).
  unfold read_PointLight, PointLight_bytes. rewrite <- !app_assoc. cbn [app].
  repeat read_next. unfold ret. by destruct l.
Qed.

Lemma read_GlobalLight_bytes l rest :
  GlobalLight_ok l -> read_GlobalLight (GlobalLight_bytes l ++ rest) = Ok (l, rest).
Proof.
  intros (Hdc & Hdi & Hii & Hfc & Hfd & Hfb & Hfh & He & Hc).
  unfold read_GlobalLight, GlobalLight_bytes. rewrite <- !app_assoc.
  repeat read_next. unfold ret. by destruct l.
Qed.

Lemma read_BoneAttachment_bytes a rest :
  BoneAttachment_ok a ->
  read_BoneAttachment (BoneAttachment_bytes a ++ rest) = Ok (a.2, rest).
Proof.
  intros (_ & Hi & He & Hp & Hpos & Hrot).
  unfold read_BoneAttachment, read_rigid, BoneAttachment_bytes. rewrite <- !app_assoc.
  repeat read_next. unfold rbind at 1.
  erewrite rbind_Ok by (apply read_Vec3_bytes; assumption).
  erewrite rbind_Ok by (apply read_Vec4_bytes; assumption).
  unfold ret. destruct a as [k [e p i [ps rt]]]. done.
Qed.

Lemma read_TextMesh_bytes t rest :
  TextMesh_ok t ->
  read_TextMesh (TextMesh_bytes t ++ rest) = Ok (persisted_text_mesh t, rest).
Proof.
  intros (He & Hf & Hc & Hs & Ht). pose proof (path_string_ok _ Hf) as Hstr.
  unfold read_TextMesh, TextMesh_bytes. rewrite <- !app_assoc.
  repeat read_next. unfold ret. by rewrite path_round_trip by done.
Qed.

(** *** Tables *)

Lemma aa_insert_last {V} (k : Z) (v : V) table :
  Forall (fun p => p.1 < k) table -> aa_insert k v table = table ++ [(k, v)].
Proof.
  induction table as [|[k' v'] table IH]; intros Hlt; [done|].
  apply Forall_cons in Hlt as [Hk Hlt]. cbn [aa_insert fst] in *.
  assert ((k <? k') = false) as -> by (apply Z.ltb_ge; lia).
  assert ((k =? k') = false) as -> by (apply Z.eqb_neq; lia).
  by rewrite IH.
Qed.

Lemma sorted_snoc {V} (table : list (Z * V)) p :
  sorted (table ++ [p]) -> sorted table /\ Forall (fun q => q.1 < p.1) table.
Proof.
  intros Hs. split.
  - intros i j a b Ha Hb Hij.
    apply (Hs i j); [by apply lookup_app_l_Some|by apply lookup_app_l_Some|done].
  - apply Forall_lookup. intros i q Hq. pose proof (lookup_lt_Some _ _ _ Hq) as Hi.
    apply (Hs i (length table)); [by apply lookup_app_l_Some| |done].
    by rewrite list_lookup_middle.
Qed.

Lemma sorted_tail {V} (table : list (Z * V)) p : sorted (p :: table) -> sorted table.
Proof. intros Hs i j a b Ha Hb Hij. apply (Hs (S i) (S j)); [done|done|lia]. Qed.

Lemma sorted_nil {V} : sorted (@nil (Z * V)).
Proof. by intros i j p q Hp. Qed.

Lemma sorted_cons {V} (p : Z * V) table :
  Forall (fun q => p.1 < q.1) table -> sorted table -> sorted (p :: table).
Proof.
  intros Hlt Hs i j a b Ha Hb Hij. destruct j as [|j]; [lia|]. cbn in Hb.
  destruct i as [|i]; cbn in Ha.
  - injection Ha as <-. rewrite Forall_lookup in Hlt. by apply (Hlt j).
  - apply (Hs i j); [done|done|lia].
Qed.

Lemma insert_in_order {V} (table : list (Z * V)) :
  sorted table -> fold_left (fun acc p => aa_insert p.1 p.2 acc) table [] = table.
Proof.
  induction table as [|[k v] table IH] using rev_ind; intros Hs; [done|].
  apply sorted_snoc in Hs as [Hs Hlt].
  rewrite fold_left_app. cbn [fold_left fst snd]. rewrite IH by done.
  by apply aa_insert_last.
Qed.

Lemma insert_all_pairs {V} (key : V -> Z) (items : list V) table :
  insert_all key items table =
  fold_left (fun acc p => aa_insert p.1 p.2 acc) ((fun v => (key v, v)) <$> items) table.
Proof.
  unfold insert_all. revert table. induction items as [|v items IH]; intros table; [done|].
  cbn [fold_left fmap list_fmap fst snd]. apply IH.
Qed.

Lemma insert_all_in_order {V} (key : V -> Z) (table : list (Z * V)) :
  sorted table -> Forall (fun p => p.1 = key p.2) table ->
  insert_all key (table.*2) [] = table.
Proof.
  intros Hs Hk. rewrite insert_all_pairs, <- list_fmap_compose.
  replace ((fun v => (key v, v)) ∘ snd <$> table) with table; [by apply insert_in_order|].
  induction Hk as [|[k v] table Hp Hk IH]; [done|].
  cbn [fmap list_fmap compose snd fst] in *. rewrite Hp at 1. f_equal. apply IH.
  by apply sorted_tail in Hs.
Qed.

(** The side map built by [index_lights] from slot [i] on. *)
Lemma index_lights_lookup lights : forall i map e,
  index_lights i lights map !! e =
  match list_find (fun l => m_entity l = e) (reverse lights) with
  | Some (j, _) => Some (i + (length lights - 1 - j))%nat
  | None => map !! e
  end.
Proof.
  induction lights as [|l lights IH]; intros i map e; [done|].
  cbn [index_lights]. rewrite IH, reverse_cons.
  destruct (list_find (fun l0 => m_entity l0 = e) (reverse lights)) as [[j l']|] eqn:Hfind.
  - erewrite list_find_app_l by done. cbn [length].
    apply list_find_Some in Hfind as (Hj & _ & _). apply lookup_lt_Some in Hj.
    rewrite length_reverse in Hj. f_equal. lia.
  - rewrite list_find_app_r by done. cbn [list_find fmap option_fmap option_map].
    destruct (decide (m_entity l = e)) as [->|Hne].
    + cbn. rewrite lookup_insert_eq. rewrite length_reverse. cbn [length]. f_equal. lia.
    + cbn. by rewrite lookup_insert_ne.
Qed.

Lemma index_lights_indexed lights :
  NoDup (m_entity <$> lights) -> lights_indexed lights (index_lights 0 lights ∅).
Proof.
  intros Hnd e i. rewrite index_lights_lookup.
  destruct (list_find (fun l => m_entity l = e) (reverse lights)) as [[j l]|] eqn:Hfind.
  - apply list_find_Some in Hfind as (Hj & He & _).
    pose proof (lookup_lt_Some _ _ _ Hj) as Hlen. rewrite length_reverse in Hlen.
    rewrite reverse_lookup in Hj by done.
    replace (length lights - S j)%nat with (length lights - 1 - j)%nat in Hj by lia.
    split.
    + intros [= <-]. by exists l.
    + intros (l' & Hl' & He'). f_equal. cbn.
      apply (NoDup_lookup (m_entity <$> lights) _ _ e); [done| |].
      * by rewrite list_lookup_fmap, Hj; cbn; rewrite He.
      * by rewrite list_lookup_fmap, Hl'; cbn; rewrite He'.
  - rewrite lookup_empty. split; [done|]. intros (l & Hl & He).
    apply list_find_None in Hfind. rewrite Forall_forall in Hfind.
    exfalso. apply (Hfind l); [|done]. apply elem_of_reverse. by eapply list_elem_of_lookup_2.
Qed.

(** *** The sections of a scene *)

Section Sections.

Context {Terrain ParticleEmitter : Type}.
Variable model_is_ready : Z -> bool.
Variable model_materials : Z -> list (list Z).
Variable updateBoneAttachment : BoneAttachment -> outcome unit.
Variable terrain_bytes : Terrain -> list Z.
Variable terrain_deserialize : reader Terrain.
Variable emitter_bytes : ParticleEmitter -> list Z.
Variable emitter_deserialize : reader ParticleEmitter.
Variable emitter_entity : ParticleEmitter -> Entity.


Local Abbreviation Scene := (@Scene Terrain ParticleEmitter).

Definition count_ok {A} (items : list A) : Prop := Z.of_nat (length items) < 2 ^ 31.

(** What the stream keeps of a model instance: the persistent flags; the
    model by its path hash, loaded again, so that whether it is ready is what
    the resource manager says at load time; the material paths when the
    instance had meshes of its own and a ready model, in an array of its own
    again, which the flag [CUSTOM_MESHES] records. *)
Definition persisted_instance (r : ModelInstance) : ModelInstance :=
  let flags := Z.land (mi_flags r) FlagSet.PERSISTENT_FLAGS in
  if isValid (mi_entity r) then
    let reloaded :=
      match model r with
      | Some m => Some (mkModelRef (path_hash m) (model_is_ready (path_hash m)))
      | None => None
      end in
    match written_materials r with
    | [] => mkModelInstance (mi_entity r) flags reloaded None
    | paths =>
        mkModelInstance (mi_entity r) (FlagSet.set flags FlagSet.CUSTOM_MESHES) reloaded
          (Some paths)
    end
  else mkModelInstance (mi_entity r) flags None None.

(** An instance whose model can be bound at load time.  When the resource
    manager has the model ready, [setModel] runs [modelLoaded]: an instance
    flagged as a bone-attachment parent then needs its attachment in the
    receiving scene, with a forward update that returns; and the model has
    no more meshes than the instance has material paths in the stream. *)
Definition loadable (attachments : list (Z * BoneAttachment)) (r : ModelInstance) : Prop :=
  match model r with
  | Some m =>
      model_is_ready (path_hash m) = true ->
      (FlagSet.isSet (mi_flags r) FlagSet.IS_BONE_ATTACHMENT_PARENT = true ->
       exists attachment,
         aa_find (mi_entity r) attachments = Some attachment /\
         updateBoneAttachment attachment = Ok tt) /\
      (written_materials r <> [] ->
       (length (model_materials (path_hash m)) <= length (written_materials r))%nat)
  | None => True
  end.

Lemma written_materials_model r :
  model r = None -> written_materials r = [].
Proof. unfold written_materials, has_changed_materials. by intros ->. Qed.

Lemma parent_flag_persistent f :
  FlagSet.isSet (Z.land f FlagSet.PERSISTENT_FLAGS) FlagSet.IS_BONE_ATTACHMENT_PARENT =
  FlagSet.isSet f FlagSet.IS_BONE_ATTACHMENT_PARENT.
Proof. unfold FlagSet.isSet. by rewrite <- Z.land_assoc. Qed.

Lemma custom_flag_not_persistent f :
  FlagSet.isSet (Z.land f FlagSet.PERSISTENT_FLAGS) FlagSet.CUSTOM_MESHES = false.
Proof. unfold FlagSet.isSet. by rewrite <- Z.land_assoc, Z.land_0_r. Qed.

Lemma custom_flag_set f : FlagSet.isSet (FlagSet.set f FlagSet.CUSTOM_MESHES) FlagSet.CUSTOM_MESHES = true.
Proof.
  unfold FlagSet.isSet, FlagSet.set. rewrite Z.land_lor_distr_l.
  change (Z.land FlagSet.CUSTOM_MESHES FlagSet.CUSTOM_MESHES) with 1.
  apply negb_true_iff, Z.eqb_neq. intros H0. apply Z.lor_eq_0_iff in H0 as [_ H0]. done.
Qed.

Lemma to_i8_le v : -128 <= v -> to_i8 v <= v.
Proof.
  intros Hv. unfold to_i8. pose proof (Z.mod_le (v + 128) 256 ltac:(lia) ltac:(lia)). lia.
Qed.

(** The table with [r] in the slot after [table], the slot of entity [e]. *)
Local Definition with_last (s : Scene) (table : list ModelInstance) (r : ModelInstance)
  : Scene :=
  with_model_instances s (table ++ [r]).

Lemma instance_at_last (s : Scene) table r e :
  Z.of_nat (length table) = e -> instance_at (with_last s table r) e = Ok r.
Proof.
  intros He. unfold instance_at, with_last. cbn [m_model_instances with_model_instances].
  rewrite at_index_valid by (apply Z.leb_le; lia).
  replace (Z.to_nat e) with (length table) by lia. by rewrite list_lookup_middle.
Qed.

Lemma set_instance_last (s : Scene) table r r' e :
  Z.of_nat (length table) = e ->
  set_instance (with_last s table r) e r' = with_last s table r'.
Proof.
  intros He. unfold set_instance, with_last, with_model_instances.
  cbn [m_cameras m_model_instances m_point_lights m_point_lights_map m_global_lights
       m_active_global_light_entity m_terrains m_particle_emitters m_bone_attachments
       m_environment_probes m_decals m_text_meshes].
  replace (Z.to_nat e) with (length table + 0)%nat by lia.
  by rewrite insert_app_r.
Qed.

(** [setModel] for the element [deserializeModelInstances] has just
    appended. *)
Lemma setModel_last (s : Scene) table e flags path :
  Z.of_nat (length table) = e ->
  (model_is_ready path = true ->
   FlagSet.isSet flags FlagSet.IS_BONE_ATTACHMENT_PARENT = true ->
   exists attachment,
     aa_find e (m_bone_attachments s) = Some attachment /\
     updateBoneAttachment attachment = Ok tt) ->
  setModel model_is_ready updateBoneAttachment e path
    (with_last s table (mkModelInstance e flags None None)) =
  Ok (with_last s table
        (mkModelInstance e flags (Some (mkModelRef path (model_is_ready path))) None)).
Proof.
  intros He Hparent. unfold setModel.
  rewrite instance_at_last by done. cbn [bind mi_entity model mi_flags custom_materials].
  assert (isValid e = true) as -> by (apply Z.leb_le; lia). cbn [negb isReady].
  rewrite set_instance_last by done.
  destruct (model_is_ready path) eqn:Hready; [|done].
  unfold modelLoaded. rewrite instance_at_last by done. cbn [bind mi_flags].
  destruct (FlagSet.isSet flags FlagSet.IS_BONE_ATTACHMENT_PARENT) eqn:Hflag; [|done].
  destruct (Hparent eq_refl eq_refl) as (attachment & Hfind & Hupdate).
  change (m_bone_attachments (with_last s table _)) with (m_bone_attachments s).
  by rewrite Hfind, Hupdate.
Qed.

(** [setModelInstanceMaterial] on an instance with an array of its own that
    reaches the index. *)
Lemma setModelInstanceMaterial_own (s : Scene) table e flags m own j path :
  Z.of_nat (length table) = e ->
  FlagSet.isSet flags FlagSet.CUSTOM_MESHES = true ->
  0 <= j < Z.of_nat (length own) ->
  setModelInstanceMaterial model_materials e j path
    (with_last s table (mkModelInstance e flags (Some m) (Some own))) =
  Ok (with_last s table
        (mkModelInstance e flags (Some m) (Some (<[Z.to_nat j := path]> own)))).
Proof.
  intros He Hcustom Hj. unfold setModelInstanceMaterial.
  rewrite instance_at_last by done. cbn [bind].
  unfold mesh_count, meshes. cbn [custom_materials materials_of is_null negb andb model].
  assert ((j <? Z.of_nat (length own)) = true) as -> by (apply Z.ltb_lt; lia).
  assert ((j <? 0) = false) as -> by (apply Z.ltb_ge; lia).
  cbn [andb orb].
  rewrite at_index_valid by (apply Z.leb_le; lia).
  destruct (lookup_lt_is_Some_2 own (Z.to_nat j) ltac:(lia)) as [current Hcurrent].
  rewrite Hcurrent.
  destruct (negb (bool_decide (current = [])) && bool_decide (path = current)) eqn:Hsame.
  - apply andb_true_iff in Hsame as [_ Hsame]. apply bool_decide_eq_true in Hsame as ->.
    by rewrite list_insert_id.
  - rewrite Z.max_r by (pose proof (to_i8_le (j + 1)); lia).
    unfold allocateCustomMeshes, hasCustomMeshes, mesh_count, meshes.
    cbn [mi_flags custom_materials materials_of]. rewrite Hcustom, Z.eqb_refl.
    cbn [andb bind custom_materials mi_entity mi_flags model].
    assert ((Z.of_nat (length own) <=? j) = false) as -> by (apply Z.leb_gt; lia).
    cbn [orb]. by rewrite set_instance_last.
Qed.

(** The loop over the material paths overwrites the array slot by slot. *)
Lemma read_materials_bytes (s : Scene) table e flags m paths :
  Z.of_nat (length table) = e ->
  FlagSet.isSet flags FlagSet.CUSTOM_MESHES = true ->
  Forall string_ok paths ->
  forall j own fuel rest,
    0 <= j -> Z.of_nat (length own) = j + Z.of_nat (length paths) ->
    (length (concat (string_bytes <$> paths) ++ rest) <= fuel)%nat ->
    read_each (read_material model_materials e) fuel j (j + Z.of_nat (length paths))
      (with_last s table (mkModelInstance e flags (Some m) (Some own)))
      (concat (string_bytes <$> paths) ++ rest) =
    Ok (with_last s table
          (mkModelInstance e flags (Some m) (Some (take (Z.to_nat j) own ++ paths))),
        rest).
Proof.
  intros He Hcustom Hok. induction Hok as [|p ps Hp Hps IH]; intros j own fuel rest Hj Hlen Hfuel.
  - cbn [length] in *. destruct fuel; cbn [read_each];
      (assert ((j + Z.of_nat 0 <=? j) = true) as -> by (apply Z.leb_le; lia));
      unfold ret; rewrite app_nil_r, take_ge by lia; done.
  - cbn [fmap list_fmap concat length] in *. rewrite <- app_assoc in *.
    assert (0 < length (string_bytes p))%nat by (unfold string_bytes; cbn; lia).
    rewrite length_app in Hfuel. destruct fuel as [|fuel]; [lia|]. cbn [read_each].
    assert ((j + Z.of_nat (S (length ps)) <=? j) = false) as -> by (apply Z.leb_gt; lia).
    unfold read_material at 1.
    erewrite rbind_Ok; cycle 1.
    { erewrite rbind_Ok by (by apply readString_bytes).
      rewrite setModelInstanceMaterial_own by (done || lia). reflexivity. }
    replace (j + Z.of_nat (S (length ps))) with (j + 1 + Z.of_nat (length ps)) by lia.
    rewrite IH by (rewrite ?length_insert; lia).
    do 4 f_equal.
    replace (Z.to_nat (j + 1)) with (S (Z.to_nat j)) by lia.
    rewrite (take_S_r _ _ p) by (apply list_lookup_insert_eq; lia).
    rewrite take_insert_ge by lia. by rewrite <- app_assoc.
Qed.

(** One element of the model-instance section, read into a table that holds
    the elements before it. *)
Lemma read_ModelInstance_bytes (s : Scene) i r rest :
  Z.of_nat (length (m_model_instances s)) = i ->
  ModelInstance_ok r ->
  mi_entity r = i \/ mi_entity r = INVALID_ENTITY ->
  loadable (m_bone_attachments s) r ->
  read_ModelInstance model_is_ready model_materials updateBoneAttachment i s
    (ModelInstance_bytes r ++ rest) =
  Ok (with_last s (m_model_instances s) (persisted_instance r), rest).
Proof.
  intros Hi (He & Hm & Hs & Hc) Hpos Hload.
  unfold read_ModelInstance, ModelInstance_bytes, persisted_instance.
  rewrite <- !app_assoc.
  erewrite rbind_Ok
    by (apply read_entity_le; unfold i32, INVALID_ENTITY in *; lia).
  erewrite rbind_Ok by (apply read_u8_le, flags_byte).
  cbv zeta. rewrite flags_masked_twice.
  set (flags := Z.land (mi_flags r) FlagSet.PERSISTENT_FLAGS).
  destruct He as [He | He].
  - rewrite He. change (isValid INVALID_ENTITY) with false.
    change (INVALID_ENTITY =? INVALID_ENTITY) with true. cbn [negb].
    rewrite orb_true_r. done.
  - assert (mi_entity r = i) as Hei by (unfold INVALID_ENTITY in Hpos; lia).
    assert (isValid (mi_entity r) = true) as -> by (apply Z.leb_le; lia).
    assert ((mi_entity r =? INVALID_ENTITY) = false) as ->
      by (apply Z.eqb_neq; unfold INVALID_ENTITY; lia).
    rewrite Hei, Z.eqb_refl. cbn [orb negb].
    fold (written_materials r). unfold section. rewrite <- !app_assoc.
    fold (with_last s (m_model_instances s) (mkModelInstance i flags None None)).
    destruct (model r) as [m|] eqn:Hmodel.
    + erewrite rbind_Ok by (apply read_u32_le; unfold u32; lia).
      assert ((path_hash m =? 0) = false) as -> by (apply Z.eqb_neq; lia).
      cbn [negb].
      unfold loadable in Hload. rewrite Hmodel, Hei in Hload.
      rewrite setModel_last; [|done|]; cycle 1.
      { intros Hready Hflag. apply Hload; [done|].
        unfold flags in Hflag. by rewrite parent_flag_persistent in Hflag. }
      unfold lift at 1. unfold rbind at 1.
      erewrite rbind_Ok by (apply read_i32_le; unfold i32; lia).
      destruct (written_materials r) as [|p ps] eqn:Hw; [done|].
      assert ((0 <? Z.of_nat (length (p :: ps))) = true) as ->
        by (apply Z.ltb_lt; cbn [length]; lia).
      rewrite instance_at_last by (cbn [m_model_instances with_last with_model_instances]; lia).
      cbn [bind].
      set (reloaded := mkModelRef (path_hash m) (model_is_ready (path_hash m))).
      assert (mesh_count model_materials (mkModelInstance i flags (Some reloaded) None)
              <= Z.of_nat (length (p :: ps))) as Hfits.
      { unfold mesh_count, meshes. cbn [custom_materials model isReady reloaded].
        destruct (model_is_ready (path_hash m)) eqn:Hready; [|cbn; lia].
        cbn [materials_of]. destruct (Hload eq_refl) as [_ Hmeshes].
        specialize (Hmeshes ltac:(done)). unfold reloaded. cbn [path_hash]. lia. }
      unfold allocateCustomMeshes at 1. unfold hasCustomMeshes.
      cbn [mi_flags model mi_entity]. unfold flags at 1.
      rewrite custom_flag_not_persistent. cbn [andb].
      assert ((Z.of_nat (length (p :: ps)) <?
               mesh_count model_materials (mkModelInstance i flags (Some reloaded) None))
              = false) as -> by (apply Z.ltb_ge; lia).
      cbn [bind]. rewrite set_instance_last by done.
      unfold lift at 1. unfold rbind at 1.
      pose proof (read_materials_bytes s (m_model_instances s) i
                    (FlagSet.set flags FlagSet.CUSTOM_MESHES) reloaded (p :: ps)
                    Hi (custom_flag_set _) Hs 0) as Hloop.
      change (Z.to_nat 0) with 0%nat in Hloop. cbn [take app] in Hloop.
      rewrite Z.add_0_l in Hloop.
      apply Hloop; [lia| |apply Nat.le_refl].
      rewrite length_app, length_replicate. unfold mesh_count in *. lia.
    + rewrite (written_materials_model r Hmodel). cbn [length fmap list_fmap concat app].
      erewrite rbind_Ok by (apply read_u32_le; unfold u32; lia).
      rewrite Z.eqb_refl. cbn [negb]. unfold lift at 1. unfold rbind at 1.
      erewrite rbind_Ok by (apply read_i32_le; unfold i32; lia).
      done.
Qed.

(** The loop of [deserializeModelInstances] from element [i] on. *)
Lemma read_instances_bytes (B : list (Z * BoneAttachment)) (items : list ModelInstance) :
  forall (s : Scene) i fuel rest,
    Z.of_nat (length (m_model_instances s)) = i ->
    m_bone_attachments s = B ->
    Forall ModelInstance_ok items ->
    (forall (k : nat) r, items !! k = Some r ->
       mi_entity r = i + Z.of_nat k \/ mi_entity r = INVALID_ENTITY) ->
    Forall (loadable B) items ->
    (length (concat (ModelInstance_bytes <$> items) ++ rest) <= fuel)%nat ->
    read_each (read_ModelInstance model_is_ready model_materials updateBoneAttachment)
      fuel i (i + Z.of_nat (length items)) s (concat (ModelInstance_bytes <$> items) ++ rest) =
    Ok (with_model_instances s (m_model_instances s ++ (persisted_instance <$> items)), rest).
Proof.
  induction items as [|r items IH]; intros s i fuel rest Hi HB Hok Hpos Hload Hfuel.
  - cbn [length fmap list_fmap concat app]. rewrite app_nil_r.
    assert (with_model_instances s (m_model_instances s) = s) as -> by (by destruct s).
    destruct fuel; cbn [read_each];
      (assert ((i + Z.of_nat 0 <=? i) = true) as -> by (apply Z.leb_le; lia)); done.
  - apply Forall_cons in Hok as [Hr Hok]. apply Forall_cons in Hload as [Hlr Hload].
    cbn [fmap list_fmap concat length] in *. rewrite <- app_assoc in *.
    assert (0 < length (ModelInstance_bytes r))%nat
      by (unfold ModelInstance_bytes; rewrite length_app, le_length; lia).
    rewrite length_app in Hfuel. destruct fuel as [|fuel]; [lia|]. cbn [read_each].
    assert ((i + Z.of_nat (S (length items)) <=? i) = false) as -> by (apply Z.leb_gt; lia).
    erewrite rbind_Ok; cycle 1.
    { apply read_ModelInstance_bytes; [done|done| |by rewrite HB].
      specialize (Hpos 0%nat r eq_refl). by rewrite Z.add_0_r in Hpos. }
    replace (i + Z.of_nat (S (length items))) with (i + 1 + Z.of_nat (length items)) by lia.
    rewrite IH; [| |done|done| |done|lia].
    + unfold with_last, with_model_instances.
      cbn [m_cameras m_model_instances m_point_lights m_point_lights_map m_global_lights
           m_active_global_light_entity m_terrains m_particle_emitters m_bone_attachments
           m_environment_probes m_decals m_text_meshes].
      by rewrite <- app_assoc.
    + unfold with_last. cbn [m_model_instances with_model_instances].
      rewrite length_app. cbn [length]. lia.
    + intros k r' Hk. specialize (Hpos (S k) r' Hk). lia.
Qed.

Lemma deserializeModelInstances_section (s s0 : Scene) rest :
  Forall ModelInstance_ok (m_model_instances s) -> count_ok (m_model_instances s) ->
  positions_ok (m_model_instances s) ->
  Forall (loadable (m_bone_attachments s0)) (m_model_instances s) ->
  m_model_instances s0 = [] ->
  deserializeModelInstances model_is_ready model_materials updateBoneAttachment s0
    (model_instances_section s ++ rest) =
  Ok (mkScene (m_cameras s0) (persisted_instance <$> m_model_instances s)
        (m_point_lights s0) (m_point_lights_map s0) (m_global_lights s0)
        (m_active_global_light_entity s0) (m_terrains s0) (m_particle_emitters s0)
        (m_bone_attachments s0) (m_environment_probes s0) (m_decals s0) (m_text_meshes s0),
      rest).
Proof.
  intros Hok Hcount Hpos Hload Hempty.
  unfold deserializeModelInstances, read_count_then_each, model_instances_section, section.
  rewrite <- app_assoc.
  erewrite rbind_Ok by (apply read_i32_le; unfold i32, count_ok in *; lia).
  pose proof (read_instances_bytes (m_bone_attachments s0) (m_model_instances s) s0 0
                (length (concat (ModelInstance_bytes <$> m_model_instances s) ++ rest)) rest)
    as Hloop.
  rewrite Z.add_0_l in Hloop. rewrite Hloop.
  - unfold with_model_instances. by rewrite Hempty.
  - by rewrite Hempty.
  - done.
  - done.
  - intros k r Hk. rewrite Z.add_0_l. by apply (Hpos k).
  - done.
  - done.
Qed.

Ltac scene_fields :=
  cbn [m_cameras m_model_instances m_point_lights m_point_lights_map m_global_lights
       m_active_global_light_entity m_terrains m_particle_emitters m_bone_attachments
       m_environment_probes m_decals m_text_meshes app].

Lemma deserializeCameras_section (s s0 : Scene) rest :
  Forall Camera_ok (m_cameras s) -> count_ok (m_cameras s) ->
  deserializeCameras s0 (cameras_section s ++ rest) =
  Ok (mkScene (m_cameras s0 ++ (persisted_camera <$> m_cameras s)) (m_model_instances s0)
        (m_point_lights s0) (m_point_lights_map s0) (m_global_lights s0)
        (m_active_global_light_entity s0) (m_terrains s0) (m_particle_emitters s0)
        (m_bone_attachments s0) (m_environment_probes s0) (m_decals s0) (m_text_meshes s0),
      rest).
Proof.
  intros Hok Hcount. unfold deserializeCameras, cameras_section.
  erewrite rbind_Ok; [done|]. apply read_section; [|  |done].
  - eapply Forall_impl; [exact Hok|]. intros c Hc tail. by apply read_Camera_bytes.
  - apply Forall_forall. intros c _. apply le_nonempty.
Qed.

Lemma deserializeLights_section (s s0 : Scene) rest :
  Forall PointLight_ok (m_point_lights s) -> count_ok (m_point_lights s) ->
  Forall GlobalLight_ok (m_global_lights s) -> count_ok (m_global_lights s) ->
  i32 (m_active_global_light_entity s) ->
  deserializeLights s0 (lights_section s ++ rest) =
  Ok (mkScene (m_cameras s0) (m_model_instances s0) (m_point_lights s)
        (index_lights 0 (m_point_lights s) (m_point_lights_map s0))
        (m_global_lights s0 ++ m_global_lights s) (m_active_global_light_entity s)
        (m_terrains s0) (m_particle_emitters s0) (m_bone_attachments s0)
        (m_environment_probes s0) (m_decals s0) (m_text_meshes s0),
      rest).
Proof.
  intros Hp Hpn Hg Hgn Ha. unfold deserializeLights, lights_section.
  rewrite <- !app_assoc.
  erewrite rbind_Ok; cycle 1.
  { apply (read_section _ _ id); [| |done].
    - eapply Forall_impl; [exact Hp|]. intros l Hl tail. by apply read_PointLight_bytes.
    - apply Forall_forall. intros l _. unfold PointLight_bytes, Vec3_bytes.
      rewrite <- !app_assoc. apply le_nonempty. }
  erewrite rbind_Ok; cycle 1.
  { apply (read_section _ _ id); [| |done].
    - eapply Forall_impl; [exact Hg|]. intros l Hl tail. by apply read_GlobalLight_bytes.
    - apply Forall_forall. intros l _. unfold GlobalLight_bytes, Vec3_bytes.
      rewrite <- !app_assoc. apply le_nonempty. }
  erewrite rbind_Ok by (by apply read_entity_le).
  by rewrite !list_fmap_id.
Qed.

Lemma deserializeBoneAttachments_section (s s0 : Scene) rest :
  Forall BoneAttachment_ok (m_bone_attachments s) -> count_ok (m_bone_attachments s) ->
  sorted (m_bone_attachments s) ->
  deserializeBoneAttachments s0 (bone_attachments_section s ++ rest) =
  Ok (mkScene (m_cameras s0) (m_model_instances s0) (m_point_lights s0)
        (m_point_lights_map s0) (m_global_lights s0) (m_active_global_light_entity s0)
        (m_terrains s0) (m_particle_emitters s0) (m_bone_attachments s)
        (m_environment_probes s0) (m_decals s0) (m_text_meshes s0),
      rest).
Proof.
  intros Hok Hcount Hs. unfold deserializeBoneAttachments, bone_attachments_section.
  erewrite rbind_Ok; cycle 1.
  { apply (read_section _ _ snd); [| |done].
    - eapply Forall_impl; [exact Hok|]. intros a Ha tail. by apply read_BoneAttachment_bytes.
    - apply Forall_forall. intros a _. apply le_nonempty. }
  unfold ret. rewrite insert_all_in_order; [done|done|].
  eapply Forall_impl; [exact Hok|]. by intros a (Hk & _).
Qed.

(** An empty decal section is read without a change of the scene. *)
Lemma deserializeDecals_none (s s0 : Scene) rest :
  m_decals s = [] ->
  deserializeDecals s0 (decals_section s ++ rest) = Ok (s0, rest).
Proof.
  intros Hnone. unfold deserializeDecals, read_count_then_each, decals_section, section.
  rewrite Hnone. cbn [length fmap list_fmap concat app]. rewrite <- app_assoc.
  erewrite rbind_Ok by (by apply read_i32_le).
  by destruct (length ([] ++ rest)).
Qed.

(** The first decal of a section is read, and [updateDecalInfo] stops the
    loop. *)
Lemma deserializeDecals_first (s s0 : Scene) rest :
  Forall Decal_ok (m_decals s) -> count_ok (m_decals s) -> m_decals s <> [] ->
  deserializeDecals s0 (decals_section s ++ rest) = Fault AssertionFailed.
Proof.
  intros Hok Hcount Hsome.
  unfold deserializeDecals, read_count_then_each, decals_section, section.
  destruct (m_decals s) as [|d ds]; [done|]. clear Hsome.
  apply Forall_cons in Hok as [(_ & He & Hs & Hm) _]. pose proof (path_string_ok _ Hm) as Hstr.
  rewrite <- app_assoc.
  erewrite rbind_Ok by (apply read_i32_le; unfold i32, count_ok in *; lia).
  cbn [fmap list_fmap concat length]. unfold Decal_bytes at 1. rewrite <- !app_assoc.
  rewrite length_app, le_length. cbn [Nat.add read_each].
  assert ((Z.of_nat (S (length ds)) <=? 0) = false) as -> by (apply Z.leb_gt; lia).
  unfold rbind at 1. unfold read_Decal.
  by repeat read_next.
Qed.

Lemma persisted_text_meshes_sorted (table : list (Z * TextMesh)) :
  sorted table -> sorted (persisted_text_mesh <$> table).
Proof.
  intros Hs i j p q Hp Hq Hij. rewrite list_lookup_fmap in Hp, Hq.
  destruct (table !! i) as [p0|] eqn:Hp0; [|done].
  destruct (table !! j) as [q0|] eqn:Hq0; [|done].
  cbn in Hp, Hq. injection Hp as <-. injection Hq as <-. cbn [persisted_text_mesh fst].
  by apply (Hs i j).
Qed.

Lemma deserializeTextMeshes_section (s s0 : Scene) rest :
  Forall TextMesh_ok (m_text_meshes s) -> count_ok (m_text_meshes s) ->
  sorted (m_text_meshes s) -> m_text_meshes s0 = [] ->
  deserializeTextMeshes s0 (text_meshes_section s ++ rest) =
  Ok (mkScene (m_cameras s0) (m_model_instances s0) (m_point_lights s0)
        (m_point_lights_map s0) (m_global_lights s0) (m_active_global_light_entity s0)
        (m_terrains s0) (m_particle_emitters s0) (m_bone_attachments s0)
        (m_environment_probes s0) (m_decals s0) (persisted_text_mesh <$> m_text_meshes s),
      rest).
Proof.
  intros Hok Hcount Hs Hempty. unfold deserializeTextMeshes, text_meshes_section.
  erewrite rbind_Ok; cycle 1.
  { apply (read_section _ _ persisted_text_mesh); [| |done].
    - eapply Forall_impl; [exact Hok|]. intros a Ha tail. by apply read_TextMesh_bytes.
    - apply Forall_forall. intros a _. apply le_nonempty. }
  unfold ret. rewrite Hempty, insert_in_order; [done|].
  by apply persisted_text_meshes_sorted.
Qed.

Lemma deserializeEnvironmentProbes_none (s s0 : Scene) rest :
  m_environment_probes s = [] ->
  deserializeEnvironmentProbes s0 (environment_probes_section s ++ rest) =
  Ok (mkScene (m_cameras s0) (m_model_instances s0) (m_point_lights s0)
        (m_point_lights_map s0) (m_global_lights s0) (m_active_global_light_entity s0)
        (m_terrains s0) (m_particle_emitters s0) (m_bone_attachments s0)
        (m_environment_probes s0) (m_decals s0) (m_text_meshes s0),
      rest).
Proof.
  intros Hnone. unfold deserializeEnvironmentProbes, environment_probes_section.
  rewrite Hnone. erewrite rbind_Ok; cycle 1.
  { by apply (read_section _ EnvironmentProbe_bytes id []). }
  done.
Qed.

Section Codecs.

(** The codecs of the terrains and of the particle emitters, which belong to
    other files: what is written is read back, and an element takes at least
    one byte. *)
Hypothesis terrain_codec :
  forall t rest, terrain_deserialize (terrain_bytes t ++ rest) = Ok (t, rest).
Hypothesis terrain_nonempty : forall t, terrain_bytes t <> [].
Hypothesis emitter_codec :
  forall e rest, emitter_deserialize (emitter_bytes e ++ rest) = Ok (e, rest).
Hypothesis emitter_nonempty : forall e, emitter_bytes e <> [].

Lemma deserializeTerrains_section (s s0 : Scene) rest :
  count_ok (m_terrains s) ->
  deserializeTerrains terrain_deserialize s0 (terrains_section terrain_bytes s ++ rest) =
  Ok (mkScene (m_cameras s0) (m_model_instances s0) (m_point_lights s0)
        (m_point_lights_map s0) (m_global_lights s0) (m_active_global_light_entity s0)
        (m_terrains s0 ++ m_terrains s) (m_particle_emitters s0) (m_bone_attachments s0)
        (m_environment_probes s0) (m_decals s0) (m_text_meshes s0),
      rest).
Proof.
  intros Hcount. unfold deserializeTerrains, terrains_section.
  erewrite rbind_Ok; cycle 1.
  { apply (read_section _ _ id); [| |done].
    - apply Forall_forall. intros t _ tail. apply terrain_codec.
    - apply Forall_forall. intros t _. apply terrain_nonempty. }
  by rewrite list_fmap_id.
Qed.

(** An emitter table that can be written: every emitter is kept under its
    own entity, which is valid. *)
Definition emitter_ok (e : Z * ParticleEmitter) : Prop :=
  e.1 = emitter_entity e.2 /\ 0 <= e.1.

Lemma deserializeParticleEmitters_section (s s0 : Scene) rest :
  Forall emitter_ok (m_particle_emitters s) -> count_ok (m_particle_emitters s) ->
  sorted (m_particle_emitters s) -> m_particle_emitters s0 = [] ->
  deserializeParticleEmitters emitter_deserialize emitter_entity s0
    (particle_emitters_section emitter_bytes s ++ rest) =
  Ok (mkScene (m_cameras s0) (m_model_instances s0) (m_point_lights s0)
        (m_point_lights_map s0) (m_global_lights s0) (m_active_global_light_entity s0)
        (m_terrains s0) (m_particle_emitters s) (m_bone_attachments s0)
        (m_environment_probes s0) (m_decals s0) (m_text_meshes s0),
      rest).
Proof.
  intros Hok Hcount Hs Hempty.
  unfold deserializeParticleEmitters, particle_emitters_section.
  erewrite rbind_Ok; cycle 1.
  { apply (read_section _ _ snd); [| |done].
    - apply Forall_forall. intros e _ tail. apply emitter_codec.
    - apply Forall_forall. intros e _. apply emitter_nonempty. }
  cbv zeta. unfold ret.
  assert (filter (fun e => isValid (emitter_entity e) = true) ((m_particle_emitters s).*2)
          = (m_particle_emitters s).*2) as ->.
  { clear Hs Hcount. induction Hok as [|e l (Hk & Hv) Hok IH]; [done|].
    cbn [fmap list_fmap]. rewrite filter_cons_True; [by rewrite IH|].
    apply Z.leb_le. by rewrite <- Hk. }
  rewrite Hempty, insert_all_in_order; [done|done|].
  eapply Forall_impl; [exact Hok|]. by intros e (Hk & _).
Qed.

(** A scene that can be written and read back into a new scene: in the
    model-instance table array position equals entity index, and no instance
    with a model that is ready at load time is flagged as a bone-attachment
    parent, since the bone attachments are read after the model instances. *)
Definition scene_ok (s : Scene) : Prop :=
  (Forall Camera_ok (m_cameras s) /\ count_ok (m_cameras s)) /\
  (Forall ModelInstance_ok (m_model_instances s) /\ count_ok (m_model_instances s) /\
   positions_ok (m_model_instances s) /\ Forall (loadable []) (m_model_instances s)) /\
  (Forall PointLight_ok (m_point_lights s) /\ count_ok (m_point_lights s)) /\
  (Forall GlobalLight_ok (m_global_lights s) /\ count_ok (m_global_lights s)) /\
  i32 (m_active_global_light_entity s) /\
  count_ok (m_terrains s) /\
  (Forall emitter_ok (m_particle_emitters s) /\ count_ok (m_particle_emitters s) /\
   sorted (m_particle_emitters s)) /\
  (Forall BoneAttachment_ok (m_bone_attachments s) /\ count_ok (m_bone_attachments s) /\
   sorted (m_bone_attachments s)) /\
  (Forall TextMesh_ok (m_text_meshes s) /\ count_ok (m_text_meshes s) /\
   sorted (m_text_meshes s)).

(** The scene a stream is read back to. *)
Definition persisted_scene (s : Scene) : Scene :=
  mkScene (persisted_camera <$> m_cameras s) (persisted_instance <$> m_model_instances s)
    (m_point_lights s) (index_lights 0 (m_point_lights s) ∅) (m_global_lights s)
    (m_active_global_light_entity s) (m_terrains s) (m_particle_emitters s)
    (m_bone_attachments s) [] [] (persisted_text_mesh <$> m_text_meshes s).

Lemma serialize_sections (s : Scene) b :
  serialize terrain_bytes emitter_bytes s b =
  b ++ cameras_section s ++ model_instances_section s ++ lights_section s
  ++ terrains_section terrain_bytes s ++ particle_emitters_section emitter_bytes s
  ++ bone_attachments_section s ++ environment_probes_section s ++ decals_section s
  ++ text_meshes_section s ++ [].
Proof.
  unfold serialize.
  rewrite serializeCameras_layout, serializeModelInstances_layout, serializeLights_layout,
    serializeTerrains_layout, serializeParticleEmitters_layout,
    serializeBoneAttachments_layout, serializeEnvironmentProbes_layout,
    serializeDecals_layout, serializeTextMeshes_layout.
  by rewrite <- !app_assoc, app_nil_r.
Qed.


End Codecs.

(** X17. The cameras written by [serializeCameras], read by
    [deserializeCameras] into a scene without cameras: every camera comes
    back with its entity, far and near planes, field of view, orthographic
    flag and size; its aspect ratio and screen size are not in the stream,
    and the camera read is never given any.  The bytes that follow the
    section are left unread and the other tables of the receiving scene are
    untouched. *)
Theorem cameras_round_trip (s s0 : Scene) rest :
  Forall Camera_ok (m_cameras s) -> count_ok (m_cameras s) -> m_cameras s0 = [] ->
  deserializeCameras s0 (serializeCameras s [] ++ rest) =
  Ok (mkScene (persisted_camera <$> m_cameras s) (m_model_instances s0)
        (m_point_lights s0) (m_point_lights_map s0) (m_global_lights s0)
        (m_active_global_light_entity s0) (m_terrains s0) (m_particle_emitters s0)
        (m_bone_attachments s0) (m_environment_probes s0) (m_decals s0) (m_text_meshes s0),
      rest) /\
  Forall (fun c => aspect c = None /\ screen_width c = None /\ screen_height c = None)
    (persisted_camera <$> m_cameras s).
Proof.
  intros Hok Hcount Hempty. split.
  - rewrite serializeCameras_layout. cbn [app].
    rewrite deserializeCameras_section by done. by rewrite Hempty.
  - apply Forall_fmap, Forall_forall. by intros c _.
Qed.


(** X19. The lights written by [serializeLights], read by [deserializeLights]
    into a scene without global lights: the point lights replace the
    receiving scene's, the global lights and the active global light come
    back as written, and every point light is entered in the side map under
    its slot.  When the receiving side map is empty and no two point lights
    share an entity, the side map read agrees with the array. *)
Theorem lights_round_trip (s s0 : Scene) rest :
  Forall PointLight_ok (m_point_lights s) -> count_ok (m_point_lights s) ->
  Forall GlobalLight_ok (m_global_lights s) -> count_ok (m_global_lights s) ->
  i32 (m_active_global_light_entity s) -> m_global_lights s0 = [] ->
  deserializeLights s0 (serializeLights s [] ++ rest) =
  Ok (mkScene (m_cameras s0) (m_model_instances s0) (m_point_lights s)
        (index_lights 0 (m_point_lights s) (m_point_lights_map s0))
        (m_global_lights s) (m_active_global_light_entity s)
        (m_terrains s0) (m_particle_emitters s0) (m_bone_attachments s0)
        (m_environment_probes s0) (m_decals s0) (m_text_meshes s0),
      rest) /\
  (m_point_lights_map s0 = ∅ -> NoDup (m_entity <$> m_point_lights s) ->
   lights_indexed (m_point_lights s)
     (index_lights 0 (m_point_lights s) (m_point_lights_map s0))).
Proof.
  intros Hp Hpn Hg Hgn Ha Hempty. split.
  - rewrite serializeLights_layout. cbn [app].
    rewrite deserializeLights_section by done. by rewrite Hempty.
  - intros -> Hnd. by apply index_lights_indexed.
Qed.

(** X20. The bone attachments written by [serializeBoneAttachments], read by
    [deserializeBoneAttachments] into any scene: the table read is the table
    written, whatever the receiving scene held, provided every attachment
    is kept under its own entity. *)
Theorem bone_attachments_round_trip (s s0 : Scene) rest :
  Forall BoneAttachment_ok (m_bone_attachments s) -> count_ok (m_bone_attachments s) ->
  sorted (m_bone_attachments s) ->
  deserializeBoneAttachments s0 (serializeBoneAttachments s [] ++ rest) =
  Ok (mkScene (m_cameras s0) (m_model_instances s0) (m_point_lights s0)
        (m_point_lights_map s0) (m_global_lights s0) (m_active_global_light_entity s0)
        (m_terrains s0) (m_particle_emitters s0) (m_bone_attachments s)
        (m_environment_probes s0) (m_decals s0) (m_text_meshes s0),
      rest).
Proof.
  intros Hok Hcount Hs. rewrite serializeBoneAttachments_layout. cbn [app].
  by apply deserializeBoneAttachments_section.
Qed.

(** X21. The decals written by [serializeDecals] are not read back:
    [deserializeDecals] reads the first decal of the section and then runs
    [updateDecalInfo], whose assertion fails.  A section without decals is
    read without a change of the receiving scene, and the bytes that follow
    it are left unread. *)
Theorem decals_stop_at_assertion (s s0 : Scene) rest :
  Forall Decal_ok (m_decals s) -> count_ok (m_decals s) ->
  (m_decals s = [] ->
   deserializeDecals s0 (serializeDecals s [] ++ rest) = Ok (s0, rest)) /\
  (m_decals s <> [] ->
   deserializeDecals s0 (serializeDecals s [] ++ rest) = Fault AssertionFailed).
Proof.
  intros Hok Hcount. rewrite serializeDecals_layout. cbn [app]. split.
  - apply deserializeDecals_none.
  - by apply deserializeDecals_first.
Qed.

(** X22. The text meshes written by [serializeTextMeshes], read by
    [deserializeTextMeshes] into a scene without text meshes: every text
    mesh comes back under its entity with its font, colour, font size and
    text; its flags are not in the stream and are those of a new text
    mesh. *)
Theorem text_meshes_round_trip (s s0 : Scene) rest :
  Forall TextMesh_ok (m_text_meshes s) -> count_ok (m_text_meshes s) ->
  sorted (m_text_meshes s) -> m_text_meshes s0 = [] ->
  deserializeTextMeshes s0 (serializeTextMeshes s [] ++ rest) =
  Ok (mkScene (m_cameras s0) (m_model_instances s0) (m_point_lights s0)
        (m_point_lights_map s0) (m_global_lights s0) (m_active_global_light_entity s0)
        (m_terrains s0) (m_particle_emitters s0) (m_bone_attachments s0)
        (m_environment_probes s0) (m_decals s0) (persisted_text_mesh <$> m_text_meshes s),
      rest).
Proof.
  intros Hok Hcount Hs Hempty. rewrite serializeTextMeshes_layout. cbn [app].
  by apply deserializeTextMeshes_section.
Qed.

End Sections.

(** *** A furnished scene

    A camera with an aspect ratio and a screen size; a model instance with a
    ready model, the runtime flag and a material of its own, a hole, and an
    instance without model; a point light, a global light, a terrain, a
    particle emitter, a bone attachment and a text mesh with a flag.  No
    environment probe and no decal.  A terrain and an emitter are one byte in
    the stream; the emitter's entity is 5.  At load time every model is ready
    and has one mesh, and every forward update returns. *)

Definition unit_bytes (_ : unit) : list Z := le 1 0.
Definition unit_deserialize : reader unit := do _ <- read_u8; ret tt.
Definition emitter_5 (_ : unit) : Entity := 5.
Definition always_ready (_ : Z) : bool := true.
Definition one_mesh (_ : Z) : list (list Z) := [[109; 48]].
Definition update_returns (_ : BoneAttachment) : outcome unit := Ok tt.

Definition furnished_scene : @Scene unit unit :=
  mkScene
    [mkCamera 1 1065353216 (Some 1068149419) 1036831949 1176256512 1092616192
       (Some 800) (Some 600) false]
    [mkModelInstance 0 9 (Some (mkModelRef 77 true)) (Some [[109; 49]]);
     mkModelInstance (-1) 0 None None;
     mkModelInstance 2 8 None None]
    [mkPointLight (mkVec3 1 2 3) (mkVec3 4 5 6) 7 8 2 9 10 11 true]
    {[ 2 := 0%nat ]}
    [mkGlobalLight (mkVec3 1 1 1) 0 1 (mkVec3 1 1 1) 0 0 10 3 (mkVec4 3 8 100 300)]
    3 [tt] [(5, tt)]
    [(4, mkBoneAttachment 4 (-1) (-1) (mkRigid (mkVec3 0 0 0) (mkVec4 0 0 0 1)))]
    []
    []
    [(7, mkTextMesh (Some [102; 46; 116; 116; 102]) 4278190080 13 [104; 105] 1)].

(** The furnished scene with two decals, one of them without material. *)
Definition decorated_scene : @Scene unit unit :=
  mkScene (m_cameras furnished_scene) (m_model_instances furnished_scene)
    (m_point_lights furnished_scene) (m_point_lights_map furnished_scene)
    (m_global_lights furnished_scene) (m_active_global_light_entity furnished_scene)
    (m_terrains furnished_scene) (m_particle_emitters furnished_scene)
    (m_bone_attachments furnished_scene) []
    [(6, mkDecal 6 (mkVec3 1 1 1) (Some [109; 46; 109; 97; 116]));
     (8, mkDecal 8 (mkVec3 1 1 1) None)]
    (m_text_meshes furnished_scene).

Lemma unit_codec (t : unit) rest : unit_deserialize (unit_bytes t ++ rest) = Ok (t, rest).
Proof.
  unfold unit_deserialize, unit_bytes.
  erewrite rbind_Ok by (by apply read_u8_le). by destruct t.
Qed.

Lemma unit_nonempty (t : unit) : unit_bytes t <> [].
Proof. done. Qed.

Ltac fits :=
  repeat
    match goal with
    | |- _ /\ _ => split
    | |- Forall _ [] => constructor
    | |- Forall _ (_ :: _) => constructor
    | |- sorted [] => apply sorted_nil
    | |- sorted (_ :: _) => apply sorted_cons
    | |- True => exact I
    | |- _ <> _ => discriminate
    | |- _ = _ => reflexivity
    | |- _ <= _ => lia
    | |- _ < _ => lia
    | |- (_ <= _)%nat => lia
    | |- _ \/ _ => first [left; lia | right; lia]
    | |- _ -> _ =>
        let H := fresh in intros H; try (vm_compute in H; discriminate H)
    | |- _ =>
        progress
          (cbn;
           unfold scene_ok, count_ok, emitter_ok, Camera_ok, ModelInstance_ok, loadable,
             PointLight_ok, GlobalLight_ok, BoneAttachment_ok, Decal_ok, TextMesh_ok,
             Vec3_ok, Vec4_ok, path_ok, string_ok, u8, u16, u32, i32, INVALID_ENTITY;
           cbn)
    end.

Lemma furnished_positions : positions_ok (m_model_instances furnished_scene).
Proof.
  intros i r Hr. destruct i as [|[|[|i]]]; cbn in Hr; [| | |done];
    injection Hr as <-; cbn; unfold INVALID_ENTITY; lia.
Qed.

Lemma furnished_scene_ok :
  scene_ok always_ready one_mesh update_returns emitter_5 furnished_scene.
Proof.
  unfold scene_ok. split; [unfold furnished_scene; fits|].
  split; [|unfold furnished_scene; fits].
  split; [unfold furnished_scene; fits|]. split; [unfold furnished_scene; fits|].
  split; [exact furnished_positions|]. unfold furnished_scene. fits.
Qed.

Lemma cameras_round_trip_witness :
  deserializeCameras empty (serializeCameras furnished_scene [] ++ [42]) =
  Ok (mkScene [mkCamera 1 1065353216 None 1036831949 1176256512 1092616192 None None false]
        [] [] ∅ [] INVALID_ENTITY [] [] [] [] [] [] : @Scene unit unit,
      [42]).
Proof.
  destruct furnished_scene_ok as ((Hok & Hcount) & _).
  destruct (cameras_round_trip furnished_scene empty [42] Hok Hcount eq_refl) as [Hread _].
  etrans; [exact Hread|reflexivity].
Defined.


(** An instance flagged as a bone-attachment parent, with a model that is
    ready at load time: [setModel] runs [modelLoaded], which looks the
    entity up in a bone-attachment table that has not been read yet. *)
Lemma flagged_parent_is_not_read_back :
  deserializeModelInstances always_ready one_mesh update_returns empty
    (serializeModelInstances
       (mkScene [] [mkModelInstance 0 12 (Some (mkModelRef 77 true)) None]
          [] ∅ [] INVALID_ENTITY [] [] [] [] [] [] : @Scene unit unit) []) =
  Fault MissingComponent.
Proof. vm_compute. reflexivity. Qed.

Lemma lights_round_trip_witness :
  deserializeLights empty (serializeLights furnished_scene [] ++ [42]) =
  Ok (mkScene [] [] (m_point_lights furnished_scene)
        (index_lights 0 (m_point_lights furnished_scene) ∅)
        (m_global_lights furnished_scene) 3 [] [] [] [] [] [] : @Scene unit unit,
      [42]) /\
  lights_indexed (m_point_lights furnished_scene)
    (index_lights 0 (m_point_lights furnished_scene) ∅).
Proof.
  destruct furnished_scene_ok as (_ & _ & (Hp & Hpn) & (Hg & Hgn) & Ha & _).
  destruct (lights_round_trip furnished_scene empty [42] Hp Hpn Hg Hgn Ha eq_refl)
    as [Hread Hmap].
  split; [exact Hread|]. apply Hmap; [reflexivity|]. apply NoDup_singleton.
Defined.

Lemma bone_attachments_round_trip_witness :
  deserializeBoneAttachments furnished_scene
    (serializeBoneAttachments furnished_scene [] ++ [42]) =
  Ok (furnished_scene, [42]).
Proof.
  destruct furnished_scene_ok as (_ & _ & _ & _ & _ & _ & _ & (Hok & Hcount & Hs) & _).
  etrans; [apply bone_attachments_round_trip; [exact Hok|exact Hcount|exact Hs]|reflexivity].
Defined.

Lemma decorated_decals_ok :
  Forall Decal_ok (m_decals decorated_scene) /\ count_ok (m_decals decorated_scene).
Proof. unfold decorated_scene. fits. Qed.

Lemma decals_stop_at_assertion_witness :
  deserializeDecals empty (serializeDecals decorated_scene [] ++ [42]) =
    Fault AssertionFailed /\
  deserializeDecals furnished_scene (serializeDecals furnished_scene [] ++ [42]) =
    Ok (furnished_scene, [42]).
Proof.
  destruct decorated_decals_ok as [Hok Hcount]. split.
  - by apply (decals_stop_at_assertion decorated_scene empty [42] Hok Hcount).
  - apply (decals_stop_at_assertion furnished_scene furnished_scene [42]); [| |done];
      unfold furnished_scene; fits.
Defined.

Lemma text_meshes_round_trip_witness :
  deserializeTextMeshes empty (serializeTextMeshes furnished_scene [] ++ [42]) =
  Ok (mkScene [] [] [] ∅ [] INVALID_ENTITY [] [] [] [] []
        [(7, mkTextMesh (Some [102; 46; 116; 116; 102]) 4278190080 13 [104; 105] 0)]
        : @Scene unit unit,
      [42]).
Proof.
  destruct furnished_scene_ok as (_ & _ & _ & _ & _ & _ & _ & _ & (Hok & Hcount & Hs)).
  etrans; [apply text_meshes_round_trip; [exact Hok|exact Hcount|exact Hs|reflexivity]
          |reflexivity].
Defined.


End RoundTrip.

(** ** Reads at clamped coordinates

    [LUA_getTexturePixel] of render_scene.cpp and [Terrain::getHeight] (the
    overload on integer coordinates) of terrain.cpp, which [castRay] reaches
    through [Terrain::castRay].  Both clamp the coordinates and then index
    the bytes of a texture.

    A [Texture] is reduced to the members the two functions read; its data
    is a sequence of bytes.  Reading a [u32], [u16] or [u8] at index [i] of
    the data takes the bytes of that element, least significant first; an
    index outside the data is the fault [OutOfBoundsRead].  [int] arithmetic
    wraps to 32 bits. *)

Module ClampedReads.
Import Float32 Float32Arith Blob.

Definition int32 (v : Z) : Z := to_signed32 (v mod 2 ^ 32).

Record Texture := mkTexture {
  ready : bool;
  data : list Z;
  bytes_per_pixel : Z;
  width : Z;
  height : Z
}.

(** Element [i] of the data seen as an array of elements of [size] bytes. *)
Definition element (size : nat) (bytes : list Z) (i : Z) : outcome Z :=
  if (i <? 0) || (Z.of_nat (length bytes) <? (i + 1) * Z.of_nat size)
  then Fault OutOfBoundsRead
  else Ok (of_le (take size (drop (Z.to_nat i * size) bytes))).

Record Terrain := mkTerrain {
  m_width : Z;
  m_height : Z;
  m_y_scale : float;
  heightmap : Texture
}.

(** The pixel size that [LUA_getTexturePixel] accepts, and the bound that
    keeps [int] arithmetic on coordinates from wrapping. *)
Definition fits_int (w h : Z) : Prop := (w + 1) * (h + 1) * 4 < 2 ^ 31.

Lemma fits_int_sides w h : 0 <= w -> 0 <= h -> fits_int w h ->
  w < 2 ^ 31 /\ h < 2 ^ 31 /\ (w + h * w) * 4 < 2 ^ 31.
Proof.
  unfold fits_int. change (2 ^ 31) with 2147483648. intros Hw Hh Hsize.
  pose proof (Z.mul_nonneg_nonneg _ _ Hw Hh). lia.
Qed.

Lemma row_offset w h c r : 0 <= c <= w -> 0 <= r <= h ->
  0 <= r * w <= h * w /\ 0 <= c + r * w <= w + h * w.
Proof.
  intros Hc Hr.
  assert (0 <= r * w) by (apply Z.mul_nonneg_nonneg; lia).
  assert (r * w <= h * w) by (apply Z.mul_le_mono_nonneg_r; lia).
  lia.
Qed.

Lemma cell_offset w h c r : 0 <= c < w -> 0 <= r < h ->
  0 <= c + r * w < w * h.
Proof.
  intros Hc Hr.
  assert (0 <= r * w) by (apply Z.mul_nonneg_nonneg; lia).
  assert (r * w <= (h - 1) * w) by (apply Z.mul_le_mono_nonneg_r; lia).
  lia.
Qed.

Section WithClamp.

(** [Math::clamp] is declared in engine/math_utils.h, which is not among the
    sources: a parameter, with the contract that the value is brought into
    the interval. *)
Variable clamp : Z -> Z -> Z -> Z.

Definition LUA_getTexturePixel (texture : option Texture) (x y : Z) : outcome Z :=
  match texture with
  | None => Ok 0
  | Some t =>
      if negb (ready t) then Ok 0
      else if bool_decide (data t = []) then Ok 0
      else if negb (bytes_per_pixel t =? 4) then Ok 0
      else
        let x := clamp x 0 (int32 (width t - 1)) in
        let y := clamp y 0 (int32 (height t - 1)) in
        element 4 (data t) (int32 (x + int32 (y * width t)))
  end.

(** [Terrain::getHeight]; any other pixel size runs into [ASSERT(false)]. *)
Definition getHeight (terrain : Terrain) (x z : Z) : outcome float :=
  let t := heightmap terrain in
  let idx :=
    int32 (clamp x 0 (m_width terrain)
           + int32 (clamp z 0 (m_height terrain) * m_width terrain)) in
  if bytes_per_pixel t =? 2 then
    bind (element 2 (data t) idx) (fun sample =>
      Ok (fmul (fdiv (m_y_scale terrain)
                  (fsub (fmul (of_int 256) (of_int 256)) (of_int 1)))
            (of_int sample)))
  else if bytes_per_pixel t =? 4 then
    bind (element 1 (data t) (int32 (idx * 4))) (fun sample =>
      Ok (fmul (fdiv (m_y_scale terrain) (of_int 255)) (of_int sample)))
  else Fault AssertionFailed.

(** The pixel at column [x] of row [y]: the four bytes at its offset. *)
Definition pixel (t : Texture) (x y : Z) : Z :=
  of_le (take 4 (drop (Z.to_nat (4 * (x + y * width t))) (data t))).

(** The data of a texture holds [width * height] pixels, and sizes stay
    within an [int]. *)
Definition texture_ok (t : Texture) : Prop :=
  0 <= width t /\ 0 <= height t /\ 0 <= bytes_per_pixel t /\
  Z.of_nat (length (data t)) = width t * height t * bytes_per_pixel t /\
  fits_int (width t) (height t).

(** The heightmap of a terrain has the terrain's size and two or four bytes
    per sample. *)
Definition terrain_ok (terrain : Terrain) : Prop :=
  texture_ok (heightmap terrain) /\
  width (heightmap terrain) = m_width terrain /\
  height (heightmap terrain) = m_height terrain /\
  0 < m_width terrain /\ 0 < m_height terrain /\
  (bytes_per_pixel (heightmap terrain) = 2 \/ bytes_per_pixel (heightmap terrain) = 4).

Hypothesis clamp_spec :
  forall v lo hi, lo <= hi -> clamp v lo hi = Z.max lo (Z.min v hi).

Lemma int32_small v : - 2 ^ 31 <= v < 2 ^ 31 -> int32 v = v.
Proof.
  intros Hv. unfold int32, to_signed32.
  change (2 ^ 31) with 2147483648 in *. change (2 ^ 32) with 4294967296.
  destruct (Z.ltb_spec (v mod 4294967296) 2147483648); Z.div_mod_to_equations; lia.
Qed.

Lemma element_inside size bytes i :
  0 <= i -> (i + 1) * Z.of_nat size <= Z.of_nat (length bytes) ->
  element size bytes i = Ok (of_le (take size (drop (Z.to_nat i * size) bytes))).
Proof.
  intros Hi Hlen. unfold element.
  assert ((i <? 0) = false) as -> by (apply Z.ltb_ge; lia).
  assert ((Z.of_nat (length bytes) <? (i + 1) * Z.of_nat size) = false) as ->
    by (apply Z.ltb_ge; lia).
  done.
Qed.

Lemma element_outside size bytes i :
  Z.of_nat (length bytes) < (i + 1) * Z.of_nat size ->
  element size bytes i = Fault OutOfBoundsRead.
Proof.
  intros Hlen. unfold element.
  assert ((Z.of_nat (length bytes) <? (i + 1) * Z.of_nat size) = true) as ->
    by (apply Z.ltb_lt; lia).
  by rewrite orb_true_r.
Qed.

(** X24. [LUA_getTexturePixel] never reads outside the texture: for a
    missing texture it returns 0, and for a texture whose data holds
    [width * height] pixels it returns 0 (not ready, no data, or not four
    bytes per pixel) or the pixel at the coordinates clamped to the texture,
    which is the pixel asked for when the coordinates are inside. *)
Theorem LUA_getTexturePixel_in_bounds (texture : option Texture) (x y : Z) :
  (forall t, texture = Some t -> texture_ok t) ->
  (exists v, LUA_getTexturePixel texture x y = Ok v) /\
  (forall t, texture = Some t -> ready t = true -> data t <> [] ->
     bytes_per_pixel t = 4 ->
     let cx := Z.max 0 (Z.min x (width t - 1)) in
     let cy := Z.max 0 (Z.min y (height t - 1)) in
     0 <= cx < width t /\ 0 <= cy < height t /\
     LUA_getTexturePixel texture x y = Ok (pixel t cx cy) /\
     (0 <= x < width t -> 0 <= y < height t ->
      LUA_getTexturePixel texture x y = Ok (pixel t x y))).
Proof.
  intros Hok.
  assert (forall t, texture = Some t -> ready t = true -> data t <> [] ->
            bytes_per_pixel t = 4 ->
            0 <= Z.max 0 (Z.min x (width t - 1)) < width t /\
            0 <= Z.max 0 (Z.min y (height t - 1)) < height t /\
            LUA_getTexturePixel texture x y =
            Ok (pixel t (Z.max 0 (Z.min x (width t - 1)))
                  (Z.max 0 (Z.min y (height t - 1))))) as Hinside.
  { intros t -> Hready Hdata Hbpp.
    destruct (Hok t eq_refl) as (Hw & Hh & _ & Hlen & Hsize).
    rewrite Hbpp in Hlen.
    assert (0 < Z.of_nat (length (data t))) as Hpos
      by (destruct (data t); [done|cbn [length]; lia]).
    assert (width t <> 0) as Hw0 by (intros E; rewrite E in Hlen; lia).
    assert (height t <> 0) as Hh0 by (intros E; rewrite E, Z.mul_0_r in Hlen; lia).
    destruct (fits_int_sides _ _ Hw Hh Hsize) as (Hwb & Hhb & Hall).
    set (cx := Z.max 0 (Z.min x (width t - 1))).
    set (cy := Z.max 0 (Z.min y (height t - 1))).
    assert (0 <= cx < width t) as Hcx by (unfold cx; lia).
    assert (0 <= cy < height t) as Hcy by (unfold cy; lia).
    pose proof (cell_offset _ _ _ _ Hcx Hcy) as Hcell.
    destruct (row_offset (width t) (height t) cx cy ltac:(lia) ltac:(lia)) as [Hrow Hoff].
    split; [done|]. split; [done|].
    unfold LUA_getTexturePixel. rewrite Hready. cbn [negb].
    rewrite bool_decide_eq_false_2 by done.
    rewrite Hbpp. change (4 =? 4) with true. cbn [negb]. cbv zeta.
    rewrite (int32_small (width t - 1)), (int32_small (height t - 1)) by lia.
    rewrite !clamp_spec by lia. fold cx cy.
    rewrite (int32_small (cy * width t)) by lia.
    rewrite int32_small by lia.
    rewrite element_inside; [|lia|change (Z.of_nat 4) with 4; lia].
    unfold pixel. do 4 f_equal. lia. }
  split.
  - destruct texture as [t|]; [|by exists 0].
    destruct (ready t) eqn:Hready; [|exists 0; unfold LUA_getTexturePixel; by rewrite Hready].
    destruct (decide (data t = [])) as [Hdata|Hdata].
    { exists 0. unfold LUA_getTexturePixel. rewrite Hready. cbn [negb].
      by rewrite bool_decide_eq_true_2. }
    destruct (Z.eqb_spec (bytes_per_pixel t) 4) as [Hbpp|Hbpp].
    + destruct (Hinside t eq_refl Hready Hdata Hbpp) as (_ & _ & ->). by eexists.
    + exists 0. unfold LUA_getTexturePixel. rewrite Hready. cbn [negb].
      rewrite bool_decide_eq_false_2 by done.
      by assert ((bytes_per_pixel t =? 4) = false) as -> by (by apply Z.eqb_neq).
  - intros t Ht Hready Hdata Hbpp. cbv zeta.
    destruct (Hinside t Ht Hready Hdata Hbpp) as (Hcx & Hcy & Hread).
    split; [done|]. split; [done|]. split; [done|].
    intros Hx Hy. rewrite Hread. do 2 f_equal; lia.
Qed.

(** X25. [Terrain::getHeight] on integer coordinates clamps them to
    [0 .. m_width] and [0 .. m_height], bounds included, so it reads a
    sample of the heightmap exactly when [z < m_height] and
    ([x < m_width] or [max 0 z < m_height - 1]); any other coordinates index
    past the last sample.  The cells [Terrain::castRay] visits
    ([0 <= hx < m_width - 1], [0 <= hz < m_height - 1]) are inside with
    their four corners. *)
Theorem getHeight_reads_inside (terrain : Terrain) (x z : Z) :
  terrain_ok terrain ->
  (z < m_height terrain /\ (x < m_width terrain \/ Z.max 0 z < m_height terrain - 1) ->
   exists h, getHeight terrain x z = Ok h) /\
  (~ (z < m_height terrain /\ (x < m_width terrain \/ Z.max 0 z < m_height terrain - 1)) ->
   getHeight terrain x z = Fault OutOfBoundsRead) /\
  (0 <= x < m_width terrain - 1 -> 0 <= z < m_height terrain - 1 ->
   forall dx dz, 0 <= dx <= 1 -> 0 <= dz <= 1 ->
     exists h, getHeight terrain (x + dx) (z + dz) = Ok h).
Proof.
  intros ((_ & _ & _ & Hlen & Hsize) & Hw & Hh & Hwpos & Hhpos & Hbpp).
  rewrite Hw, Hh in Hlen, Hsize.
  destruct (fits_int_sides (m_width terrain) (m_height terrain) ltac:(lia) ltac:(lia) Hsize)
    as (Hwb & Hhb & Hall).
  assert (forall x z,
            let idx := Z.max 0 (Z.min x (m_width terrain))
                       + Z.max 0 (Z.min z (m_height terrain)) * m_width terrain in
            int32 (clamp x 0 (m_width terrain)
                   + int32 (clamp z 0 (m_height terrain) * m_width terrain)) = idx /\
            0 <= idx /\ idx * 4 < 2 ^ 31 /\
            (idx < m_width terrain * m_height terrain <->
             z < m_height terrain /\ (x < m_width terrain \/ Z.max 0 z < m_height terrain - 1)))
    as Hidx.
  { intros x' z'. cbv zeta. rewrite !clamp_spec by lia.
    set (cx := Z.max 0 (Z.min x' (m_width terrain))).
    set (cz := Z.max 0 (Z.min z' (m_height terrain))).
    assert (0 <= cx <= m_width terrain) as Hcx by (unfold cx; lia).
    assert (0 <= cz <= m_height terrain) as Hcz by (unfold cz; lia).
    destruct (row_offset _ _ _ _ Hcx Hcz) as [Hrow Hoff].
    rewrite (int32_small (cz * _)) by lia.
    rewrite int32_small by lia.
    split; [done|]. split; [lia|]. split; [lia|].
    destruct (Z.lt_ge_cases z' (m_height terrain)) as [Hz|Hz].
    - destruct (Z.lt_ge_cases x' (m_width terrain)) as [Hx|Hx].
      + assert (0 <= cx < m_width terrain) as Hcx' by (unfold cx; lia).
        assert (0 <= cz < m_height terrain) as Hcz' by (unfold cz; lia).
        pose proof (cell_offset _ _ _ _ Hcx' Hcz'). split; [tauto|]. intros _. lia.
      + assert (cx = m_width terrain) as Ecx by (unfold cx; lia).
        destruct (Z.lt_ge_cases (Z.max 0 z') (m_height terrain - 1)) as [Hz'|Hz'].
        * assert (0 <= cz <= m_height terrain - 2) as Hcz' by (unfold cz; lia).
          destruct (row_offset (m_width terrain) (m_height terrain - 2) 0 cz
                      ltac:(lia) Hcz') as [Hrow' _].
          split; [tauto|]. intros _. lia.
        * assert (cz = m_height terrain - 1) as Ecz by (unfold cz; lia).
          rewrite Ecx, Ecz. split; [intros; lia|]. intros [_ [?|?]]; lia.
    - assert (cz = m_height terrain) as Ecz by (unfold cz; lia).
      rewrite Ecz. split; [intros; lia|]. intros [? _]; lia. }
  assert (forall x z,
            z < m_height terrain /\ (x < m_width terrain \/ Z.max 0 z < m_height terrain - 1) ->
            exists h, getHeight terrain x z = Ok h) as Hinside.
  { intros x' z' Hin. destruct (Hidx x' z') as (Heq & Hpos & Hsmall & Hiff).
    apply Hiff in Hin. unfold getHeight. cbv zeta. rewrite Heq.
    destruct Hbpp as [Hbpp|Hbpp]; rewrite Hbpp in *; cbn [Z.eqb Pos.eqb].
    - rewrite element_inside by (change (Z.of_nat 2) with 2; lia). cbn [bind]. by eexists.
    - rewrite int32_small by lia.
      rewrite element_inside by (change (Z.of_nat 1) with 1; lia). cbn [bind]. by eexists. }
  split; [apply Hinside|]. split.
  - intros Hout. destruct (Hidx x z) as (Heq & Hpos & Hsmall & Hiff).
    assert (m_width terrain * m_height terrain <=
            Z.max 0 (Z.min x (m_width terrain))
            + Z.max 0 (Z.min z (m_height terrain)) * m_width terrain) as Hpast
      by (apply Z.nlt_ge; tauto).
    unfold getHeight. cbv zeta. rewrite Heq.
    destruct Hbpp as [Hbpp|Hbpp]; rewrite Hbpp in *; cbn [Z.eqb Pos.eqb].
    + by rewrite element_outside by (change (Z.of_nat 2) with 2; lia).
    + rewrite int32_small by lia.
      by rewrite element_outside by (change (Z.of_nat 1) with 1; lia).
  - intros Hx Hz dx dz Hdx Hdz. apply Hinside. lia.
Qed.

End WithClamp.

(** [Math::clamp] as the contract has it. *)
Definition clamp_to (v lo hi : Z) : Z := Z.max lo (Z.min v hi).

(** A ready 2 x 2 texture of four bytes per pixel. *)
Definition checker : Texture :=
  mkTexture true [1; 0; 0; 0; 2; 0; 0; 0; 3; 0; 0; 0; 4; 0; 0; 0] 4 2 2.

(** A 3 x 2 terrain with two bytes per sample. *)
Definition ridge : Terrain :=
  mkTerrain 3 2 (of_int 1)
    (mkTexture true [1; 0; 2; 0; 3; 0; 4; 0; 5; 0; 6; 0] 2 3 2).

Lemma LUA_getTexturePixel_in_bounds_witness :
  LUA_getTexturePixel clamp_to (Some checker) 7 (-3) = Ok 2 /\
  LUA_getTexturePixel clamp_to (Some checker) 0 1 = Ok 3.
Proof.
  assert (forall t, Some checker = Some t -> texture_ok t) as Hok.
  { intros t [= <-]. unfold texture_ok, fits_int. cbn. lia. }
  destruct (LUA_getTexturePixel_in_bounds clamp_to (fun v lo hi _ => eq_refl)
              (Some checker) 7 (-3) Hok) as [_ Hedge].
  destruct (LUA_getTexturePixel_in_bounds clamp_to (fun v lo hi _ => eq_refl)
              (Some checker) 0 1 Hok) as [_ Hin].
  split.
  - destruct (Hedge checker eq_refl eq_refl ltac:(done) eq_refl) as (_ & _ & Hread & _).
    exact Hread.
  - destruct (Hin checker eq_refl eq_refl ltac:(done) eq_refl) as (_ & _ & _ & Hread).
    apply Hread; cbn; lia.
Defined.

Lemma getHeight_reads_inside_witness :
  (exists h, getHeight clamp_to ridge 1 0 = Ok h) /\
  getHeight clamp_to ridge 3 1 = Fault OutOfBoundsRead.
Proof.
  assert (terrain_ok ridge) as Hok.
  { unfold terrain_ok, texture_ok, fits_int. cbn. lia. }
  split.
  - apply (getHeight_reads_inside clamp_to (fun v lo hi _ => eq_refl) ridge 1 0 Hok).
    cbn. lia.
  - apply (getHeight_reads_inside clamp_to (fun v lo hi _ => eq_refl) ridge 3 1 Hok).
    cbn. lia.
Defined.

End ClampedReads.
